(** * Komusan vocabulary builder: candidate generation, repair and scoring

    A shallow embedding of the phonetic candidate engine of
    [scripts/buildutil.py] and [scripts/buildvoc.py], and the properties
    that the specification states about it.

    Python [str] values are sequences of Unicode code points; they are
    modelled as [list N], one number per code point, so that [len], slices,
    comparisons and [in] tests behave as in the source (the filler vowel
    U+0259 is one character, as in Python).  Integers are unbounded, as in
    Python; the float scores are taken from a number type given as a
    parameter, with its operations and comparisons. *)

From Stdlib Require Import NArith ZArith List String Ascii Bool Lia QArith Lqa Sorted.
From stdpp Require Import base list gmap sets strings.

Set Default Proof Using "Type".

Abbreviation char := N (only parsing).
Abbreviation str := (list N) (only parsing).

(** ** Literals *)

(** Rocq string literals are byte strings; [ustr] decodes the UTF-8 bytes of
    a literal into code points, so that sources can be quoted as written. *)
Fixpoint utf8_go (s : string) (need : nat) (acc : N) : str :=
  match s with
  | EmptyString => []
  | String a s' =>
      let b := N_of_ascii a in
      match need with
      | O =>
          if (b <? 128)%N then b :: utf8_go s' 0 0%N
          else if (b <? 224)%N then utf8_go s' 1 (b - 192)%N
          else if (b <? 240)%N then utf8_go s' 2 (b - 224)%N
          else utf8_go s' 3 (b - 240)%N
      | S n =>
          let acc' := (acc * 64 + (b - 128))%N in
          match n with
          | O => acc' :: utf8_go s' 0 0%N
          | S _ => utf8_go s' n acc'
          end
      end
  end.

Definition ustr (s : string) : str := utf8_go s 0 0%N.
Arguments ustr s%_string.

(** A one-character literal. *)
Definition uchr (s : string) : char := List.hd 0%N (ustr s).
Arguments uchr s%_string.

(** ** Python string primitives *)

Module Py.

(** [c in s] for a single character [c]. *)
Definition char_in (c : char) (s : str) : bool :=
existsb (N.eqb c) s.

(** [s.startswith(p)] *)
Fixpoint startswith (p s : str) : bool :=
match p, s with
| [], _ => true
| _ :: _, [] => false
| x :: p', y :: s' => (x =? y)%N && startswith p' s'
end.

(** [s.endswith(p)] *)
Definition endswith (p s : str) : bool :=
startswith (rev p) (rev s).

(** [sub in s] for strings: substring test. *)
Fixpoint str_in (sub s : str) : bool :=
startswith sub s ||
match s with
| [] => false
| _ :: s' => str_in sub s'
end.

(** [s[:-n]] for [n > 0] *)
Definition drop_last (n : nat) (s : str) : str :=
take (length s - n) s.

(** [s[-n:]] for [n > 0] *)
Definition last_n (n : nat) (s : str) : str :=
drop (length s - n) s.

(** [s[-1]] on a non-empty string; [None] stands for [IndexError]. *)
Definition last_char (s : str) : option char := last s.

(** [s[-2]]; [None] stands for [IndexError]. *)
Definition last2_char (s : str) : option char :=
match rev s with
| _ :: c :: _ => Some c
| _ => None
end.

(** [a > b]: strings compare lexicographically by code point. *)
Fixpoint str_gt (a b : str) : bool :=
match a, b with
| [], _ => false
| _ :: _, [] => true
| x :: a', y :: b' =>
    if (y <? x)%N then true
    else if (x <? y)%N then false
    else str_gt a' b'
end.

(** [a < b] *)
Definition str_lt (a b : str) : bool := str_gt b a.

(** [s.replace(old, new)] for a non-empty [old]: occurrences are replaced
  from the left, without overlap.  [skip] counts the characters of an
  occurrence that was already replaced and still has to be passed over. *)
Fixpoint replace_go (old new : str) (s : str) (skip : nat) : str :=
match s with
| [] => []
| c :: s' =>
    match skip with
    | S n => replace_go old new s' n
    | O =>
        if startswith old s
        then new ++ replace_go old new s' (length old - 1)
        else c :: replace_go old new s' 0
    end
end.

Definition replace (old new s : str) : str := replace_go old new s 0.

(** [s.count(sub)] for a non-empty [sub]: non-overlapping occurrences. *)
Fixpoint count_go (sub : str) (s : str) (skip : nat) : nat :=
match s with
| [] => 0
| _ :: s' =>
    match skip with
    | S n => count_go sub s' n
    | O =>
        if startswith sub s
        then S (count_go sub s' (length sub - 1))
        else count_go sub s' 0
    end
end.

Definition count (sub s : str) : nat := count_go sub s 0.

(** [s.find(sub)]; [None] stands for the result [-1]. *)
Fixpoint find (sub s : str) : option nat :=
if startswith sub s then Some 0
else match s with
     | [] => None
     | _ :: s' => option_map S (find sub s')
     end.

(** [str.isspace] on one character: the characters Python treats as
  whitespace in [split()] and [strip()] without arguments. *)
Definition isspace (c : char) : bool :=
((9 <=? c) && (c <=? 13) || (28 <=? c) && (c <=? 32)
 || (c =? 133) || (c =? 160) || (c =? 5760)
 || (8192 <=? c) && (c <=? 8202)
 || (c =? 8232) || (c =? 8233) || (c =? 8239) || (c =? 8287)
 || (c =? 12288))%N.

(** [s.split()]: maximal runs of non-whitespace characters.  [cur] is the
  run being read, reversed. *)
Fixpoint split_go (s : str) (cur : str) : list str :=
match s with
| [] => match cur with [] => [] | _ => [rev cur] end
| c :: s' =>
    if isspace c
    then match cur with
         | [] => split_go s' []
         | _ => rev cur :: split_go s' []
         end
    else split_go s' (c :: cur)
end.

Definition split (s : str) : list str := split_go s [].

(** [s.lstrip()], [s.rstrip()], [s.strip()] *)
Fixpoint lstrip (s : str) : str :=
match s with
| c :: s' => if isspace c then lstrip s' else s
| [] => []
end.

Definition rstrip (s : str) : str := rev (lstrip (rev s)).
Definition strip (s : str) : str := rstrip (lstrip s).

(** [sep.join(l)] *)
Fixpoint join (sep : str) (l : list str) : str :=
match l with
| [] => []
| [x] => x
| x :: l' => x ++ sep ++ join sep l'
end.

End Py.

(** ** The internal phonological alphabet ([buildutil.py], constants) *)

Definition INITIAL_NON_SEMIVOWELS : str := ustr "bCdfghjklmnprsStvz".
Definition SEMIVOWELS : str := ustr "wy".
Definition INITIAL_CONSONANTS : str := INITIAL_NON_SEMIVOWELS ++ SEMIVOWELS.
Definition ALL_CONSONANTS : str := INITIAL_CONSONANTS ++ ustr "N".
Definition ALL_CONSONANTS_SET : gset N := list_to_set ALL_CONSONANTS.
Definition ALL_NON_SEMIVOWELS : str := INITIAL_NON_SEMIVOWELS ++ ustr "N".
Definition WORD_FINAL_CONSONANTS : str := ustr "klmnNprst".
Definition SYLLABLE_FINAL_CONSONANTS : str := WORD_FINAL_CONSONANTS ++ ustr "bdg".
Definition SECOND_CONSONANTS : str := ustr "lrwy".
Definition NOT_WORD_FINAL_NON_SEMIVOWEL : str := ustr "CSbdfghjvz".
Definition NOT_SYLLABLE_FINAL_NON_SEMIVOWEL : str := ustr "CSfhjvz".
Definition NOT_SECOND_CONSONANTS : str := ustr "bCdfghjkmnpsStvz".
Definition SIMPLE_VOWELS : str := ustr "aeiou".
Definition INTERNAL_VOWELS : str := SIMPLE_VOWELS ++ ustr "ə".
Definition FALLING_DIPHTHONGS : str := ustr "ay|aw|ew|oy".
Definition ILLEGAL_FALLING_DIPHTHONGS : str := ustr "ey|iy|ow|uw".

(** The filler vowel. *)
Definition schwa : char := uchr "ə".

(** ** Edit distance *)

(** [editdistance.eval] comes from the external [editdistance] package; it
    returns the Levenshtein distance (unit-cost insertions, deletions and
    substitutions), given here by its defining recurrence. *)
Fixpoint editdistance (a b : str) : nat :=
  match a with
  | [] => length b
  | x :: a' =>
      (fix inner (b : str) : nat :=
         match b with
         | [] => length a
         | y :: b' =>
             Nat.min (Nat.min (S (editdistance a' b)) (S (inner b')))
                     (editdistance a' b' + (if (x =? y)%N then 0 else 1))
         end) b
  end.

(** ** [VocBuilder.calc_distance] ([buildvoc.py], lines 1060-1111) *)

(** What a call produces: a returned pair, or the exception raised by the
    division on line 1090. *)
Inductive distance_result :=
| Returns (edist : nat) (related : bool)
| ZeroDivisionError.

(** [set(word.replace('N', 'n')) & bu.ALL_CONSONANTS_SET] *)
Definition consonant_set (word : str) : gset N :=
  list_to_set (Py.replace (ustr "N") (ustr "n") word) ∩ ALL_CONSONANTS_SET.

(** Lines 1089-1111: the body reached once no shared filler is left and the
    arguments are in alphabetic order.  The quotient of two integers is
    correctly rounded and 0.5 is a double, so that, for words shorter than
    2^53 letters, [edist / maxlen <= 0.5] holds exactly when
    [2 * edist <= maxlen]. *)
Definition calc_distance_body (word other_word : str) : distance_result :=
  let edist := editdistance word other_word in
  let maxlen := Nat.max (length word) (length other_word) in
  if (maxlen =? 0)%nat then ZeroDivisionError
  else
    let related := (2 * edist <=? maxlen)%nat in
    let related :=
      if negb related then
        let '(shorter, longer) :=
          if (length word <? length other_word)%nat
          then (word, other_word) else (other_word, word) in
        (2 <=? length shorter)%nat
        && (Py.startswith shorter longer || Py.endswith shorter longer)
      else related in
    let related :=
      if related then
        let word_consonants := consonant_set word in
        let other_word_consonants := consonant_set other_word in
        if bool_decide (word_consonants ≠ ∅)
           && bool_decide (other_word_consonants ≠ ∅)
        then bool_decide (word_consonants ∩ other_word_consonants ≠ ∅)
        else related
      else related in
    Returns edist related.

(** The function calls itself after stripping a shared filler and after
    swapping its arguments; [fuel] bounds the depth of these calls, and
    [None] is returned only when it runs out. *)
Fixpoint calc_distance_rec (fuel : nat) (word other_word : str)
  : option distance_result :=
  match fuel with
  | O => None
  | S fuel' =>
      if Py.startswith [schwa] word && Py.startswith [schwa] other_word
      then calc_distance_rec fuel' (drop 1 word) (drop 1 other_word)
      else if Py.endswith [schwa] word && Py.endswith [schwa] other_word
      then calc_distance_rec fuel' (Py.drop_last 1 word) (Py.drop_last 1 other_word)
      else if Py.str_gt word other_word
      then calc_distance_rec fuel' other_word word
      else Some (calc_distance_body word other_word)
  end.

(** Each stripping call shortens both words and at most one swap follows,
    so this much fuel is never used up. *)
Definition calc_distance (word other_word : str) : option distance_result :=
  calc_distance_rec (length word + length other_word + 2) word other_word.


(** ** Unicode tables *)

(** The parts of Python's Unicode database that the engine consults.  They
    belong to the interpreter, not to the repository, and are taken as a
    parameter. *)
Class Unicode := {
  (** [str.lower()] *)
  py_lower : str → str;
  (** [str.isalpha()] on one character *)
  py_isalpha : char → bool;
  (** the class [\w] of [re] on one character *)
  py_isword : char → bool;
  (** [unicodedata.name(c).startswith("LATIN")]; [None] stands for the
      [ValueError] that [unicodedata.name] raises on a character without
      a name *)
  py_latin_name : char → option bool;
}.

(** A table that agrees with Python on ASCII and on the filler vowel
    U+0259 (a lower-case Latin letter); used to run examples.  The ASCII
    control characters have no name. *)
Definition ascii_isupper (c : char) : bool := ((65 <=? c) && (c <=? 90))%N.
Definition ascii_islower (c : char) : bool := ((97 <=? c) && (c <=? 122))%N.
Definition ascii_isdigit (c : char) : bool := ((48 <=? c) && (c <=? 57))%N.

Definition basic_unicode : Unicode := {|
  py_lower := map (λ c, if ascii_isupper c then (c + 32)%N else c);
  py_isalpha := λ c, ascii_isupper c || ascii_islower c || (c =? 601)%N;
  py_isword := λ c, ascii_isupper c || ascii_islower c || ascii_isdigit c
                    || (c =? 95)%N || (c =? 601)%N;
  py_latin_name := λ c,
    if ascii_isupper c || ascii_islower c || (c =? 601)%N then Some true
    else if (c <? 32)%N || (c =? 127)%N then None
    else Some false;
|}.

(** ** Regular expressions *)

(** The fragment of Python's [re] syntax that the engine uses, with the
    backtracking semantics of [re]: alternatives are tried in order,
    repetitions are greedy, and the first overall match wins. *)
Module Re.

(** One-character matchers. *)
Inductive cset :=
| CIn (s : str)        (** [[...]] *)
| CNotIn (s : str)     (** [[^...]] *)
| CAny                 (** [.]: any character but a newline *)
| CSpace.              (** [\s] *)

Definition cset_match (cs : cset) (c : char) : bool :=
match cs with
| CIn s => Py.char_in c s
| CNotIn s => negb (Py.char_in c s)
| CAny => negb (c =? 10)%N
| CSpace => Py.isspace c
end.

Inductive regex :=
| Eps                              (** the empty pattern *)
| Lit (s : str)                    (** a literal string *)
| One (cs : cset)                  (** one character of a class *)
| Many (cs : cset) (atleast : nat) (** [cs*] ([atleast = 0]), [cs+] ([1]) *)
| Seq (r1 r2 : regex)
| Alt (r1 r2 : regex)              (** [r1|r2] *)
| Opt (r : regex)                  (** [r?] *)
| Grp (n : nat) (r : regex)        (** capturing group number [n] *)
| Backref (n : nat)                (** [\n] *)
| Bol                              (** [^] *)
| Eol                              (** [$] *)
| WordB                            (** [\b] *)
| Ahead (r : regex)                (** [(?=r)] *)
| NotAhead (r : regex)             (** [(?!r)] *)
| Behind (cs : cset).              (** [(?<=cs)], one character wide *)

(** Captured groups, the most recent first. *)
Definition groups := list (nat * str).

Fixpoint group (g : groups) (n : nat) : str :=
match g with
| [] => []
| (m, s) :: g' => if (m =? n)%nat then s else group g' n
end.

(** A position in the subject: the text before it (reversed), the text
  after it, and the groups captured so far. *)
Record mstate := MState { before : str; after : str; caps : groups }.

Definition advance (n : nat) (st : mstate) : mstate :=
MState (rev (take n (after st)) ++ before st) (drop n (after st)) (caps st).

Section Matcher.
Context {U : Unicode}.

(** [\b]: the characters on the two sides differ in being word
characters; the ends of the subject count as non-word. *)
Definition at_word_boundary (st : mstate) : bool :=
let l := match before st with c :: _ => py_isword c | [] => false end in
let r := match after st with c :: _ => py_isword c | [] => false end in
xorb l r.

(** Greedy repetition of a one-character class: take as many characters
as possible, and give them back one by one when the rest fails. *)
Fixpoint many {A} (cs : cset) (atleast : nat) (aft : str) (bef : str)
(g : groups) (k : mstate → option A) : option A :=
let stop := match atleast with O => k (MState bef aft g) | S _ => None end in
match aft with
| c :: aft' =>
  if cset_match cs c then
    match many cs (Nat.pred atleast) aft' (c :: bef) g k with
    | Some a => Some a
    | None => stop
    end
  else stop
| [] => stop
end.

(** [rmatch r st k]: match [r] at [st] and continue with [k]; when [k]
fails the next way of matching [r] is tried. *)
Fixpoint rmatch {A} (r : regex) (st : mstate) (k : mstate → option A)
: option A :=
match r with
| Eps => k st
| Lit s =>
  if Py.startswith s (after st) then k (advance (length s) st) else None
| One cs =>
  match after st with
  | c :: aft' =>
      if cset_match cs c then k (MState (c :: before st) aft' (caps st))
      else None
  | [] => None
  end
| Many cs atleast => many cs atleast (after st) (before st) (caps st) k
| Seq r1 r2 => rmatch r1 st (λ st', rmatch r2 st' k)
| Alt r1 r2 =>
  match rmatch r1 st k with
  | Some a => Some a
  | None => rmatch r2 st k
  end
| Opt r' =>
  match rmatch r' st k with
  | Some a => Some a
  | None => k st
  end
| Grp n r' =>
  rmatch r' st (λ st',
    let text := take (length (after st) - length (after st')) (after st) in
    k (MState (before st') (after st') ((n, text) :: caps st')))
| Backref n =>
  let s := group (caps st) n in
  if Py.startswith s (after st) then k (advance (length s) st) else None
| Bol => match before st with [] => k st | _ => None end
| Eol =>
  match after st with
  | [] => k st
  | [c] => if (c =? 10)%N then k st else None
  | _ => None
  end
| WordB => if at_word_boundary st then k st else None
| Ahead r' =>
  match rmatch r' st Some with
  | Some st' => k (MState (before st) (after st) (caps st'))
  | None => None
  end
| NotAhead r' =>
  match rmatch r' st Some with
  | Some _ => None
  | None => k st
  end
| Behind cs =>
  match before st with
  | c :: _ => if cset_match cs c then k st else None
  | [] => None
  end
end.

(** A match of [r] starting exactly here: the groups (group 0 is the
whole match) and the number of characters matched. *)
Definition match_at (r : regex) (bef aft : str) : option (groups * nat) :=
rmatch r (MState bef aft []) (λ st,
let n := length aft - length (after st) in
Some ((0, take n aft) :: caps st, n)).

(** [re.subn(r, repl, s)]: the matches are found from left to right
without overlap; each is replaced by [repl] applied to its groups.
[skip] counts the characters of the last match still to be passed. *)
Fixpoint subn_go (r : regex) (repl : groups → str) (bef s : str)
(skip : nat) : str * nat :=
match s with
| [] =>
  match skip, match_at r bef [] with
  | O, Some (g, _) => (repl g, 1)
  | _, _ => ([], 0)
  end
| c :: s' =>
  match skip with
  | S n => subn_go r repl (c :: bef) s' n
  | O =>
      match match_at r bef s with
      | Some (g, O) =>
          let '(out, cnt) := subn_go r repl (c :: bef) s' 0 in
          (repl g ++ c :: out, S cnt)
      | Some (g, S n) =>
          let '(out, cnt) := subn_go r repl (c :: bef) s' n in
          (repl g ++ out, S cnt)
      | None =>
          let '(out, cnt) := subn_go r repl (c :: bef) s' 0 in
          (c :: out, cnt)
      end
  end
end.

Definition subn (r : regex) (repl : groups → str) (s : str) : str * nat :=
subn_go r repl [] s 0.

(** [re.sub(r, repl, s)] *)
Definition sub (r : regex) (repl : groups → str) (s : str) : str :=
fst (subn r repl s).

(** [re.search(r, s)], as a truth value. *)
Fixpoint search_go (r : regex) (bef s : str) : bool :=
match match_at r bef s with
| Some _ => true
| None =>
  match s with
  | [] => false
  | c :: s' => search_go r (c :: bef) s'
  end
end.

Definition search (r : regex) (s : str) : bool := search_go r [] s.

(** A match of [r] starting here that is not empty: the engine goes on
to the next way of matching when it comes to the end of the pattern
without having advanced. *)
Definition match_at_nonempty (r : regex) (bef aft : str)
: option (groups * nat) :=
rmatch r (MState bef aft []) (λ st,
let n := length aft - length (after st) in
if (n =? 0)%nat then None else Some ((0, take n aft) :: caps st, n)).

(** [re.split(r, s)] for a pattern without capturing groups.  [cur] is the
piece being read, reversed.  The text is cut at every match, the empty
ones too; the search for the next match starts where the last one ended,
and right after an empty match only a match that is not empty counts at
that place. *)
Fixpoint split_go (r : regex) (bef s : str) (skip : nat) (cur : str)
: list str :=
match s with
| [] =>
  match skip, match_at r bef [] with
  | O, Some _ => [rev cur; []]
  | _, _ => [rev cur]
  end
| c :: s' =>
  match skip with
  | S n => split_go r (c :: bef) s' n cur
  | O =>
      match match_at r bef s with
      | Some (_, S n) => rev cur :: split_go r (c :: bef) s' n []
      | Some (_, O) =>
          rev cur ::
          match match_at_nonempty r bef s with
          | Some (_, S n) => [] :: split_go r (c :: bef) s' n []
          | _ => split_go r (c :: bef) s' 0 [c]
          end
      | None => split_go r (c :: bef) s' 0 (c :: cur)
      end
  end
end.

Definition split (r : regex) (s : str) : list str := split_go r [] s 0 [].

End Matcher.

(** Shorthands for writing patterns. *)
Definition cls (s : str) : regex := One (CIn s).
Definition lit (s : string) : regex := Lit (ustr s).
Arguments lit s%_string.
Fixpoint seqs (l : list regex) : regex :=
match l with
| [] => Eps
| [r] => r
| r :: l' => Seq r (seqs l')
end.
Fixpoint alts (l : list regex) : regex :=
match l with
| [] => Eps
| [r] => r
| r :: l' => Alt r (alts l')
end.

End Re.

(** ** Precompiled patterns ([buildutil.py], lines 34-125) *)

Import Re.

Definition ALL_CONSONANTS_RE : regex := cls ALL_CONSONANTS.
(** [(iw|uy)(?!([aeiou]))] *)
Definition IU_FALLING_DIPHTHONGS_RE : regex :=
  Seq (Grp 1 (Alt (lit "iw") (lit "uy"))) (NotAhead (Grp 2 (cls SIMPLE_VOWELS))).
(** [(ey|iy|ow|uw)(?!([aeiou]))] *)
Definition ILLEGAL_FALLING_DIPHTHONGS_RE : regex :=
  Seq (Grp 1 (alts [lit "ey"; lit "iy"; lit "ow"; lit "uw"]))
      (NotAhead (Grp 2 (cls SIMPLE_VOWELS))).
(** [([aeiouə])w(?![aeiouə])] and the same for [y] *)
Definition W_RE : regex :=
  seqs [Grp 1 (cls INTERNAL_VOWELS); lit "w"; NotAhead (cls INTERNAL_VOWELS)].
Definition Y_RE : regex :=
  seqs [Grp 1 (cls INTERNAL_VOWELS); lit "y"; NotAhead (cls INTERNAL_VOWELS)].
Definition INTERNAL_VOWEL_RE : regex := cls INTERNAL_VOWELS.
Definition ILLEGAL_CONS_PAIR_RE : regex :=
  Seq (Grp 1 (cls NOT_SYLLABLE_FINAL_NON_SEMIVOWEL))
      (Grp 2 (cls NOT_SECOND_CONSONANTS)).
Definition INITIAL_KS_RE : regex := Seq Bol (lit "ks").
(** [(?:^|(?<=[klmnNprstbdg]))ts] *)
Definition TS_COMBI_RE : regex :=
  Seq (Alt Bol (Behind (CIn SYLLABLE_FINAL_CONSONANTS))) (lit "ts").
(** [([rs][mnt])([bCdfghjkmnpsStvz])] *)
Definition ILLEGAL_RN_TRIPLE_RE : regex :=
  Seq (Grp 1 (Seq (cls (ustr "rs")) (cls (ustr "mnt"))))
      (Grp 2 (cls NOT_SECOND_CONSONANTS)).
(** [([klmnNprstbdg])(s[kpt].)] *)
Definition ILLEGAL_SKPT_TRIPLE_RE : regex :=
  Seq (Grp 1 (cls SYLLABLE_FINAL_CONSONANTS))
      (Grp 2 (seqs [lit "s"; cls (ustr "kpt"); One CAny])).
(** [\b([initial])([syllable-final][initial])] *)
Definition INITIAL_CONS_TRIPLE_RE : regex :=
  seqs [WordB; Grp 1 (cls INITIAL_CONSONANTS);
        Grp 2 (Seq (cls SYLLABLE_FINAL_CONSONANTS) (cls INITIAL_CONSONANTS))].
Definition ILLEGAL_CONS_TRIPLE_RE : regex :=
  Seq (Grp 1 (Seq (cls SYLLABLE_FINAL_CONSONANTS) (cls SYLLABLE_FINAL_CONSONANTS)))
      (Grp 2 (cls NOT_SECOND_CONSONANTS)).
Definition ILLEGAL_CONS_TRIPLE2_RE : regex :=
  Seq (Grp 1 (Seq (cls INITIAL_NON_SEMIVOWELS) (cls (ustr "lr"))))
      (Grp 2 (cls ALL_NON_SEMIVOWELS)).
Definition NY_BEFORE_CONSONANT : regex :=
  Seq (lit "ny") (Grp 1 (cls INITIAL_CONSONANTS)).
(** [([consonant])\1] *)
Definition DOUBLE_CONS_RE : regex :=
  Seq (Grp 1 (cls ALL_CONSONANTS)) (Backref 1).
Definition H_BEFORE_CONSONANT : regex :=
  Seq (lit "h") (Grp 1 (cls ALL_NON_SEMIVOWELS)).
(** One or more of the punctuation characters of line 125: hyphen, comma,
    full stop, ellipsis, semicolon, colon, exclamation mark, question mark,
    double quote (character 34), slash and the two parentheses. *)
Definition PUNCTUATION_RE : regex :=
  Many (CIn (ustr "-,.…;:!?" ++ [34%N] ++ ustr "/()")) 1.

(** The replacement tables, in the order in which the dictionaries list
    (and Python iterates) them. *)
Definition EXPORT_REPL : list (str * str) :=
  [ (ustr "sh", ustr "s-h"); (ustr "C", ustr "ch"); (ustr "Ng", ustr "ng");
    (ustr "Nk", ustr "nk"); (ustr "N", ustr "ng"); (ustr "S", ustr "sh");
    (ustr "ə", ustr "e") ].

Definition NORM_REPL : list (str * str) :=
  [ (ustr "v", ustr "u"); (ustr "w", ustr "u"); (ustr "y", ustr "i");
    (ustr "z", ustr "s"); (ustr "-", []) ].

(** ** Floating-point numbers *)

(** Scores are Python floats.  The engine builds them from integers and
    the literals [0.5] and [0.6], adds, subtracts, multiplies, divides and
    negates them, and compares them; the engine is defined over any number
    type with these operations. *)
Class PyFloat := {
  float : Type;
  (** [float(n)], also for an integer operand of a mixed operation *)
  of_int : Z → float;
  literal_0_5 : float;
  literal_0_6 : float;
  (** [a / b] on two integers *)
  int_truediv : Z → Z → float;
  fadd : float → float → float;
  fsub : float → float → float;
  fmul : float → float → float;
  fdiv : float → float → float;
  fneg : float → float;
  (** [a <= b] and [a == b] *)
  fle : float → float → bool;
  feq : float → float → bool;
}.

(** [a < b], and [b > a] *)
Definition flt `{PyFloat} (a b : float) : bool := negb (fle b a).

(** What the properties of scoring and ranking rest on: [<=] is a total
    preorder that negation reverses, [==] is [<=] both ways, and
    [0 / d + 1] is [1].  The doubles other than NaN are of this kind, and
    the engine produces no NaN, as it divides by non-zero numbers only. *)
Class PyFloatLaws (F : PyFloat) : Prop := {
  fle_total : ∀ a b : float, fle a b = true ∨ fle b a = true;
  fle_trans : ∀ a b c : float, fle a b = true → fle b c = true → fle a c = true;
  feq_fle : ∀ a b : float, feq a b = fle a b && fle b a;
  fneg_fle : ∀ a b : float, fle (fneg a) (fneg b) = fle b a;
  zero_div_plus_one :
    ∀ d, (0 < d)%Z → fadd (int_truediv 0 d) (of_int 1) = of_int 1;
}.

(** Exact arithmetic on rationals in lowest terms; used to run examples. *)
Definition exact_floats : PyFloat := {|
  float := Q;
  of_int := inject_Z;
  literal_0_5 := 1 # 2;
  literal_0_6 := 3 # 5;
  int_truediv := λ a b, Qred (inject_Z a / inject_Z b);
  fadd := λ a b, Qred (a + b);
  fsub := λ a b, Qred (a - b);
  fmul := λ a b, Qred (a * b);
  fdiv := λ a b, Qred (a / b);
  fneg := λ a, Qred (- a);
  fle := Qle_bool;
  feq := Qeq_bool;
|}.

(** ** Candidates ([buildutil.py], class [Candidate]) *)

Section Candidates.
Context {F : PyFloat}.

(** [related_cands] maps a language code to the related candidates of that
    language; they are recorded here by their words. *)
Record Candidate := mkCandidate {
  word : str;
  penalty : Z;
  lang : str;
  original : str;
  true_original : option str;
  auxlangs : list str;
  raw_psim : Z;
  simscore : float;
  related_cands : gmap str (list str);
  filled : bool;
}.

(** The constructor call [Candidate(word, penalty, lang, original,
    true_original, auxlangs)] with the defaults of the remaining fields. *)
Definition new_Candidate (word : str) (penalty : Z) (lang original : str)
    (true_original : option str) (auxlangs : list str) : Candidate :=
  mkCandidate word penalty lang original true_original auxlangs
              (-1) (of_int (-1)) ∅ false.

Definition with_word (w : str) (c : Candidate) : Candidate :=
  mkCandidate w (penalty c) (lang c) (original c) (true_original c)
              (auxlangs c) (raw_psim c) (simscore c) (related_cands c) (filled c).

Definition with_simscore (q : float) (c : Candidate) : Candidate :=
  mkCandidate (word c) (penalty c) (lang c) (original c) (true_original c)
              (auxlangs c) (raw_psim c) q (related_cands c) (filled c).

(** [max(1 - self.penalty / 5.0, 0.0)] *)
Definition dscore (c : Candidate) : float :=
  let d := fsub (of_int 1) (fdiv (of_int (penalty c)) (of_int 5)) in
  if flt d (of_int 0) then of_int 0 else d.

(** [self.simscore * self.dscore] *)
Definition total_score (c : Candidate) : float := fmul (simscore c) (dscore c).

(** [sum(1 for lang in self.related_cands if lang not in self.auxlangs)] *)
Definition count_related_natlang_cands (c : Candidate) : nat :=
  length (filter (λ l, l ∉ auxlangs c) (elements (dom (related_cands c)))).

End Candidates.

Section Engine.
Context {U : Unicode} {F : PyFloat}.

(** [export_word] ([buildutil.py], lines 759-769) *)
Definition export_word (word : str) : str :=
  let word := Re.sub W_RE (λ g, group g 1 ++ ustr "u") word in
  let word := Re.sub Y_RE (λ g, group g 1 ++ ustr "i") word in
  foldl (λ w kv, Py.replace (fst kv) (snd kv) w) word EXPORT_REPL.

(** [normalize_word] ([buildutil.py], lines 772-788) *)
Definition normalize_word (word : str) : str :=
  let word := py_lower word in
  let word := Re.sub (Many CSpace 1) (λ _, []) word in
  let word := if Py.endswith (ustr "ng") word then Py.drop_last 1 word else word in
  foldl (λ w kv, Py.replace (fst kv) (snd kv) w) word NORM_REPL.

(** [count_vowels_internal] ([buildutil.py], lines 791-797) *)
Definition count_vowels_internal (word : str) : nat :=
  length (filter (λ c, Py.char_in c INTERNAL_VOWELS = true) (py_lower word)).

(** The property [Candidate.syllables]; [word[0]] and [word[-1]] are read
    only when the count is non-zero, hence on a non-empty word. *)
Definition syllables (c : Candidate) : float :=
  let count := count_vowels_internal (word c) in
  let first_is_vowel :=
    match word c with x :: _ => Py.char_in x INTERNAL_VOWELS | [] => false end in
  let last_is_vowel :=
    match last (word c) with Some x => Py.char_in x INTERNAL_VOWELS | None => false end in
  if negb (count =? 0)%nat && first_is_vowel && last_is_vowel
  then fsub (of_int (Z.of_nat count)) literal_0_5
  else of_int (Z.of_nat count).

(** *** [Candidate.insert_filler_vowels] ([buildutil.py], lines 279-514) *)

(** [s[-1] in set], guarded by the caller against the empty string. *)
Definition last_in (set : str) (s : str) : bool :=
  match Py.last_char s with Some c => Py.char_in c set | None => false end.

(** [s[-2] in set], guarded by the caller against short strings. *)
Definition last2_in (set : str) (s : str) : bool :=
  match Py.last2_char s with Some c => Py.char_in c set | None => false end.

Definition vowel_of_semivowel (s : str) : str :=
  if decide (s = ustr "w") then ustr "u" else ustr "i".

(** Lines 414-416: the substitution is repeated until a pass replaces
    nothing.  [None] is returned only when [fuel] passes did not suffice. *)
Fixpoint insert_between_illegal_pairs (fuel : nat) (word : str) : option str :=
  match fuel with
  | O => None
  | S fuel' =>
      let '(word, count) :=
        Re.subn ILLEGAL_CONS_PAIR_RE (λ g, group g 1 ++ [schwa] ++ group g 2) word in
      if (count =? 0)%nat then Some word
      else insert_between_illegal_pairs fuel' word
  end.

(** The statements of the loop body update the sub-word and add to the
    penalty; a statement is a function on that pair, and a block of
    statements runs them in order. *)
Definition statement : Type := str * Z → str * Z.

(** [word = f(word)] *)
Definition on_word (f : str → str) : statement :=
  λ st, (f st.1, st.2).

(** [word, count = f(word); self.penalty += count] *)
Definition counting (f : str → str * nat) : statement :=
  λ st, let '(word, count) := f st.1 in (word, (st.2 + Z.of_nat count)%Z).

(** [if b: statement] *)
Definition when (b : bool) (s : statement) : statement :=
  if b then s else id.

Definition run (block : list statement) (st : str * Z) : str * Z :=
  foldl (λ st s, s st) st block.

(** Lines 303-350 of the loop body. *)
Definition repair_block_1 (lang : str) : list statement :=
  [ on_word (Re.sub (Seq (lit "X") (Grp 1 (cls INTERNAL_VOWELS)))
                    (λ g, ustr "h" ++ group g 1));
    when (bool_decide (lang = ustr "es"))
      (on_word (Re.sub (Seq (lit "X") (Grp 1 (cls SEMIVOWELS)))
                       (λ g, ustr "h" ++ group g 1)));
    counting (λ word,
      let x_count := Py.count (ustr "X") word in
      (if (x_count =? 0)%nat then word
       else Py.replace (ustr "X") (ustr "k") word, x_count));
    on_word (Py.replace (ustr "tx") (ustr "c"));
    on_word (Py.replace (ustr "tc") (ustr "c"));
    on_word (Py.replace (ustr "iy") (ustr "i"));
    on_word (Py.replace (ustr "uw") (ustr "u"));
    on_word (Re.sub DOUBLE_CONS_RE (λ g, group g 1));
    when (bool_decide (lang ≠ ustr "de"))
      (on_word (Re.sub NY_BEFORE_CONSONANT (λ g, ustr "n" ++ group g 1)));
    on_word (Re.sub (seqs [Grp 1 (cls ALL_CONSONANTS); lit "y";
                           Ahead (cls ALL_CONSONANTS)])
                    (λ g, group g 1 ++ ustr "i"));
    on_word (Re.sub (seqs [Grp 1 (cls ALL_CONSONANTS); lit "w";
                           Ahead (cls ALL_CONSONANTS)])
                    (λ g, group g 1 ++ ustr "u"));
    counting (Re.subn INITIAL_KS_RE (λ _, ustr "s"));
    counting (Re.subn (Seq Bol (lit "dz")) (λ _, ustr "z"));
    counting (Re.subn TS_COMBI_RE (λ _, ustr "s"));
    on_word (λ word,
      if Py.endswith (ustr "iy") word then Py.drop_last 1 word else word);
    on_word (Re.sub IU_FALLING_DIPHTHONGS_RE
               (λ g, if decide (group g 1 = ustr "iw")
                     then ustr "iu" else ustr "ui")) ].

(** Lines 354-357; [None] stands for the [IndexError] of [word[-1]] on an
    empty string. *)
Definition repair_word_fr (lang original : str) (word : str) : option str :=
  if decide (lang = ustr "fr") then
    match Py.last_char word with
    | None => None
    | Some c =>
        if (c =? uchr "y")%N
           && Re.search (Seq (Grp 1 (Alt (lit "eil") (seqs [lit "ille"; Opt (lit "s")]))) WordB)
                        original
           && (2 <=? length word)%nat
           && Py.str_in (Py.last_n 2 word) ILLEGAL_FALLING_DIPHTHONGS
        then Some (Py.drop_last 1 word ++ ustr "i")
        else Some word
    end
  else Some word.

(** Lines 361-410. *)
Definition repair_block_2 (lang : str) : list statement :=
  [ counting (Re.subn ILLEGAL_FALLING_DIPHTHONGS_RE (λ g, take 1 (group g 1)));
    counting (λ word,
      if Py.endswith (ustr "h") word then (Py.drop_last 1 word, 1) else (word, 0));
    counting (Re.subn H_BEFORE_CONSONANT (λ g, group g 1));
    on_word (Re.sub (seqs [Grp 1 (cls ALL_NON_SEMIVOWELS); lit "N"; Eol])
                    (λ g, group g 1 ++ ustr "əN"));
    on_word (Py.replace (ustr "nN") (ustr "N"));
    on_word (Re.sub (Seq (Grp 1 (Alt Bol (cls SYLLABLE_FINAL_CONSONANTS)))
                         (Grp 2 (seqs [lit "N"; Opt (lit "g");
                                       cls (SIMPLE_VOWELS ++ ustr "lr")])))
                    (λ g, group g 1 ++ [schwa] ++ group g 2));
    counting (Re.subn (Seq (Grp 1 (cls INTERNAL_VOWELS)) (lit "SC"))
                      (λ g, group g 1 ++ ustr "sC"));
    counting (λ word,
      let sc_count := Py.count (ustr "SC") word in
      (if (sc_count =? 0)%nat then word
       else Py.replace (ustr "SC") (ustr "C") word, sc_count));
    counting (λ word,
      if Re.search (seqs [cls INTERNAL_VOWELS; lit "z"; Eol]) word
      then (Py.drop_last 1 word ++ ustr "s", 1) else (word, 0));
    on_word (Py.replace (ustr "rld") (ustr "rəld"));
    on_word (Re.sub ILLEGAL_SKPT_TRIPLE_RE
                    (λ g, group g 1 ++ [schwa] ++ group g 2));
    when (bool_decide (lang = ustr "de"))
      (on_word (Re.sub (Seq (lit "Sv") (Grp 1 (cls INTERNAL_VOWELS)))
                       (λ g, ustr "Sw" ++ group g 1))) ].

(** Lines 418-467, after the repeated substitution of lines 414-416. *)
Definition repair_word_3 (word : str) : str :=
  let fill := λ g, group g 1 ++ [schwa] ++ group g 2 in
  let word := Re.sub ILLEGAL_RN_TRIPLE_RE fill word in
  let word := Re.sub (Seq (Grp 1 (cls (ustr "np"))) (lit "mn"))
                     (λ g, group g 1 ++ ustr "mən") word in
  let word := Py.replace (ustr "stl") (ustr "stəl") word in
  let word := Py.replace (ustr "stv") (ustr "stəv") word in
  let word := Py.replace (ustr "smr") (ustr "səmr") word in
  let word :=
    Re.sub (Seq Bol (Grp 1 (seqs [lit "s"; cls INITIAL_NON_SEMIVOWELS;
                                  cls SECOND_CONSONANTS])))
           (λ g, [schwa] ++ group g 1) word in
  let word := Re.sub INITIAL_CONS_TRIPLE_RE fill word in
  let word := Re.sub ILLEGAL_CONS_TRIPLE_RE fill word in
  let word := Re.sub ILLEGAL_CONS_TRIPLE2_RE fill word in
  let word := Re.sub (Seq Bol (lit "wh")) (λ _, ustr "w") word in
  let word :=
    Re.sub (seqs [Bol; Grp 1 (cls SEMIVOWELS); Grp 2 (cls NOT_SECOND_CONSONANTS)])
           (λ g, vowel_of_semivowel (group g 1) ++ group g 2) word in
  let word :=
    Re.sub (seqs [Grp 1 (Alt Bol (cls SYLLABLE_FINAL_CONSONANTS));
                  Grp 2 (Seq (cls INITIAL_NON_SEMIVOWELS) (cls (ustr "lr")));
                  Grp 3 (cls (ustr "wy"))])
           (λ g, group g 1 ++ group g 2 ++ vowel_of_semivowel (group g 3)) word in
  let word :=
    Re.sub (seqs [Grp 1 (seqs [cls (INTERNAL_VOWELS ++ SEMIVOWELS);
                               cls NOT_SYLLABLE_FINAL_NON_SEMIVOWEL;
                               cls (ustr "lr")]);
                  Grp 2 (cls (ustr "wy"))])
           (λ g, group g 1 ++ vowel_of_semivowel (group g 2)) word in
  let two := λ s, if decide (s = ustr "wy") then ustr "uy" else ustr "iw" in
  let word :=
    Re.sub (seqs [Grp 1 (Alt Bol (cls SYLLABLE_FINAL_CONSONANTS));
                  Grp 2 (cls INITIAL_NON_SEMIVOWELS);
                  Grp 3 (Alt (lit "wy") (lit "yw"))])
           (λ g, group g 1 ++ group g 2 ++ two (group g 3)) word in
  let word :=
    Re.sub (seqs [Grp 1 (seqs [cls (INTERNAL_VOWELS ++ SEMIVOWELS);
                               cls NOT_SYLLABLE_FINAL_NON_SEMIVOWEL]);
                  Grp 2 (Alt (lit "wy") (lit "yw"))])
           (λ g, group g 1 ++ two (group g 2)) word in
  Re.sub (Seq (Grp 1 (cls SYLLABLE_FINAL_CONSONANTS)) (lit "Nək"))
         (λ g, group g 1 ++ ustr "nək") word.

(** Lines 471-509. *)
Definition repair_word_4 (lang : str) (word : str) : str :=
  let word :=
    match word with
    | [c0; c1] =>
        if Py.char_in c0 INITIAL_NON_SEMIVOWELS
           && Py.char_in c1 WORD_FINAL_CONSONANTS
           && negb (Py.char_in c1 SECOND_CONSONANTS)
        then [c0; schwa; c1] else word
    | _ => word
    end in
  let word :=
    match word with
    | c0 :: c1 :: _ =>
        if Py.char_in c0 SYLLABLE_FINAL_CONSONANTS
           && Py.char_in c1 NOT_SECOND_CONSONANTS
        then schwa :: word else word
    | _ => word
    end in
  let word :=
    if (negb (length word =? 0)%nat && last_in NOT_WORD_FINAL_NON_SEMIVOWEL word)
       || ((2 <? length word)%nat
           && (last2_in INITIAL_CONSONANTS word && last_in SECOND_CONSONANTS word
               || last2_in SYLLABLE_FINAL_CONSONANTS word
                  && last_in INITIAL_CONSONANTS word
               || last_in SEMIVOWELS word
                  && negb (Py.str_in (Py.last_n 2 word) FALLING_DIPHTHONGS)))
    then word ++ [schwa] else word in
  let word :=
    if Re.search ALL_CONSONANTS_RE word && negb (Re.search INTERNAL_VOWEL_RE word)
    then word ++ [schwa] else word in
  let word := if decide (word = ustr "Nə") then ustr "əN" else word in
  let word := Py.replace (ustr "Nəg") (ustr "Ng") word in
  let word := Re.sub DOUBLE_CONS_RE (λ g, group g 1) word in
  if decide (lang = ustr "ru")
  then Py.replace (ustr "ii") (ustr "i") word else word.

(** The body of the loop of lines 300-512 for one sub-word: the repaired
    sub-word and what it adds to the penalty. *)
Definition repair_word (lang original : str) (word : str) (penalty : Z)
  : option (str * Z) :=
  let '(word, penalty) := run (repair_block_1 lang) (word, penalty) in
  word ← repair_word_fr lang original word;
  let '(word, penalty) := run (repair_block_2 lang) (word, penalty) in
  word ← insert_between_illegal_pairs (S (length word)) word;
  let word := repair_word_4 lang (repair_word_3 word) in
  Some (word, (penalty + Z.of_nat (Py.count [schwa] word))%Z).

(** The loop over the sub-words: the new words and the penalty. *)
Fixpoint repair_words (lang original : str) (words : list str) (penalty : Z)
  : option (list str * Z) :=
  match words with
  | [] => Some ([], penalty)
  | word :: words' =>
      '(word', penalty) ← repair_word lang original word penalty;
      '(new_words, penalty) ← repair_words lang original words' penalty;
      Some (word' :: new_words, penalty)
  end.

(** The method mutates the candidate; the result is the candidate after
    the call.  [None] stands for a call that does not return normally. *)
Definition insert_filler_vowels (c : Candidate) : option Candidate :=
  if filled c then Some c
  else
    let text := Re.sub PUNCTUATION_RE (λ _, ustr " ") (word c) in
    let words := Py.split text in
    '(new_words, penalty') ← repair_words (lang c) (original c) words (penalty c);
    Some (mkCandidate (Py.join (ustr " ") new_words) penalty' (lang c)
            (original c) (true_original c) (auxlangs c) (raw_psim c)
            (simscore c) (related_cands c) true).

(** *** [Candidate.validate] ([buildutil.py], lines 516-549) *)

(** The error messages, by their kind and the texts they quote. *)
Inductive validation_error :=
| UnexpectedCharacters (chars : gset N)
| NotAllowedAtEnd (part word : str)
| NotAllowedAtStart (part word : str).

(** [(?:ay|aw|ew|oy|[aeiouə])] *)
Definition VOWEL_SPLIT_RE : regex :=
  alts [lit "ay"; lit "aw"; lit "ew"; lit "oy"; cls INTERNAL_VOWELS].

(** The body of the inner loop (lines 538-548) for the part at [idx]. *)
Definition validate_part (last_idx idx : nat) (part word : str)
  : option validation_error :=
  match part with
  | [] => None
  | p0 :: rest =>
      if (idx =? last_idx)%nat
         && ((1 <? length part)%nat || negb (Py.str_in part WORD_FINAL_CONSONANTS))
      then Some (NotAllowedAtEnd part word)
      else
        let part :=
          if (0 <? idx)%nat && Py.char_in p0 SYLLABLE_FINAL_CONSONANTS
          then rest else part in
        match part with
        | [] => None
        | q0 :: qrest =>
            if (2 <? length part)%nat
               || negb (Py.char_in q0 INITIAL_CONSONANTS)
               || match qrest with
                  | [q1] => negb (Py.char_in q1 SECOND_CONSONANTS)
                  | _ => false
                  end
            then Some (NotAllowedAtStart part word)
            else None
        end
  end.

(** The first error among the parts, from index [idx] on. *)
Fixpoint validate_parts (last_idx idx : nat) (parts : list str) (word : str)
  : option validation_error :=
  match parts with
  | [] => None
  | part :: parts' =>
      match validate_part last_idx idx part word with
      | Some e => Some e
      | None => validate_parts last_idx (S idx) parts' word
      end
  end.

Definition validate_word (word : str) : option validation_error :=
  let parts := Re.split VOWEL_SPLIT_RE word in
  validate_parts (length parts - 1) 0 parts word.

Fixpoint validate_words (words : list str) : option validation_error :=
  match words with
  | [] => None
  | word :: words' =>
      match validate_word word with
      | Some e => Some e
      | None => validate_words words'
      end
  end.

(** How a line printed by [print_cands] starts. *)
Inductive prefix :=
| Numbered (num : Z)
| SkippedWordExists
| SkippedTooShort
| SkippedTooDistorted
| SkippedConstraint (possible_failure : str).

(** The messages passed to the logger [LOG], which [buildutil.py] creates
    and [buildvoc.py] shares (line 68). *)
Inductive message :=
| WarnUnexpectedCharacter (c : char) (langcode word : str)
| WarnUnexpectedCharacters (lang word : str) (chars : gset N)
| WarnFailedValidation (langcode word : str) (err : validation_error)
| InfoRawPSRange (min_psim max_psim : Z)
| InfoCandidate (p : prefix) (star : bool) (cand : Candidate).

(** The value returned, where [None] is the Python [None] (the candidate
    is valid), and what is passed to [LOG.warn] on the way (line 526). *)
Definition validate (c : Candidate)
  : option validation_error * list message :=
  let unexpected_set : gset N :=
    list_to_set (word c)
      ∖ list_to_set (ALL_CONSONANTS ++ INTERNAL_VOWELS ++ ustr " ") in
  if bool_decide (unexpected_set ≠ ∅)
  then (Some (UnexpectedCharacters unexpected_set),
        [WarnUnexpectedCharacters (lang c) (word c) unexpected_set])
  else (validate_words (Py.split (word c)), []).

End Engine.

(** ** Constraints ([buildutil.py], class [Constraints]) *)

Section Fails.
Context {U : Unicode} {F : PyFloat}.

(** The fields that [Constraints.fails] and [VocBuilder.min_length] read. *)
Record Constraints := mkConstraints {
  max_syllables : option float;
  allowed_langs : option (gset str);
  allowed_langs_rationale : option str;
  skip : gmap str (option str);
  chosen : option str;
  allowshort : bool;
}.

(** Truth value of an optional string: [None] and [''] are false. *)
Definition truthy (s : option str) : bool :=
  match s with
  | Some (_ :: _) => true
  | _ => false
  end.

(** [s or ''] *)
Definition or_empty (s : option str) : str :=
  match s with
  | Some s => s
  | None => []
  end.

(** [Constraints.fails] ([buildutil.py], lines 690-712): the reason why
    the candidate fails, or the empty string. *)
Definition fails (self : Constraints) (cand : Candidate) : str :=
  if match max_syllables self with
     | Some m => flt m (syllables cand)
     | None => false
     end
  then ustr "too long"
  else if match allowed_langs self with
          | Some langs =>
              bool_decide (langs ≠ ∅)
              && negb (length (lang cand) =? 0)%nat
              && bool_decide (lang cand ∉ langs)
          | None => false
          end
  then or_empty (allowed_langs_rationale self)
  else
    let cand_word := export_word (word cand) in
    match skip self !! cand_word with
    | Some rationale => or_empty rationale
    | None =>
        if truthy (chosen self) && bool_decide (Some cand_word ≠ chosen self)
        then ustr "not the chosen candidate"
        else []
    end.
End Fails.

(** ** The vocabulary builder ([buildvoc.py], class [VocBuilder]) *)

(** [Conversion] ([buildutil.py], lines 151-155) *)
Record Conversion := mkConversion {
  output : str;
  conv_penalty : bool;
}.

(** The command-line switches that the engine reads. *)
Record Args := mkArgs {
  allowduplicates : bool;
  schwastrip : bool;
  (** whether [--word] was given, i.e. the truth value of [args.word] *)
  word_given : bool;
}.

Section Builder.
Context {U : Unicode} {F : PyFloat}.

(** Candidate objects are shared: the cache and the lists that the builder
    returns refer to the same object, and the repair mutates it in place.
    Objects therefore live in [heap] and are referred to by their index. *)
Record VocBuilder := mkVocBuilder {
  args : Args;
  existing_norm_words : gset str;
  candi_cache : gmap str (option nat);
  convdicts : gmap str (gmap str Conversion);
  vb_auxlangs : list str;
  heap : list Candidate;
  LOG : list message;
}.

Definition with_cache (cache : gmap str (option nat)) (vb : VocBuilder) :=
  mkVocBuilder (args vb) (existing_norm_words vb) cache (convdicts vb)
               (vb_auxlangs vb) (heap vb) (LOG vb).

Definition with_heap (h : list Candidate) (vb : VocBuilder) :=
  mkVocBuilder (args vb) (existing_norm_words vb) (candi_cache vb) (convdicts vb)
               (vb_auxlangs vb) h (LOG vb).

(** [LOG.info] and [LOG.warn]: the message is appended to the record. *)
Definition log (m : list message) (vb : VocBuilder) :=
  mkVocBuilder (args vb) (existing_norm_words vb) (candi_cache vb) (convdicts vb)
               (vb_auxlangs vb) (heap vb) (LOG vb ++ m).

(** [self.maxkeylengths[name]] is set once, at construction, to
    [len(max(dct.keys(), key=len))] (lines 176-178). *)
Definition maxkeylength (dct : gmap str Conversion) : Z :=
  Z.of_nat (foldr Nat.max 0 (length <$> elements (dom dct))).

(** *** The conversion loop of [mk_candidate] (lines 912-930) *)

(** The [for] loop of lines 915-923: the probe lengths run from [idx] down
    to 1; the first key found wins. *)
Fixpoint longest_match (convdict : gmap str Conversion) (rest_word : str)
    (idx : nat) : option (nat * Conversion) :=
  match idx with
  | O => None
  | S idx' =>
      match convdict !! take idx rest_word with
      | Some conv => Some (idx, conv)
      | None => longest_match convdict rest_word idx'
      end
  end.

(** The variables that the [while] loop updates. *)
Record conv_state := mkConvState {
  out_word : str;
  conv_pen : Z;
  rest_word : str;
  warnings : list message;
}.

(** One iteration of the [while] loop, entered with a non-empty
    [rest_word] whose first character is [c0]. *)
Definition convert_step (convdict : gmap str Conversion) (maxkeylen : Z)
    (langcode word : str) (c0 : char) (st : conv_state) : conv_state :=
  let start := Z.to_nat (Z.min maxkeylen (Z.of_nat (length (rest_word st)))) in
  match longest_match convdict (rest_word st) start with
  | Some (idx, conv) =>
      mkConvState (out_word st ++ output conv)
                  (conv_pen st + (if conv_penalty conv then 1 else 0))%Z
                  (drop idx (rest_word st))
                  (warnings st)
  | None =>
      mkConvState (out_word st ++ [c0]) (conv_pen st) (drop 1 (rest_word st))
                  (warnings st ++ [WarnUnexpectedCharacter c0 langcode word])
  end.

(** The [while rest_word:] loop; [None] is returned only when [fuel]
    iterations did not empty [rest_word]. *)
Fixpoint convert_loop (fuel : nat) (convdict : gmap str Conversion)
    (maxkeylen : Z) (langcode word : str) (st : conv_state) : option conv_state :=
  match rest_word st with
  | [] => Some st
  | c0 :: _ =>
      match fuel with
      | O => None
      | S fuel' =>
          convert_loop fuel' convdict maxkeylen langcode word
                       (convert_step convdict maxkeylen langcode word c0 st)
      end
  end.

(** [VocBuilder._schwastrip] (lines 999-1005) *)
Definition _schwastrip (c : Candidate) : Candidate :=
  let w := word c in
  let w := if Py.startswith [schwa] w then drop 1 w else w in
  let w := if Py.endswith [schwa] w then Py.drop_last 1 w else w in
  with_word w c.

(** The per-language rewrite rules applied before and after the table
    lookup ([preprocess_candidate_word], lines 540-670, and
    [postprocess_candidate], lines 672-863) are pure functions from
    strings to strings; the mapper is verified for any such pair. *)
Variable preprocess_candidate_word : str → str → str → str.
Variable postprocess_candidate : str → str → str → str → str.

(** [util.has_latin_letter] ([util.py], lines 341-343): [any] looks up the
    names of the alphabetic characters one by one and stops at the first
    Latin letter; [None] stands for the [ValueError] of a character
    without a name. *)
Fixpoint has_latin_letter (text : str) : option bool :=
  match text with
  | [] => Some false
  | char :: text' =>
      if py_isalpha char then
        match py_latin_name char with
        | None => None
        | Some true => Some true
        | Some false => has_latin_letter text'
        end
      else has_latin_letter text'
  end.

(** Lines 884-889: strip a comment in parentheses at the end. *)
Definition strip_comment (word : str) : str :=
  if Py.endswith (ustr ")") word then
    match Py.find (ustr "(") word with
    | Some start_idx => Py.strip (take start_idx word)
    | None => word
    end
  else word.

(** A new candidate object is stored in the heap and in the cache. *)
Definition remember (cache_key : str) (c : Candidate) (vb : VocBuilder)
  : option nat * VocBuilder :=
  let ref := length (heap vb) in
  (Some ref,
   with_cache (<[cache_key := Some ref]> (candi_cache vb))
              (with_heap (heap vb ++ [c]) vb)).

(** [VocBuilder.mk_candidate] (lines 865-938).  The result is a reference
    to the candidate, or the inner [None] for Python's [None]; the outer
    [None] stands for a call that does not return: the [ValueError] of
    [has_latin_letter] ([word and ...] does not look at an empty word), or
    a conversion loop that the fuel does not see end. *)
Definition mk_candidate (vb : VocBuilder) (word langcode conv_dict_name cls : str)
    (true_original : option str) : option (option nat * VocBuilder) :=
  let cache_key := langcode ++ ustr ":" ++ word in
  match candi_cache vb !! cache_key with
  | Some result => Some (result, vb)
  | None =>
      let word := strip_comment word in
      has_latin ← (if (length word =? 0)%nat then Some false
                   else has_latin_letter word);
      if negb has_latin
      then Some (None, with_cache (<[cache_key := None]> (candi_cache vb)) vb)
      else
        let original := word in
        match convdicts vb !! conv_dict_name with
        | None =>
            Some (remember cache_key
                    (new_Candidate (py_lower original) 0 langcode original
                                   true_original (vb_auxlangs vb)) vb)
        | Some convdict =>
            let word := preprocess_candidate_word word conv_dict_name cls in
            let maxkeylen := maxkeylength convdict in
            st ← convert_loop (length word) convdict maxkeylen langcode word
                              (mkConvState [] 0 word []);
            let out := postprocess_candidate (out_word st) word conv_dict_name cls in
            Some (remember cache_key
                    (new_Candidate out (conv_pen st) langcode original
                                   true_original (vb_auxlangs vb))
                    (log (warnings st) vb))
        end
  end.

End Builder.

(** ** Text utilities ([util.py]) *)

Section Util.
Context {U : Unicode}.

(** [util.extract_text_in_brackets] (lines 288-298) *)
Definition extract_text_in_brackets (text : str) (otherwise_return_fully : bool)
  : option str :=
  let otherwise := if otherwise_return_fully then Some text else None in
  match Py.find (ustr "[") text, Py.find (ustr "]") text with
  | Some start, Some end_ =>
      if (start <? end_)%nat
      then Some (take (end_ - (start + 1)) (drop (start + 1) text))
      else otherwise
  | _, _ => otherwise
  end.

(** [merged_result[-1] += s]; the list is not empty when this is run,
    because [wait_for_end] is only set when an element is appended. *)
Definition add_to_last (s : str) (l : list str) : list str :=
  match rev l with
  | x :: r => rev ((x ++ s) :: r)
  | [] => []
  end.

(** The loop of lines 381-390. *)
Fixpoint remerge (sep : str) (result : list str) (wait_for_end : bool)
    (merged_result : list str) : list str :=
  match result with
  | [] => merged_result
  | elem :: result' =>
      let has_open := Py.str_in (ustr "(") elem in
      let has_close := Py.str_in (ustr ")") elem in
      if wait_for_end then
        remerge sep result'
                (if has_close && negb has_open then false else wait_for_end)
                (add_to_last (sep ++ elem) merged_result)
      else
        remerge sep result'
                (if has_open && negb has_close then true else wait_for_end)
                (merged_result ++ [elem])
  end.

(** [util.split_on_sep] (lines 355-393) *)
Definition split_on_sep (text : str) (sep : str) : list str :=
  match text with
  | [] => []
  | _ =>
      let text := Py.strip text in
      let actual_sep := Py.strip sep in
      let sep_in_parens :=
        seqs [lit "("; Many (CNotIn (ustr ")")) 0; Lit actual_sep;
              Many (CNotIn (ustr ")")) 0; lit ")"] in
      let need_to_handle_parens := Re.search sep_in_parens text in
      let result :=
        Re.split (seqs [Many CSpace 0; Lit actual_sep; Many CSpace 0]) text in
      if need_to_handle_parens then remerge sep result false [] else result
  end.

Definition split_on_commas (text : str) : list str := split_on_sep text (ustr ", ").
Definition split_on_semicolons (text : str) : list str := split_on_sep text (ustr "; ").

(** [text.split('[', 1)[0]] *)
Definition before_bracket (text : str) : str :=
  match Py.find (ustr "[") text with
  | Some i => take i text
  | None => text
  end.
End Util.

(** ** Building, scoring and ranking ([buildvoc.py]) *)

Section Scoring.
Context {U : Unicode} {F : PyFloat}.
Variable preprocess_candidate_word : str → str → str → str.
Variable postprocess_candidate : str → str → str → str → str.

(** The variables of the loop of [build_candidates_for_lang]: the builder,
    the set of words seen and the list built, as object references. *)
Definition build_state : Type := VocBuilder * gset str * list nat.

(** The body of the loop of lines 954-992 for one raw word.  [None]
    stands for an iteration that does not complete. *)
Definition build_candidate (langcode conv_dict_name cls : str)
    (st : build_state) (cand_word : str) : option build_state :=
  let '(vb, cand_word_set, cands) := st in
  match extract_text_in_brackets cand_word
          (bool_decide (langcode ≠ ustr "en")) with
  | None | Some [] => Some st
  | Some raw_cand_word =>
      sel ← (if bool_decide (raw_cand_word ≠ cand_word)
                && Py.str_in (ustr "[") cand_word
             then
               first ← head (split_on_commas raw_cand_word);
               Some (first, Some (Py.strip (before_bracket cand_word)))
             else Some (raw_cand_word, None));
      let '(raw_cand_word, true_original) := sel in
      '(result, vb) ← mk_candidate preprocess_candidate_word postprocess_candidate
                        vb raw_cand_word langcode conv_dict_name cls true_original;
      match result with
      | None => Some (vb, cand_word_set, cands)
      | Some ref =>
          candidate ← heap vb !! ref;
          candidate ← insert_filler_vowels candidate;
          let '(val_err, warned) := validate candidate in
          let vb := log warned vb in
          let vb :=
            match val_err with
            | Some e => log [WarnFailedValidation langcode (word candidate) e] vb
            | None => vb
            end in
          let candidate :=
            if schwastrip (args vb) then _schwastrip candidate else candidate in
          let vb := with_heap (<[ref := candidate]> (heap vb)) vb in
          if negb (bool_decide (val_err ≠ None)
                   || bool_decide (word candidate ∈ cand_word_set))
          then Some (vb, {[word candidate]} ∪ cand_word_set, cands ++ [ref])
          else Some (vb, cand_word_set, cands)
      end
  end.

Fixpoint build_candidates_loop (langcode conv_dict_name cls : str)
    (st : build_state) (raw_cand_words : list str) : option build_state :=
  match raw_cand_words with
  | [] => Some st
  | cand_word :: rest =>
      st ← build_candidate langcode conv_dict_name cls st cand_word;
      build_candidates_loop langcode conv_dict_name cls st rest
  end.

(** [VocBuilder.build_candidates_for_lang] (lines 940-997): the list of
    candidate objects and the builder after the call. *)
Definition build_candidates_for_lang (vb : VocBuilder)
    (langcode conv_dict_name : str) (entry : gmap str str)
  : option (list nat * VocBuilder) :=
  let raw_cand := default [] (entry !! langcode) in
  let cls := default [] (entry !! ustr "class") in
  match raw_cand with
  | [] => Some ([], vb)
  | _ =>
      '(vb, _, cands) ← build_candidates_loop langcode conv_dict_name cls
                          (vb, ∅, []) (split_on_semicolons raw_cand);
      Some (cands, vb)
  end.

(** *** [store_normalized_sim_penalties] (lines 1144-1188) *)

(** The candidates of one concept, by language, in the order of the
    dictionary.  The method updates the candidates in place and returns
    them in one list; the model returns that list after the update. *)
Definition candidate_dict : Type := list (str * list Candidate).

(** Lines 1159-1163. *)
Fixpoint shown_candidates (vb : VocBuilder) (candidates : candidate_dict)
  : list Candidate :=
  match candidates with
  | [] => []
  | (_, lang_cands) :: rest =>
      match lang_cands with
      | c0 :: _ =>
          if negb (length (lang c0) =? 0)%nat || negb (word_given (args vb))
          then lang_cands ++ shown_candidates vb rest
          else shown_candidates vb rest
      | [] => shown_candidates vb rest
      end
  end.

(** [max(result, key=...).raw_psim] and [min(...)] on a non-empty list
    that starts with [c]. *)
Definition max_raw_psim (c : Candidate) (rest : list Candidate) : Z :=
  foldl (λ m x, Z.max m (raw_psim x)) (raw_psim c) rest.
Definition min_raw_psim (c : Candidate) (rest : list Candidate) : Z :=
  foldl (λ m x, Z.min m (raw_psim x)) (raw_psim c) rest.

(** Lines 1176-1185, for one candidate. *)
Definition normalized (min_psim diff : Z) (cand : Candidate) : Candidate :=
  if negb (diff =? 0)%Z
  then with_simscore
         (fadd (int_truediv (min_psim - raw_psim cand) diff) (of_int 1)) cand
  else with_simscore (of_int 1) cand.

Definition store_normalized_sim_penalties (vb : VocBuilder)
    (candidates : candidate_dict) : list Candidate * VocBuilder :=
  let result := shown_candidates vb candidates in
  let '(max_psim, min_psim, diff) :=
    match result with
    | c :: rest =>
        let max_psim := max_raw_psim c rest in
        let min_psim := min_raw_psim c rest in
        (max_psim, min_psim, (max_psim - min_psim)%Z)
    | [] => (0, 0, 0)%Z
    end in
  let vb := log [InfoRawPSRange min_psim max_psim] vb in
  (normalized min_psim diff <$> result, vb).

(** *** [print_cands] (lines 1920-1968) *)

(** The sort key [(-count, -total_score, exported word)]. *)
Definition sort_key (cand : Candidate) : Z * float * str :=
  ((- Z.of_nat (count_related_natlang_cands cand))%Z,
   fneg (total_score cand),
   export_word (word cand)).

(** [a < b] on key tuples: the first components that differ decide. *)
Definition key_lt (a b : Z * float * str) : bool :=
  let '(a1, a2, a3) := a in
  let '(b1, b2, b3) := b in
  if negb (a1 =? b1)%Z then (a1 <? b1)%Z
  else if negb (feq a2 b2) then flt a2 b2
  else Py.str_lt a3 b3.

(** [sorted(cand_list, key=...)]: Python's sort is stable; insertion from
    the right, each element placed before the first one that is not
    smaller, yields the same list. *)
Fixpoint insert_sorted (x : Candidate) (l : list Candidate) : list Candidate :=
  match l with
  | [] => [x]
  | y :: l' =>
      if key_lt (sort_key y) (sort_key x) then y :: insert_sorted x l'
      else x :: l
  end.

Definition sorted (l : list Candidate) : list Candidate :=
  foldr insert_sorted [] l.

(** The variables that the loop of [print_cands] updates. *)
Record print_state := mkPrintState {
  num : Z;
  possible_failure : str;
  result : list Candidate;
  printed : list message;
}.

(** The body of the loop (lines 1947-1966). *)
Definition print_cand (vb : VocBuilder) (min_length : Z)
    (constraints : option Constraints) (best_score : float)
    (st : print_state) (cand : Candidate) : print_state :=
  let norm_word := normalize_word (export_word (word cand)) in
  let star := feq (total_score cand) best_score in
  let possible_failure :=
    match constraints with
    | Some cs => fails cs cand
    | None => possible_failure st
    end in
  let skipped p :=
    mkPrintState (num st) possible_failure (result st)
                 (printed st ++ [InfoCandidate p star cand]) in
  if bool_decide (norm_word ∈ existing_norm_words vb)
     && negb (allowduplicates (args vb))
  then skipped SkippedWordExists
  else if (Z.of_nat (length (word cand)) <? min_length)%Z
  then skipped SkippedTooShort
  else if fle (dscore cand) literal_0_6
  then skipped SkippedTooDistorted
  else if negb (length possible_failure =? 0)%nat
  then skipped (SkippedConstraint possible_failure)
  else
    mkPrintState (num st + 1) possible_failure (result st ++ [cand])
                 (printed st ++ [InfoCandidate (Numbered (num st)) star cand]).

(** [max(cand_list, key=total_score).total_score] on a non-empty list. *)
Definition best_total_score (c : Candidate) (rest : list Candidate) : float :=
  foldl (λ m x, if flt m (total_score x) then total_score x else m)
        (total_score c) rest.

(** The state after the loop: the returned list and the lines printed. *)
Definition print_cands_run (vb : VocBuilder) (cand_list : list Candidate)
    (min_length : Z) (constraints : option Constraints) : print_state :=
  match cand_list with
  | [] => mkPrintState 1 [] [] []
  | c :: rest =>
      foldl (print_cand vb min_length constraints (best_total_score c rest))
            (mkPrintState 1 [] [] []) (sorted cand_list)
  end.

Definition print_cands (vb : VocBuilder) (cand_list : list Candidate)
    (min_length : Z) (constraints : option Constraints)
  : list Candidate * VocBuilder :=
  let st := print_cands_run vb cand_list min_length constraints in
  (result st, log (printed st) vb).

End Scoring.

(** ** The relatedness criterion, as the specification words it *)

(** The longest shared run of leading fillers is removed from both words,
    then the longest shared run of trailing fillers. *)
Fixpoint strip_shared_leading (a b : str) : str * str :=
  match a, b with
  | x :: a', y :: b' =>
      if (x =? schwa)%N && (y =? schwa)%N then strip_shared_leading a' b'
      else (a, b)
  | _, _ => (a, b)
  end.

Definition strip_shared_trailing (a b : str) : str * str :=
  let '(a', b') := strip_shared_leading (rev a) (rev b) in (rev a', rev b').

Definition strip_shared_fillers (a b : str) : str * str :=
  let '(a', b') := strip_shared_leading a b in strip_shared_trailing a' b'.

(** [editDistance / max(len(a), len(b)) <= 0.5] *)
Definition close_enough (a b : str) : Prop :=
  2 * editdistance a b ≤ Nat.max (length a) (length b).

(** The shorter word has at least two letters and is a prefix or a suffix
    of the longer one. *)
Definition shorter_at_edge (a b : str) : Prop :=
  ∃ shorter longer,
    (shorter = a ∧ longer = b ∨ shorter = b ∧ longer = a)
    ∧ length shorter ≤ length longer
    ∧ 2 ≤ length shorter
    ∧ (shorter `prefix_of` longer ∨ shorter `suffix_of` longer).

Definition has_consonant (a : str) : Prop :=
  ∃ c, c ∈ a ∧ c ∈ ALL_CONSONANTS.

(** The velar nasal counts as a plain n. *)
Definition as_plain_n (c : char) : char :=
  if (c =? uchr "N")%N then uchr "n" else c.

Definition share_consonant (a b : str) : Prop :=
  ∃ x y, x ∈ a ∧ y ∈ b ∧ x ∈ ALL_CONSONANTS ∧ y ∈ ALL_CONSONANTS
         ∧ as_plain_n x = as_plain_n y.

Definition related_words (a b : str) : Prop :=
  (close_enough a b ∨ shorter_at_edge a b)
  ∧ (has_consonant a → has_consonant b → share_consonant a b).

Definition related_spec (a b : str) : Prop :=
  let '(a', b') := strip_shared_fillers a b in related_words a' b'.

(** A word made of filler vowels only. *)
Definition all_schwa (a : str) : Prop := ∀ c, c ∈ a → c = schwa.

(** The body of [calc_distance] on arguments put in alphabetic order. *)
Definition calc_distance_sorted (a b : str) : distance_result :=
  if Py.str_gt a b then calc_distance_body b a else calc_distance_body a b.

(** ** Normalization, as the specification words it *)



(** ** The repeated substitution of the repair, in closed form *)

(** One pass of lines 414-416: a filler goes between each consonant that
    may not end a syllable and a following consonant that may not be
    second; the scan resumes after the pair.  The result is the new word
    and the number of pairs found. *)
Fixpoint fill_pairs (s : str) : str * nat :=
  match s with
  | [] => ([], 0)
  | x :: t =>
      match t with
      | [] => ([x], 0)
      | y :: s' =>
          if Py.char_in x NOT_SYLLABLE_FINAL_NON_SEMIVOWEL
             && Py.char_in y NOT_SECOND_CONSONANTS
          then let '(out, n) := fill_pairs s' in (x :: schwa :: y :: out, S n)
          else let '(out, n) := fill_pairs t in (x :: out, n)
      end
  end.

(** The number of adjacent pairs that a pass would separate. *)
Fixpoint illegal_pairs (s : str) : nat :=
  match s with
  | [] => 0
  | x :: t =>
      match t with
      | [] => 0
      | y :: _ =>
          (if Py.char_in x NOT_SYLLABLE_FINAL_NON_SEMIVOWEL
              && Py.char_in y NOT_SECOND_CONSONANTS then 1 else 0)
          + illegal_pairs t
      end
  end.

(** A statement that leaves a non-empty sub-word non-empty. *)
Definition keeps_nonempty (s : statement) : Prop :=
  ∀ st, st.1 ≠ [] → (s st).1 ≠ [].

(** ** The mapper's null result *)


Section MapperSpec.
Context {U : Unicode} {F : PyFloat}.


(** Every letter of the text has a name, and none is Latin.  An empty
    text is of this kind. *)
Definition no_latin_letter (text : str) : Prop :=
  ∀ c, c ∈ text → py_isalpha c = true → py_latin_name c = Some false.

(** A letter without a name stands in the text before any Latin letter:
    [unicodedata.name] raises [ValueError] on it. *)
Definition unnamed_letter_first (text : str) : Prop :=
  ∃ pre c post, text = pre ++ c :: post ∧ no_latin_letter pre
                ∧ py_isalpha c = true ∧ py_latin_name c = None.

End MapperSpec.

(** Every reference held by the cache points into the heap. *)
Definition cache_refs_valid `{F : PyFloat} (vb : VocBuilder) : Prop :=
  ∀ key ref, candi_cache vb !! key = Some (Some ref) → ref < length (heap vb).

(** The candidates listed so far are repaired and pass the validator. *)
Definition all_valid `{U : Unicode} `{F : PyFloat}
    (vb : VocBuilder) (cands : list nat) : Prop :=
  ∀ ref, ref ∈ cands →
    ∃ c, heap vb !! ref = Some c ∧ filled c = true ∧ (validate c).1 = None.

(** The invariant of the loop of [build_candidates_for_lang] when schwa
    stripping is off: the cache refers into the heap, and the candidates
    listed so far are repaired and valid. *)
Definition gate_inv `{U : Unicode} `{F : PyFloat} (st : build_state) : Prop :=
  cache_refs_valid st.1.1 ∧ schwastrip (args st.1.1) = false
  ∧ all_valid st.1.1 st.2.

(** A builder without conversion tables, with empty cache and heap. *)
Definition empty_builder `{F : PyFloat} : VocBuilder :=
  mkVocBuilder (mkArgs false false false) ∅ ∅ ∅ [] [] [].

(** ** Ranking, as the specification words it *)

(** The candidates that the printed lines show, in order. *)
Definition shown_cands `{F : PyFloat} (printed : list message) : list Candidate :=
  omap (λ m, match m with InfoCandidate _ _ c => Some c | _ => None end) printed.

(** The numbered lines: their numbers and candidates, in order. *)
Definition numbered_lines `{F : PyFloat} (printed : list message)
  : list (Z * Candidate) :=
  omap (λ m, match m with
             | InfoCandidate (Numbered n) _ c => Some (n, c)
             | _ => None
             end) printed.

Section RankingSpec.
Context {U : Unicode} {F : PyFloat}.

(** [a] may stand before [b]: it has more related natural languages, or
    as many and a higher total score, or these are equal and its exported
    word is not alphabetically greater. *)
Definition ranks_before (a b : Candidate) : Prop :=
  count_related_natlang_cands b < count_related_natlang_cands a
  ∨ (count_related_natlang_cands a = count_related_natlang_cands b
     ∧ (flt (total_score b) (total_score a) = true
        ∨ (feq (total_score a) (total_score b) = true
           ∧ Py.str_gt (export_word (word a)) (export_word (word b)) = false))).

(** The four reasons for which a candidate is skipped. *)
Definition skipped (vb : VocBuilder) (min_length : Z)
    (constraints : option Constraints) (cand : Candidate) : Prop :=
  (normalize_word (export_word (word cand)) ∈ existing_norm_words vb
   ∧ allowduplicates (args vb) = false)
  ∨ (Z.of_nat (length (word cand)) < min_length)%Z
  ∨ fle (dscore cand) literal_0_6 = true
  ∨ (∃ cs, constraints = Some cs ∧ fails cs cand ≠ []).

(** A printed line is numbered exactly when its candidate is not
    skipped. *)
Definition line_ok (vb : VocBuilder) (min_length : Z)
    (constraints : option Constraints) (m : message) : Prop :=
  ∃ p star cand,
    m = InfoCandidate p star cand
    ∧ ((∃ n, p = Numbered n) ↔ ¬ skipped vb min_length constraints cand).

(** Loop invariant of [print_cands]: [possible_failure] is only ever set
    from the constraints. *)
Definition failure_inv (constraints : option Constraints)
    (st : print_state) : Prop :=
  constraints = None → possible_failure st = [].
End RankingSpec.

(** ** Further text utilities ([util.py]) *)

(** [s.rfind(sub)]; [None] stands for the result [-1]. *)
Fixpoint rfind (sub s : str) : option nat :=
  match s with
  | [] => if Py.startswith sub [] then Some 0 else None
  | _ :: s' =>
      match rfind sub s' with
      | Some i => Some (S i)
      | None => if Py.startswith sub s then Some 0 else None
      end
  end.

(** [util.split_text_and_explanation] (lines 411-426).  When [rfind] yields
    -1 the slices are [text[:-1]] and [text[0:-1]]. *)
Definition split_text_and_explanation (text : str) : str * option str :=
  let text := Py.strip text in
  if Py.endswith (ustr ")") text && Py.str_in (ustr "(") text then
    match rfind (ustr "(") text with
    | Some opening_paren =>
        (Py.strip (take opening_paren text),
         Some (Py.strip (Py.drop_last 1 (drop (opening_paren + 1) text))))
    | None =>
        (Py.strip (Py.drop_last 1 text), Some (Py.strip (Py.drop_last 1 text)))
    end
  else (text, None).

(** [util.normalize] (lines 346-352) *)
Definition normalize (text : str) : str :=
  Py.join (ustr " ") (Py.split (Py.strip text)).

(** The loop of [util.format_compact_string_list] (lines 321-327): the
    lines completed so far and the line being filled. *)
Fixpoint compact_lines (prefix sep : str) (max_line_length : Z)
    (items : list str) (line : str) (result_arr : list str)
  : list str * str :=
  match items with
  | [] => (result_arr, line)
  | item :: items' =>
      if (Z.of_nat (length line + length item + length sep) <? max_line_length)%Z
      then compact_lines prefix sep max_line_length items'
             (line ++ ustr " " ++ item ++ sep) result_arr
      else compact_lines prefix sep max_line_length items'
             (prefix ++ item ++ sep) (result_arr ++ [line])
  end.

(** The lines that [util.format_compact_string_list] (lines 301-329)
    joins.  [line[:-len(sep)]] is [line[:0]], the empty string, when [sep]
    is empty. *)
Definition format_compact_lines (strlist : list str) (prefix sep : str)
    (max_line_length : Z) : list str :=
  match strlist with
  | [] => []
  | first :: rest =>
      let '(result_arr, line) :=
        compact_lines prefix sep max_line_length rest
                      (prefix ++ first ++ sep) [] in
      result_arr ++ [if (length sep =? 0)%nat then []
                     else Py.drop_last (length sep) line]
  end.

(** [util.format_compact_string_list]: the text returned.  (The call also
    removes the first item from the list it is given.) *)
Definition format_compact_string_list (strlist : list str) (prefix sep : str)
    (max_line_length : Z) : str :=
  Py.join [10%N] (format_compact_lines strlist prefix sep max_line_length).

(** ** Further methods of [Candidate] ([buildutil.py]) *)

Section CandidateMethods.
Context {U : Unicode} {F : PyFloat}.

(** [Candidate.has_suitable_related_natlang_cands] (lines 213-228) *)
Definition has_suitable_related_natlang_cands (c : Candidate) : bool :=
  let dont_count :=
    auxlangs c
    ++ (if decide (lang c = ustr "glosa") then [ustr "es"; ustr "fr"] else []) in
  existsb (λ l, bool_decide (l ∉ dont_count)) (elements (dom (related_cands c))).

(** [Candidate.find_langs_with_identical_candidate] (lines 230-244) *)
Definition find_langs_with_identical_candidate (c : Candidate) : gset str :=
  let word := export_word (word c) in
  dom (filter (λ kv, Exists (λ w, export_word w = word) kv.2) (related_cands c)).

End CandidateMethods.

(** ** Similarity penalties ([buildvoc.py]) *)

Section Similarity.
Context {F : PyFloat}.

(** The innermost loop of [calc_sim_penalties] (lines 1131-1136), over the
    candidates of one other language; [None] stands for the exception that
    a call of [calc_distance] raises. *)
Fixpoint scan_other_cands (cand_word other_lang : str) (others : list Candidate)
    (min_dist : nat) (related_cands : gmap str (list str))
  : option (nat * gmap str (list str)) :=
  match others with
  | [] => Some (min_dist, related_cands)
  | other_cand :: others' =>
      match calc_distance cand_word (word other_cand) with
      | Some (Returns dist related) =>
          scan_other_cands cand_word other_lang others'
            (if (dist <? min_dist)%nat then dist else min_dist)
            (if related
             then <[other_lang :=
                      default [] (related_cands !! other_lang)
                      ++ [word other_cand]]> related_cands
             else related_cands)
      | _ => None
      end
  end.

(** The loop over the languages (lines 1126-1139) for one candidate. *)
Fixpoint scan_langs (lang cand_word : str) (langs : list (str * list Candidate))
    (pen : Z) (related_cands : gmap str (list str))
  : option (Z * gmap str (list str)) :=
  match langs with
  | [] => Some (pen, related_cands)
  | (other_lang, others) :: langs' =>
      if bool_decide (other_lang = lang) || (length other_lang =? 0)%nat
         || (length others =? 0)%nat
      then scan_langs lang cand_word langs' pen related_cands
      else
        '(min_dist, related_cands) ←
          scan_other_cands cand_word other_lang others 1000 related_cands;
        scan_langs lang cand_word langs' (pen + Z.of_nat min_dist)%Z related_cands
  end.

(** The body of the outer loop: the candidate with its penalty and its
    related candidates stored. *)
Definition with_sim_penalty (my_lang : str)
    (candidates : list (str * list Candidate)) (cand : Candidate)
  : option Candidate :=
  '(pen, related) ←
    scan_langs my_lang (word cand) candidates 0 (related_cands cand);
  Some (mkCandidate (word cand) (penalty cand) (lang cand)
          (original cand) (true_original cand) (auxlangs cand) pen
          (simscore cand) related (filled cand)).

(** [candidates[lang]] *)
Fixpoint lookup_lang (lang : str) (candidates : list (str * list Candidate))
  : option (list Candidate) :=
  match candidates with
  | [] => None
  | (l, cands) :: rest => if decide (l = lang) then Some cands else lookup_lang lang rest
  end.

(** [VocBuilder.calc_sim_penalties] (lines 1113-1142).  The method updates
    the candidates of [lang] in place; the result is their list after the
    call.  [None] stands for a call that raises: [KeyError] when [lang] is
    not a key, or the exception of [calc_distance]. *)
Definition calc_sim_penalties (lang : str)
    (candidates : list (str * list Candidate)) : option (list Candidate) :=
  my_cands ← lookup_lang lang candidates;
  mapM (with_sim_penalty lang candidates) my_cands.

End Similarity.

(** ** Minimum length and translations ([buildvoc.py]) *)

(** [frozenset('adj name noun verb'.split())] *)
Definition CONTENT_CLASSES : gset str :=
  list_to_set (Py.split (ustr "adj name noun verb")).

(** The message that [min_length] logs, by the rationale it quotes. *)
Inductive min_length_message :=
| InfoAllowingShort (rationale : str).

Section MinLength.
Context {U : Unicode} {F : PyFloat}.

(** [VocBuilder.min_length] (lines 1190-1206).  [args_allowshort] is
    [self.args.allowshort], the rationale given with [--allowshort] or
    Python's [None].  The result is the number returned and what was
    logged; [None] stands for the [IndexError] of the subscript [[0]]. *)
Definition min_length (args_allowshort : option str) (entry : gmap str str)
    (constraints : option Constraints) : option (Z * list min_length_message) :=
  if truthy args_allowshort
     || match constraints with Some cs => allowshort cs | None => false end
  then
    Some (1%Z,
          if truthy args_allowshort
          then [InfoAllowingShort (or_empty args_allowshort)] else [])
  else
    first_class ← head (split_on_commas (default [] (entry !! ustr "class")));
    Some (if bool_decide (first_class ∈ CONTENT_CLASSES) then 3%Z else 1%Z, []).

End MinLength.

(** The loop of [cleanup_translation_value] (lines 1226-1232) over the
    translations; [many] is [len(translations) > 1]. *)
Fixpoint cleanup_loop (many : bool) (translations : list str)
    (result_list : list str) (result_set : gset str) : list str :=
  match translations with
  | [] => result_list
  | trans :: rest =>
      if many && Py.startswith (ustr "(") trans && Py.endswith (ustr ")") trans
      then cleanup_loop many rest result_list result_set
      else if bool_decide (trans ∈ result_set)
      then cleanup_loop many rest result_list result_set
      else cleanup_loop many rest (result_list ++ [trans])
                        ({[trans]} ∪ result_set)
  end.

(** Lines 1224-1236 of [cleanup_translation_value]: the translations that
    are joined into the value returned. *)
Definition cleanup_translations (translations : list str) : list str :=
  let result_list :=
    cleanup_loop (1 <? length translations)%nat translations [] ∅ in
  match result_list, translations with
  | [], first :: _ => [first]
  | _, _ => result_list
  end.

(** ** Distinct words in [build_candidates_for_lang] *)

(** The candidates listed so far are repaired, their words are in the set
    of words seen, and no two of them have the same word. *)
Definition distinct_inv `{F : PyFloat} (st : build_state) : Prop :=
  ∃ cs, Forall2 (λ ref c, heap st.1.1 !! ref = Some c ∧ filled c = true
                          ∧ word c ∈ st.1.2) st.2 cs
        ∧ NoDup (word <$> cs).

(** ** The validator's warnings in [build_candidates_for_lang] *)

(** The messages [msgs] were logged since the builder was [vb0].  Every
    candidate created since then is repaired; what [validate] logs for it
    is among the messages, and if [validate] rejects it the warning of the
    rejection is among them and the candidate is not listed. *)
Definition checked_inv `{U : Unicode} `{F : PyFloat} (langcode : str)
    (vb0 : VocBuilder) (msgs : list message) (st : build_state) : Prop :=
  LOG st.1.1 = LOG vb0 ++ msgs
  ∧ length (heap vb0) ≤ length (heap st.1.1)
  ∧ ∀ ref c, length (heap vb0) ≤ ref → heap st.1.1 !! ref = Some c →
      filled c = true
      ∧ (∀ m, m ∈ (validate c).2 → m ∈ msgs)
      ∧ ∀ e, (validate c).1 = Some e →
          WarnFailedValidation langcode (word c) e ∈ msgs ∧ ref ∉ st.2.

(** ** Line dictionaries ([linedict.py]) *)

(** A Python [dict] with its insertion order: assigning to a key that is
    present replaces the value where it stands, a new key goes to the end. *)
Fixpoint dict_set {V} (key : str) (v : V) (d : list (str * V)) : list (str * V) :=
  match d with
  | [] => [(key, v)]
  | (k, x) :: d' =>
      if bool_decide (k = key) then (k, v) :: d' else (k, x) :: dict_set key v d'
  end.

Fixpoint dict_get {V} (key : str) (d : list (str * V)) : option V :=
  match d with
  | [] => None
  | (k, x) :: d' => if bool_decide (k = key) then Some x else dict_get key d'
  end.

(** [str.splitlines()].  The line boundaries are those of Python; a line
    feed right after a carriage return belongs to the same boundary.
    [cur] is the line being read, reversed. *)
Definition is_line_boundary (c : char) : bool :=
  ((10 <=? c) && (c <=? 13) || (28 <=? c) && (c <=? 30)
   || (c =? 133) || (c =? 8232) || (c =? 8233))%N.

Fixpoint splitlines_go (s cur : str) (after_cr : bool) : list str :=
  match s with
  | [] => match cur with [] => [] | _ => [rev cur] end
  | c :: s' =>
      if after_cr && (c =? 10)%N then splitlines_go s' cur false
      else if is_line_boundary c
           then rev cur :: splitlines_go s' [] (c =? 13)%N
           else splitlines_go s' (c :: cur) false
  end.

Definition splitlines (s : str) : list str := splitlines_go s [] false.

(** [s.split(sep, 1)] for a separator of one character *)
Fixpoint partition_at (sep : char) (s : str) : option (str * str) :=
  match s with
  | [] => None
  | c :: s' =>
      if (c =? sep)%N then Some ([], s')
      else match partition_at sep s' with
           | Some (a, b) => Some (c :: a, b)
           | None => None
           end
  end.

Definition split_1 (sep : char) (s : str) : list str :=
  match partition_at sep s with
  | Some (a, b) => [a; b]
  | None => [s]
  end.

(** [LineDict] (lines 19-129) *)
Record LineDict := mkLineDict {
  filename : option str;
  _store : list (str * str);
  _first_lineno : option Z;
  _lines : list (str * Z);
}.

(** The calls of [warn]: the file name and line number are what
    [errprefix] puts in front of the message. *)
Inductive linedict_warning :=
  | WarnDuplicateKey (file : option str) (lineno : Z) (key : str)
  | WarnUnexpectedContinuation (file : option str) (lineno : Z)
      (after_comment : bool) (stripped_line : str)
  | WarnLineIsEmpty (file : option str) (lineno : Z)
  | WarnInvalidLeadingWhitespace (file : option str) (lineno : Z) (line : str)
  | WarnNoKeyValuePair (file : option str) (lineno : Z) (line : str)
  | WarnEmptyKey (file : option str) (lineno : Z) (line : str).

(** [LineDict.add] (lines 70-84), with [allow_replace] left at [False] *)
Definition LineDict_add (key value : str) (lineno : Z) (self : LineDict)
  : LineDict * list linedict_warning :=
  (mkLineDict (filename self)
     (dict_set key value (_store self))
     (match _first_lineno self with None => Some lineno | Some n => Some n end)
     (dict_set key lineno (_lines self)),
   if bool_decide (key ∈ (_store self).*1)
   then [WarnDuplicateKey (filename self) lineno key] else []).

(** [LineDict.append_to_val] (lines 86-91); [None] stands for [KeyError]. *)
Definition LineDict_append_to_val (key append_text : str) (self : LineDict)
  : option LineDict :=
  value ← dict_get key (_store self);
  Some (mkLineDict (filename self)
          (dict_set key (value ++ append_text) (_store self))
          (_first_lineno self) (_lines self)).

(** The variables of the loop of [dict_from_str] *)
Record parse_state := mkParseState {
  ps_lineno : Z;
  ps_result : LineDict;
  ps_last_key_added : option str;
  ps_warnings : list linedict_warning;
}.

(** One round of the loop of [dict_from_str] (lines 173-212) *)
Definition dict_from_str_line (st : parse_state) (line : str)
  : option parse_state :=
  let lineno := (ps_lineno st + 1)%Z in
  let result := ps_result st in
  let file := filename result in
  let line := Py.rstrip line in
  if Py.startswith (ustr "  ") line then
    match ps_last_key_added st with
    | Some (c :: key) =>
        result ← LineDict_append_to_val (c :: key) (10%N :: drop 2 line) result;
        Some (mkParseState lineno result (Some (c :: key)) (ps_warnings st))
    | last_key_added =>
        Some (mkParseState lineno result last_key_added
                (ps_warnings st ++
                 [WarnUnexpectedContinuation file lineno
                    (bool_decide (last_key_added = Some [])) (Py.strip line)]))
    end
  else if bool_decide (line = []) || Py.startswith (ustr "#") (Py.lstrip line) then
    Some (mkParseState lineno result (Some [])
            (ps_warnings st ++
             (if bool_decide (line = []) then [WarnLineIsEmpty file lineno]
              else [])))
  else
    let '(line, warned) :=
      if bool_decide (head line = Some (uchr " "))
         || bool_decide (head line = Some 9%N)
      then (Py.lstrip line, [WarnInvalidLeadingWhitespace file lineno line])
      else (line, []) in
    match split_1 (uchr ":") line with
    | part0 :: part1 :: _ =>
        let key := Py.strip part0 in
        let value := Py.strip part1 in
        if bool_decide (key = []) then
          Some (mkParseState lineno result (Some key)
                  (ps_warnings st ++ warned ++ [WarnEmptyKey file lineno line]))
        else
          let '(result, dup) := LineDict_add key value lineno result in
          Some (mkParseState lineno result (Some key)
                  (ps_warnings st ++ warned ++ dup))
    | _ =>
        Some (mkParseState lineno result (ps_last_key_added st)
                (ps_warnings st ++ warned ++ [WarnNoKeyValuePair file lineno line]))
    end.

Fixpoint dict_from_str_loop (st : parse_state) (lines : list str)
  : option parse_state :=
  match lines with
  | [] => Some st
  | line :: rest =>
      st ← dict_from_str_line st line;
      dict_from_str_loop st rest
  end.

(** [dict_from_str] (lines 132-214): the dictionary and the warnings
    given; [None] stands for a [KeyError] raised on the way. *)
Definition dict_from_str (entry : str) (firstline : Z) (file : option str)
  : option (LineDict * list linedict_warning) :=
  st ← dict_from_str_loop
         (mkParseState (firstline - 1) (mkLineDict file [] None []) None [])
         (splitlines entry);
  Some (ps_result st, ps_warnings st).

(** [stringify_dict] (lines 271-284) on a [LineDict], whose [to_dict] is
    the dictionary itself. *)
Definition stringify_dict (dict_object : LineDict) : str :=
  foldl (λ result '(key, value),
           result ++ normalize key ++ ustr ": " ++ normalize value ++ [10%N])
        [] (_store dict_object).

(** What [normalize] returns: words without whitespace, joined by single
    spaces. *)
Definition spaced (s : str) : Prop :=
  ∃ words, s = Py.join (ustr " ") words
           ∧ Forall (λ w, w ≠ [] ∧ ∀ x, x ∈ w → Py.isspace x = false) words.

(** The keys that [stringify_dict] writes so that [dict_from_str] reads
    them back: not empty, without a colon, not a comment. *)
Definition writable_key (key : str) : Prop :=
  (normalize key ≠ []) ∧ (uchr ":" ∉ normalize key)
  ∧ (Py.startswith (ustr "#") (normalize key) = false).

(** The keys that [dict_from_str] stores. *)
Definition stored_key (key : str) : Prop :=
  (key ≠ []) ∧ (uchr ":" ∉ key) ∧ (Py.strip key = key)
  ∧ (Py.startswith (ustr "#") key = false).

(** What the loop of [dict_from_str] keeps true of its variables. *)
Definition parse_inv (firstline : Z) (file : option str) (st : parse_state)
  : Prop :=
  let result := ps_result st in
  NoDup (_store result).*1
  ∧ (_lines result).*1 = (_store result).*1
  ∧ Forall stored_key (_store result).*1
  ∧ Forall (λ kn, (firstline ≤ kn.2 ≤ ps_lineno st)%Z) (_lines result)
  ∧ (∀ c key, ps_last_key_added st = Some (c :: key) →
              c :: key ∈ (_store result).*1)
  ∧ filename result = file.

(** ** Kinds of words ([buildvoc.py], lines 86-102 and 261-340) *)

Inductive Kind := NOUN | ADJ | VERB.

#[global] Instance Kind_eq_dec : EqDecision Kind.
Proof. solve_decision. Defined.

Definition Kind_value (kind : Kind) : positive :=
  match kind with NOUN => 1 | ADJ => 2 | VERB => 3 end%positive.

Definition Kind_of_value (value : positive) : option Kind :=
  match value with
  | 1 => Some NOUN | 2 => Some ADJ | 3 => Some VERB | _ => None
  end%positive.

#[global] Instance Kind_countable : Countable Kind :=
  {| encode := Kind_value; decode := Kind_of_value;
     decode_encode := λ kind,
       match kind with NOUN | ADJ | VERB => eq_refl end |}.

(** The keys of [KIND_DESC], in their order. *)
Definition KIND_DESC : list Kind := [NOUN; ADJ; VERB].

(** What the methods log: the warning of [get_kind] with the word of the
    entry, the two messages of [determine_kinds_to_add], the second with
    the kinds chosen and the counts in sorted order, and the note and the
    warning of [filter_entries_by_kind]. *)
Inductive kind_message :=
  | WarnLacksClass (word : str)
  | InfoAllEquallyCommon
  | InfoShouldAdd (kinds : gset Kind) (stats : list (Kind * Q))
  | InfoFoundEntries (count : nat) (entry_key : str)
  | WarnNoNounFound.

Section Kinds.
Context {U : Unicode}.

(** [VocBuilder.get_kind] (lines 261-284) *)
Definition get_kind (entry : gmap str str) : Kind * list kind_message :=
  match split_on_commas (default [] (entry !! ustr "class")) with
  | [] => (NOUN, [WarnLacksClass (default [] (entry !! ustr "word"))])
  | first_class :: _ =>
      if bool_decide (first_class ∈ [ustr "noun"; ustr "name"]) then (NOUN, [])
      else if bool_decide (first_class ∈ [ustr "adj"; ustr "adv"]) then (ADJ, [])
      else (VERB, [])
  end.

(** [counter[kind] += 1] *)
Definition increment (kind : Kind) (counter : list (Kind * Z))
  : list (Kind * Z) :=
  (λ '(k, n), if bool_decide (k = kind) then (k, (n + 1)%Z) else (k, n))
  <$> counter.

(** [VocBuilder.count_existing_kinds] (lines 286-294) *)
Definition count_existing_kinds (entries : list (gmap str str))
  : list (Kind * Z) * list kind_message :=
  foldl (λ '(counter, log) entry,
           let '(kind, warned) := get_kind entry in
           (increment kind counter, log ++ warned))
        ((λ kind, (kind, 0%Z)) <$> KIND_DESC, []) entries.

(** [sorted(counter.items(), key=lambda pair: pair[1])]: a stable sort. *)
Fixpoint insert_by_count (x : Kind * Q) (l : list (Kind * Q))
  : list (Kind * Q) :=
  match l with
  | [] => [x]
  | y :: l' =>
      if negb (Qle_bool x.2 y.2) then y :: insert_by_count x l'
      else x :: l
  end.

Definition sorted_by_count (l : list (Kind * Q)) : list (Kind * Q) :=
  foldr insert_by_count [] l.

(** The loop of [determine_kinds_to_add] (lines 314-322); it is left at
    the first count that differs from the rarest. *)
Fixpoint rarest_kinds (items : list (Kind * Q)) (result : gset Kind)
    (rarest_count : Q) : gset Kind :=
  match items with
  | [] => result
  | (kind, count) :: rest =>
      if negb (Qle_bool 0 rarest_count)
      then rarest_kinds rest ({[kind]} ∪ result) count
      else if Qeq_bool count rarest_count
           then rarest_kinds rest ({[kind]} ∪ result) rarest_count
           else result
  end.

(** [VocBuilder.determine_kinds_to_add] (lines 296-340).  The counts are
    numbers of entries; the count of nouns times [0.5] is exact as long
    as there are fewer than 2^53 entries, and Python compares integers
    with floats by value, so the numbers are taken as rationals. *)
Definition determine_kinds_to_add (entries : list (gmap str str))
  : gset Kind * list kind_message :=
  let '(counts, warned) := count_existing_kinds entries in
  let counter : list (Kind * Q) :=
    (λ '(kind, n), (kind, if bool_decide (kind = NOUN)
                          then (inject_Z n * (1 # 2))%Q else inject_Z n))
    <$> counts in
  let by_count := sorted_by_count counter in
  let result := rarest_kinds by_count ∅ (-1)%Q in
  (result,
   warned ++ [if (size result =? 3)%nat then InfoAllEquallyCommon
              else InfoShouldAdd result by_count]).

End Kinds.

(** ** The shape of valid words *)

(** The alternatives of [FALLING_DIPHTHONGS]. *)
Definition falling_diphthongs : list str :=
  [ustr "ay"; ustr "aw"; ustr "ew"; ustr "oy"].

(** The length of the match of [VOWEL_SPLIT_RE] at the head of [s]. *)
Definition vowel_match_length (s : str) : option nat :=
  match s with
  | v :: s' =>
      if Py.char_in v INTERNAL_VOWELS
      then Some (if bool_decide (take 2 s ∈ falling_diphthongs) then 2 else 1)
      else None
  | [] => None
  end.

(** The text read so far, reversed, ends in a vowel or a falling
    diphthong. *)
Definition after_vowel (bef : str) : Prop :=
  (∃ v bef', bef = v :: bef' ∧ v ∈ INTERNAL_VOWELS)
  ∨ (∃ y x bef', bef = y :: x :: bef' ∧ [x; y] ∈ falling_diphthongs).

(** The state of [Re.split] between two characters: either no match is
    being passed over, and an empty piece means that a match has just
    ended or nothing was read; or the second letter of a diphthong is
    still to be passed. *)
Definition split_state (bef s : str) (skip : nat) (cur : str) : Prop :=
  match skip with
  | 0 => cur = [] → bef = [] ∨ after_vowel bef
  | 1 => cur = [] ∧ ∃ x bef' y s', bef = x :: bef' ∧ s = y :: s'
                                   ∧ [x; y] ∈ falling_diphthongs
  | _ => False
  end.

(** ** [VocBuilder.filter_entries_by_kind] ([buildvoc.py], lines 2327-2366)

    [mk_entry_key] removes bracketed text with a lazy pattern and is
    taken as a parameter; [kinds_to_add] is the field of the builder. *)
Section FilterByKind.
Context {U : Unicode}.
Variable mk_entry_key : gmap str str → str.
Variable kinds_to_add : gset Kind.

(** The first loop (lines 2345-2351): the entries of a wanted kind, by
    their key. *)
Definition group_by_key (entries : list (gmap str str))
  : list (str * list (gmap str str)) * list kind_message :=
  foldl (λ '(entries_by_key, log) entry,
           let '(kind, warned) := get_kind entry in
           if bool_decide (kind ∉ kinds_to_add)
           then (entries_by_key, log ++ warned)
           else
             let entry_key := mk_entry_key entry in
             (dict_set entry_key
                (default [] (dict_get entry_key entries_by_key) ++ [entry])
                entries_by_key,
              log ++ warned))
        ([], []) entries.

(** The inner [for ... else] (lines 2358-2363): the first entry whose
    class is 'noun'. *)
Definition first_noun (entry_list : list (gmap str str))
  : option (gmap str str) :=
  head (filter (λ entry, entry !! ustr "class" = Some (ustr "noun")) entry_list).

Definition filter_entries_by_kind (entries : list (gmap str str))
  : list (gmap str str) * list kind_message :=
  let '(entries_by_key, log) := group_by_key entries in
  foldl (λ '(result, log) '(entry_key, entry_list),
           if (1 <? length entry_list)%nat then
             let note := InfoFoundEntries (length entry_list) entry_key in
             match first_noun entry_list with
             | Some entry => (result ++ [entry], log ++ [note])
             | None => (result, log ++ [note; WarnNoNounFound])
             end
           else (result ++ entry_list, log))
        ([], log) entries_by_key.

(** The entries of a wanted kind that have the key [entry_key]. *)
Definition wanted_with_key (entry_key : str) (entries : list (gmap str str))
  : list (gmap str str) :=
  filter (λ entry, (get_kind entry).1 ∈ kinds_to_add
                   ∧ mk_entry_key entry = entry_key) entries.

End FilterByKind.

(** What the first loop of [filter_entries_by_kind] keeps true of the
    entries [seen] and the dictionary built from them. *)
Definition grouped `{U : Unicode} (mk_entry_key : gmap str str → str)
    (kinds_to_add : gset Kind) (seen : list (gmap str str))
    (entries_by_key : list (str * list (gmap str str))) : Prop :=
  NoDup entries_by_key.*1
  ∧ (∀ key entry_list, (key, entry_list) ∈ entries_by_key →
       entry_list = wanted_with_key mk_entry_key kinds_to_add key seen
       ∧ entry_list ≠ [])
  ∧ (∀ key, wanted_with_key mk_entry_key kinds_to_add key seen ≠ [] →
            key ∈ entries_by_key.*1).

(** What the second loop of [filter_entries_by_kind] adds for one key. *)
Definition kept_of (entry_list : list (gmap str str)) : list (gmap str str) :=
  if (1 <? length entry_list)%nat
  then option_list (first_noun entry_list) else entry_list.

(** ** The mapper's null result, as the specification words it *)


(** The text has a Latin letter. *)
Definition has_latin `{U : Unicode} (text : str) : Prop :=
  ∃ c, c ∈ text ∧ py_isalpha c = true ∧ py_latin_name c = Some true.

(** A table as [basic_unicode], but for U+17000, a letter for which
    [unicodedata.name] has no name. *)
Definition unnamed_unicode : Unicode := {|
  py_lower := py_lower (Unicode:=basic_unicode);
  py_isalpha := λ c, py_isalpha (Unicode:=basic_unicode) c || (c =? 94208)%N;
  py_isword := λ c, py_isword (Unicode:=basic_unicode) c || (c =? 94208)%N;
  py_latin_name := λ c,
    if (c =? 94208)%N then None else py_latin_name (Unicode:=basic_unicode) c;
|}.

(** * Properties *)

(** ** Strings *)

Lemma elem_of_rev {A} (x : A) (l : list A) : x ∈ rev l ↔ x ∈ l.
Proof. rewrite !list_elem_of_In. symmetry. apply in_rev. Qed.

Lemma split_go_nospace (s cur w : str) (c : char) :
  (∀ x, x ∈ cur → Py.isspace x = false) →
  w ∈ Py.split_go s cur → c ∈ w → Py.isspace c = false.
Proof.
  revert cur. induction s as [|x s IH]; intros cur Hcur; cbn [Py.split_go].
  - destruct cur as [|y cur]; [by intros ?%elem_of_nil|].
    intros ->%list_elem_of_singleton Hc. apply Hcur. by apply elem_of_rev.
  - destruct (Py.isspace x) eqn:Ex.
    + destruct cur as [|y cur]; [by apply IH|].
      intros [->|Hw]%elem_of_cons Hc.
      * apply Hcur. by apply elem_of_rev.
      * eapply (IH []); [by intros ??%elem_of_nil|done..].
    + apply IH. intros z [->|?]%elem_of_cons; [done|by apply Hcur].
Qed.

Lemma lstrip_suffix (s : str) :
  ∃ sp, s = sp ++ Py.lstrip s ∧ Forall (λ c, Py.isspace c = true) sp.
Proof.
  induction s as [|c s (sp & E & Hsp)]; [by exists []|]. cbn [Py.lstrip].
  destruct (Py.isspace c) eqn:Ec.
  - exists (c :: sp). split; [by rewrite E at 1|by constructor].
  - by exists [].
Qed.

Lemma rstrip_prefix (s : str) :
  ∃ sp, s = Py.rstrip s ++ sp ∧ Forall (λ c, Py.isspace c = true) sp.
Proof.
  unfold Py.rstrip. destruct (lstrip_suffix (rev s)) as (sp & E & Hsp).
  exists (rev sp). split.
  - rewrite <-rev_app_distr, <-E. by rewrite rev_involutive.
  - apply Forall_forall. intros c Hc. rewrite elem_of_rev in Hc.
    rewrite Forall_forall in Hsp. by apply Hsp.
Qed.

Lemma strip_sub (s : str) (x : char) : x ∈ Py.strip s → x ∈ s.
Proof.
  unfold Py.strip. intros Hx.
  destruct (rstrip_prefix (Py.lstrip s)) as (sp & E & _).
  destruct (lstrip_suffix s) as (sp' & E' & _).
  rewrite E', E. apply elem_of_app. right. apply elem_of_app. by left.
Qed.

Lemma startswith_prefix (p s : str) :
  Py.startswith p s = true ↔ p `prefix_of` s.
Proof.
  revert s. induction p as [|x p IH]; intros s; simpl.
  - split; [intros _; apply prefix_nil | done].
  - destruct s as [|y s].
    + split; [done | intros H; by apply prefix_nil_inv in H].
    + rewrite andb_true_iff, N.eqb_eq, IH. split.
      * intros [-> H]. by apply prefix_cons.
      * intros H. split; [by apply prefix_cons_inv_1 in H | by apply prefix_cons_inv_2 in H].
Qed.

Lemma endswith_suffix (p s : str) :
  Py.endswith p s = true ↔ p `suffix_of` s.
Proof.
  unfold Py.endswith. rewrite startswith_prefix. split.
  - intros [k E]. exists (rev k).
    by rewrite <-(rev_involutive s), E, rev_app_distr, rev_involutive.
  - intros [k E]. exists (rev k). by rewrite E, rev_app_distr.
Qed.

Lemma startswith_refl (s : str) : Py.startswith s s = true.
Proof. by apply startswith_prefix. Qed.

Lemma startswith_one (x : char) (s : str) :
  Py.startswith [x] s = match s with y :: _ => (x =? y)%N | [] => false end.
Proof. destruct s; simpl; [done | by rewrite andb_true_r]. Qed.

Lemma endswith_one_snoc (x y : char) (s : str) :
  Py.endswith [x] (s ++ [y]) = (x =? y)%N.
Proof.
  unfold Py.endswith. rewrite rev_unit. simpl. by rewrite andb_true_r.
Qed.

Lemma endswith_one_nil (x : char) : Py.endswith [x] [] = false.
Proof. done. Qed.

Lemma drop_last_snoc (s : str) (y : char) : Py.drop_last 1 (s ++ [y]) = s.
Proof.
  unfold Py.drop_last. rewrite length_app. simpl.
  replace (length s + 1 - 1) with (length s) by lia.
  by rewrite take_app_length.
Qed.

Lemma str_gt_irrefl (a : str) : Py.str_gt a a = false.
Proof. induction a as [|x a IH]; simpl; [done|]. by rewrite N.ltb_irrefl. Qed.

Lemma str_gt_asym (a b : str) : Py.str_gt a b = true → Py.str_gt b a = false.
Proof.
  revert b. induction a as [|x a IH]; intros [|y b]; simpl; try done.
  destruct (N.ltb_spec y x), (N.ltb_spec x y); try done; try lia.
  apply IH.
Qed.

Lemma str_gt_total (a b : str) :
  Py.str_gt a b = false → Py.str_gt b a = false → a = b.
Proof.
  revert b. induction a as [|x a IH]; intros [|y b]; simpl; try done.
  destruct (N.ltb_spec y x), (N.ltb_spec x y); try done; try lia.
  intros H1 H2. assert (x = y) as -> by lia. f_equal. by apply IH.
Qed.

Lemma replace_one_map (x y : char) (s : str) :
  Py.replace [x] [y] s = map (λ c, if (c =? x)%N then y else c) s.
Proof.
  unfold Py.replace. induction s as [|c s IH]; simpl; [done|].
  rewrite andb_true_r, N.eqb_sym. destruct (c =? x)%N; simpl; by rewrite IH.
Qed.

Lemma char_in_elem_of (c : char) (s : str) :
  Py.char_in c s = true ↔ c ∈ s.
Proof.
  unfold Py.char_in. rewrite existsb_exists. split.
  - intros (x & Hin & Heq). apply N.eqb_eq in Heq. subst. by apply list_elem_of_In.
  - intros H. exists c. split; [by apply list_elem_of_In | apply N.eqb_refl].
Qed.

(** ** Edit distance *)

Lemma editdistance_nil_r (a : str) : editdistance a [] = length a.
Proof. by destruct a. Qed.

Lemma editdistance_cons (x y : char) (a b : str) :
  editdistance (x :: a) (y :: b) =
  Nat.min (Nat.min (S (editdistance a (y :: b))) (S (editdistance (x :: a) b)))
          (editdistance a b + (if (x =? y)%N then 0 else 1)).
Proof. done. Qed.

Lemma editdistance_sym (a b : str) : editdistance a b = editdistance b a.
Proof.
  revert b. induction a as [|x a IHa]; intros b.
  - by rewrite editdistance_nil_r.
  - induction b as [|y b IHb].
    + done.
    + rewrite !editdistance_cons, IHb, (IHa (y :: b)), (IHa b), (N.eqb_sym y x).
      lia.
Qed.

Lemma editdistance_refl (a : str) : editdistance a a = 0.
Proof.
  induction a as [|x a IH]; [done|].
  rewrite editdistance_cons, IH, N.eqb_refl. lia.
Qed.


(** ** [calc_distance]: what the recursion computes *)

Lemma strip_leading_shared (a b : str) :
  Py.startswith [schwa] a && Py.startswith [schwa] b = true →
  strip_shared_leading a b = strip_shared_leading (drop 1 a) (drop 1 b).
Proof.
  rewrite !startswith_one.
  destruct a as [|x a], b as [|y b]; cbn [strip_shared_leading drop]; try done.
  - by rewrite andb_false_r.
  - intros H. by rewrite !drop_0, (N.eqb_sym x), (N.eqb_sym y), H.
Qed.

Lemma strip_leading_unshared (a b : str) :
  Py.startswith [schwa] a && Py.startswith [schwa] b = false →
  strip_shared_leading a b = (a, b).
Proof.
  rewrite !startswith_one.
  destruct a as [|x a], b as [|y b]; cbn [strip_shared_leading]; try done.
  intros H. by rewrite (N.eqb_sym x), (N.eqb_sym y), H.
Qed.

Lemma snoc_cases (a : str) : a = [] ∨ ∃ a0 x, a = a0 ++ [x].
Proof. induction a using rev_ind; eauto. Qed.

Lemma shared_trailing_inv (a b : str) :
  Py.endswith [schwa] a && Py.endswith [schwa] b = true →
  ∃ a0 b0, a = a0 ++ [schwa] ∧ b = b0 ++ [schwa].
Proof.
  destruct (snoc_cases a) as [->|(a0 & x & ->)]; [done|].
  destruct (snoc_cases b) as [->|(b0 & y & ->)]; [by rewrite andb_false_r|].
  rewrite !endswith_one_snoc, andb_true_iff, !N.eqb_eq. intros [<- <-]. eauto.
Qed.

Lemma strip_trailing_shared (a0 b0 : str) :
  strip_shared_trailing (a0 ++ [schwa]) (b0 ++ [schwa]) = strip_shared_trailing a0 b0.
Proof. unfold strip_shared_trailing. by rewrite !rev_unit. Qed.

Lemma strip_trailing_unshared (a b : str) :
  Py.endswith [schwa] a && Py.endswith [schwa] b = false →
  strip_shared_trailing a b = (a, b).
Proof.
  unfold Py.endswith, strip_shared_trailing. change (rev [schwa]) with [schwa].
  intros H. rewrite strip_leading_unshared by done. by rewrite !rev_involutive.
Qed.

Lemma startswith_one_app (x : char) (a0 : str) (y : char) :
  Py.startswith [x] a0 = true → Py.startswith [x] (a0 ++ [y]) = true.
Proof. rewrite !startswith_one. by destruct a0. Qed.

Lemma calc_distance_rec_unshared (fuel : nat) (a b : str) :
  Py.startswith [schwa] a && Py.startswith [schwa] b = false →
  Py.endswith [schwa] a && Py.endswith [schwa] b = false →
  calc_distance_rec (S (S fuel)) a b = Some (calc_distance_sorted a b).
Proof.
  intros Hl Ht. unfold calc_distance_sorted.
  cbn [calc_distance_rec]. rewrite Hl, Ht.
  destruct (Py.str_gt a b) eqn:Hgt; [|done].
  rewrite (andb_comm (Py.startswith [schwa] b)), Hl.
  rewrite (andb_comm (Py.endswith [schwa] b)), Ht.
  by rewrite (str_gt_asym _ _ Hgt).
Qed.

Lemma calc_distance_rec_spec (fuel : nat) (a b : str) :
  length a + length b + 2 ≤ fuel →
  calc_distance_rec fuel a b =
  Some (let '(a', b') := strip_shared_fillers a b in calc_distance_sorted a' b').
Proof.
  revert a b. induction fuel as [|fuel IH]; intros a b Hfuel; [lia|].
  unfold strip_shared_fillers.
  destruct (Py.startswith [schwa] a && Py.startswith [schwa] b) eqn:Hl.
  - cbn [calc_distance_rec]. rewrite Hl, strip_leading_shared by done.
    rewrite IH; [done|].
    rewrite !startswith_one in Hl.
    destruct a as [|x a], b as [|y b]; try done.
    + by rewrite andb_false_r in Hl.
    + cbn [length drop] in *. rewrite !drop_0. lia.
  - rewrite strip_leading_unshared by done.
    destruct (Py.endswith [schwa] a && Py.endswith [schwa] b) eqn:Ht.
    + cbn [calc_distance_rec]. rewrite Hl, Ht.
      destruct (shared_trailing_inv _ _ Ht) as (a0 & b0 & -> & ->).
      rewrite !drop_last_snoc, strip_trailing_shared.
      rewrite IH by (rewrite !length_app in Hfuel; simpl in Hfuel; lia).
      unfold strip_shared_fillers. rewrite strip_leading_unshared; [done|].
      apply andb_false_iff. apply andb_false_iff in Hl as [Hl|Hl]; [left|right].
      * destruct (Py.startswith [schwa] a0) eqn:E; [|done].
        by rewrite (startswith_one_app _ _ _ E) in Hl.
      * destruct (Py.startswith [schwa] b0) eqn:E; [|done].
        by rewrite (startswith_one_app _ _ _ E) in Hl.
    + rewrite strip_trailing_unshared by done.
      destruct fuel as [|fuel]; [lia|]. by apply calc_distance_rec_unshared.
Qed.

(** The fuel given by [calc_distance] is never used up: every call returns
    a pair or raises [ZeroDivisionError]. *)
Lemma calc_distance_spec (a b : str) :
  calc_distance a b =
  Some (let '(a', b') := strip_shared_fillers a b in calc_distance_sorted a' b').
Proof. by apply calc_distance_rec_spec. Qed.

(** ** [calc_distance]: symmetry *)

Lemma strip_shared_leading_sym (a b : str) :
  strip_shared_leading b a =
  let '(a', b') := strip_shared_leading a b in (b', a').
Proof.
  revert b. induction a as [|x a IH]; intros [|y b]; cbn [strip_shared_leading]; try done.
  rewrite (andb_comm (y =? schwa)%N). destruct (_ && _); [apply IH|done].
Qed.

Lemma strip_shared_fillers_sym (a b : str) :
  strip_shared_fillers b a =
  let '(a', b') := strip_shared_fillers a b in (b', a').
Proof.
  unfold strip_shared_fillers, strip_shared_trailing.
  rewrite (strip_shared_leading_sym a b).
  destruct (strip_shared_leading a b) as [a1 b1].
  rewrite (strip_shared_leading_sym (rev a1) (rev b1)).
  by destruct (strip_shared_leading (rev a1) (rev b1)).
Qed.

Lemma calc_distance_sorted_sym (a b : str) :
  calc_distance_sorted a b = calc_distance_sorted b a.
Proof.
  unfold calc_distance_sorted.
  destruct (Py.str_gt a b) eqn:Hab.
  - by rewrite (str_gt_asym _ _ Hab).
  - destruct (Py.str_gt b a) eqn:Hba; [done|].
    by rewrite (str_gt_total _ _ Hab Hba).
Qed.

(** C6.  Distance symmetry: for all words [a] and [b], [calc_distance a b]
    and [calc_distance b a] have the same outcome, the same pair of edit
    distance and relatedness flag (or, for both, the same exception). *)
Theorem calc_distance_symmetric (a b : str) :
  calc_distance a b = calc_distance b a.
Proof.
  rewrite !calc_distance_spec, (strip_shared_fillers_sym a b).
  destruct (strip_shared_fillers a b) as [a' b'].
  by rewrite calc_distance_sorted_sym.
Qed.


(** ** [calc_distance]: when the division fails *)

Lemma calc_distance_body_error (a b : str) :
  calc_distance_body a b = ZeroDivisionError ↔ a = [] ∧ b = [].
Proof.
  unfold calc_distance_body.
  destruct (Nat.eqb_spec (Nat.max (length a) (length b)) 0) as [H|H].
  - split; [intros _|done].
    destruct a, b; simpl in H; try done; lia.
  - split; [done|]. intros [-> ->]. done.
Qed.

Lemma calc_distance_sorted_error (a b : str) :
  calc_distance_sorted a b = ZeroDivisionError ↔ a = [] ∧ b = [].
Proof.
  unfold calc_distance_sorted. destruct (Py.str_gt a b);
    rewrite calc_distance_body_error; tauto.
Qed.

Lemma strip_leading_decomp (a b a' b' : str) :
  strip_shared_leading a b = (a', b') →
  ∃ k, a = replicate k schwa ++ a' ∧ b = replicate k schwa ++ b'.
Proof.
  revert b. induction a as [|x a IH]; intros b; cbn [strip_shared_leading].
  - intros [= <- <-]. by exists 0.
  - destruct b as [|y b]; [intros [= <- <-]; by exists 0|].
    destruct (N.eqb_spec x schwa) as [->|?], (N.eqb_spec y schwa) as [->|?];
      cbn [andb]; try (intros [= <- <-]; by exists 0).
    intros H. destruct (IH _ H) as (k & -> & ->). by exists (S k).
Qed.

Lemma rev_replicate (k : nat) (x : char) : rev (replicate k x) = replicate k x.
Proof.
  induction k as [|k IH]; [done|]. cbn [replicate rev]. rewrite IH.
  clear IH. induction k as [|k IH]; [done|]. cbn [replicate app]. by rewrite IH.
Qed.

Lemma strip_trailing_decomp (a b a' b' : str) :
  strip_shared_trailing a b = (a', b') →
  ∃ k, a = a' ++ replicate k schwa ∧ b = b' ++ replicate k schwa.
Proof.
  unfold strip_shared_trailing.
  destruct (strip_shared_leading (rev a) (rev b)) as [a1 b1] eqn:E.
  intros [= <- <-]. destruct (strip_leading_decomp _ _ _ _ E) as (k & Ha & Hb).
  exists k. split.
  - by rewrite <-(rev_involutive a), Ha, rev_app_distr, rev_replicate.
  - by rewrite <-(rev_involutive b), Hb, rev_app_distr, rev_replicate.
Qed.

Lemma all_schwa_replicate (k : nat) : all_schwa (replicate k schwa).
Proof. intros c H. by apply elem_of_replicate in H as [-> _]. Qed.

Lemma all_schwa_cons (x : char) (a : str) :
  all_schwa (x :: a) ↔ x = schwa ∧ all_schwa a.
Proof.
  unfold all_schwa. split.
  - intros H. split; [apply H; left | intros c Hc; apply H; by right].
  - intros [-> H] c Hc. apply elem_of_cons in Hc as [->|Hc]; [done | by apply H].
Qed.

Lemma strip_leading_all_schwa (a : str) :
  all_schwa a → strip_shared_leading a a = ([], []).
Proof.
  induction a as [|x a IH]; [done|].
  rewrite all_schwa_cons. intros [-> H]. cbn [strip_shared_leading].
  rewrite N.eqb_refl. by apply IH.
Qed.

Lemma strip_fillers_empty (a b : str) :
  strip_shared_fillers a b = ([], []) ↔ a = b ∧ all_schwa a.
Proof.
  unfold strip_shared_fillers. split.
  - destruct (strip_shared_leading a b) as [a1 b1] eqn:E. intros Ht.
    destruct (strip_leading_decomp _ _ _ _ E) as (k & -> & ->).
    destruct (strip_trailing_decomp _ _ _ _ Ht) as (m & -> & ->).
    split; [done|]. intros c Hc.
    apply elem_of_app in Hc as [Hc|Hc]; by apply elem_of_replicate in Hc as [-> _].
  - intros [<- H]. rewrite strip_leading_all_schwa by done. done.
Qed.

Lemma calc_distance_error_iff (a b : str) :
  calc_distance a b = Some ZeroDivisionError ↔ a = b ∧ all_schwa a.
Proof.
  rewrite calc_distance_spec, <-strip_fillers_empty.
  destruct (strip_shared_fillers a b) as [a' b'].
  split.
  - intros [= H]. apply calc_distance_sorted_error in H as [-> ->]. done.
  - intros [= -> ->]. done.
Qed.

(** C10, as amended.  [calc_distance] always terminates, and it raises
    [ZeroDivisionError] instead of returning exactly when the two words are
    equal and consist of filler vowels only (two empty strings, the pair
    ('ə', 'ə'), ...): the shared fillers are then stripped down to two
    empty strings and the relatedness test divides by zero.  Two words of
    fillers of different lengths do get a result. *)
Theorem calc_distance_not_total :
  (∀ a b : str, calc_distance a b ≠ None)
  ∧ (∀ a b : str,
       calc_distance a b = Some ZeroDivisionError ↔ a = b ∧ all_schwa a)
  ∧ calc_distance [] [] = Some ZeroDivisionError
  ∧ calc_distance (ustr "ə") (ustr "ə") = Some ZeroDivisionError.
Proof.
  split; [|split; [|split]].
  - intros a b. by rewrite calc_distance_spec.
  - apply calc_distance_error_iff.
  - apply calc_distance_error_iff. split; [done|]. by intros c Hc%elem_of_nil.
  - apply calc_distance_error_iff. split; [done|]. apply (all_schwa_replicate 1).
Qed.

(** C10, as stated, fails: the two words 'ə' and 'əə' consist entirely of
    filler vowels, and [calc_distance] returns (1, False) for them. *)
Lemma calc_distance_fillers_of_different_length :
  ¬ (∀ a b : str, all_schwa a → all_schwa b →
                  calc_distance a b = Some ZeroDivisionError).
Proof.
  intros H.
  specialize (H (ustr "ə") (ustr "əə") (all_schwa_replicate 1) (all_schwa_replicate 2)).
  vm_compute in H. discriminate H.
Qed.

(** ** [calc_distance]: a word and itself *)

(** C7 fails on the code: the word 'əə' has two letters, and comparing it
    with itself raises [ZeroDivisionError] instead of returning (0, True). *)
Theorem calc_distance_self_fillers :
  length (ustr "əə") = 2
  ∧ calc_distance (ustr "əə") (ustr "əə") = Some ZeroDivisionError.
Proof. split; [done|]. by vm_compute. Qed.

Lemma consonant_set_elem (c : char) (a : str) :
  c ∈ consonant_set a ↔ (∃ x, x ∈ a ∧ c = as_plain_n x) ∧ c ∈ ALL_CONSONANTS.
Proof.
  unfold consonant_set, ALL_CONSONANTS_SET.
  rewrite elem_of_intersection, !elem_of_list_to_set.
  change (ustr "N") with [uchr "N"]. change (ustr "n") with [uchr "n"].
  rewrite replace_one_map. rewrite list_elem_of_In, in_map_iff.
  split.
  - intros [(x & <- & Hx) Hc]. split; [|done]. exists x.
    split; [by apply list_elem_of_In | done].
  - intros [(x & Hx & ->) Hc]. split; [|done]. exists x.
    split; [done | by apply list_elem_of_In].
Qed.

Lemma as_plain_n_consonant (x : char) :
  as_plain_n x ∈ ALL_CONSONANTS ↔ x ∈ ALL_CONSONANTS.
Proof.
  unfold as_plain_n. destruct (N.eqb_spec x (uchr "N")) as [->|]; [|done].
  split; intros _; apply char_in_elem_of; by vm_compute.
Qed.

Lemma consonant_set_nonempty (a : str) :
  consonant_set a ≠ ∅ ↔ has_consonant a.
Proof.
  unfold has_consonant. split.
  - intros H. apply set_choose_L in H as [c Hc].
    apply consonant_set_elem in Hc as [(x & Hx & ->) Hc].
    exists x. split; [done|]. by apply as_plain_n_consonant.
  - intros (x & Hx & Hc) E.
    assert (as_plain_n x ∈ consonant_set a) as Hin.
    { apply consonant_set_elem. split; [eauto | by apply as_plain_n_consonant]. }
    rewrite E in Hin. by apply elem_of_empty in Hin.
Qed.

Lemma consonant_set_share (a b : str) :
  consonant_set a ∩ consonant_set b ≠ ∅ ↔ share_consonant a b.
Proof.
  unfold share_consonant. split.
  - intros H. apply set_choose_L in H as [c Hc].
    apply elem_of_intersection in Hc as [Ha Hb].
    apply consonant_set_elem in Ha as [(x & Hx & ->) Hcx].
    apply consonant_set_elem in Hb as [(y & Hy & E) Hcy].
    exists x, y. rewrite E in Hcx.
    repeat split; try done; by apply as_plain_n_consonant.
  - intros (x & y & Hx & Hy & Hcx & Hcy & E) Hempty.
    assert (as_plain_n x ∈ consonant_set a ∩ consonant_set b) as Hin.
    { apply elem_of_intersection. split; apply consonant_set_elem.
      - split; [eauto | by apply as_plain_n_consonant].
      - split; [eauto | by apply as_plain_n_consonant]. }
    rewrite Hempty in Hin. by apply elem_of_empty in Hin.
Qed.

Lemma calc_distance_body_self (a : str) :
  a ≠ [] → calc_distance_body a a = Returns 0 true.
Proof.
  intros Ha. unfold calc_distance_body.
  rewrite editdistance_refl, Nat.max_id.
  destruct (Nat.eqb_spec (length a) 0) as [E|E]; [by destruct a|].
  cbn [Nat.mul Nat.add Nat.leb negb]. f_equal.
  destruct (bool_decide (consonant_set a ≠ ∅)) eqn:Hc; [|done].
  cbn [andb]. apply bool_decide_eq_true. apply bool_decide_eq_true in Hc.
  revert Hc. generalize (consonant_set a). intros X HX.
  by rewrite (idemp_L (∩) X).
Qed.

(** Every word with a letter that is not a filler is at distance 0 from
    itself and related to itself. *)
Lemma calc_distance_self (a : str) :
  ¬ all_schwa a → calc_distance a a = Some (Returns 0 true).
Proof.
  intros Ha. rewrite calc_distance_spec.
  destruct (strip_shared_fillers a a) as [a1 a2] eqn:E.
  assert (a1 = a2) as <-.
  { pose proof (strip_shared_fillers_sym a a) as H. rewrite E in H. by injection H. }
  unfold calc_distance_sorted. rewrite str_gt_irrefl.
  rewrite calc_distance_body_self; [done|]. intros ->.
  apply Ha. by apply (strip_fillers_empty a a).
Qed.


(** ** [calc_distance]: the relatedness criterion *)

Lemma close_enough_sym (a b : str) : close_enough a b ↔ close_enough b a.
Proof. unfold close_enough. by rewrite editdistance_sym, Nat.max_comm. Qed.

Lemma shorter_at_edge_sym (a b : str) : shorter_at_edge a b ↔ shorter_at_edge b a.
Proof.
  unfold shorter_at_edge.
  split; intros (s & l & H & ?); exists s, l; (split; [tauto|done]).
Qed.

Lemma share_consonant_sym (a b : str) : share_consonant a b ↔ share_consonant b a.
Proof.
  unfold share_consonant.
  split; intros (x & y & ? & ? & ? & ? & ?); exists y, x; by repeat split.
Qed.

Lemma related_words_sym (a b : str) : related_words a b ↔ related_words b a.
Proof.
  unfold related_words.
  rewrite (close_enough_sym a b), (shorter_at_edge_sym a b), (share_consonant_sym a b).
  tauto.
Qed.

Lemma edge_test_spec (a b : str) :
  (let '(shorter, longer) :=
     if (length a <? length b)%nat then (a, b) else (b, a) in
   (2 <=? length shorter)%nat
   && (Py.startswith shorter longer || Py.endswith shorter longer)) = true
  ↔ shorter_at_edge a b.
Proof.
  unfold shorter_at_edge.
  destruct (Nat.ltb_spec (length a) (length b)) as [Hlt|Hge];
    rewrite andb_true_iff, orb_true_iff, Nat.leb_le, startswith_prefix, endswith_suffix.
  - split.
    + intros [? ?]. exists a, b. repeat split; try done; [tauto | lia].
    + intros (s & l & [[-> ->]|[-> ->]] & ? & ? & ?); [done | lia].
  - split.
    + intros [? ?]. exists b, a. repeat split; try done; tauto.
    + intros (s & l & [[-> ->]|[-> ->]] & Hle & ? & Hps); [|done].
      assert (a = b) as ->; [|done].
      destruct Hps as [Hp|Hs].
      * apply prefix_length_eq; [done | lia].
      * apply suffix_length_eq; [done | lia].
Qed.

Lemma calc_distance_body_related (a b : str) :
  ¬ (a = [] ∧ b = []) →
  ∃ r, calc_distance_body a b = Returns (editdistance a b) r
       ∧ (r = true ↔ related_words a b).
Proof.
  intros Hne. unfold calc_distance_body, related_words. cbv zeta.
  destruct (Nat.eqb_spec (Nat.max (length a) (length b)) 0) as [E|_].
  { exfalso. apply Hne. destruct a, b; simpl in E; try done; lia. }
  eexists. split; [reflexivity|].
  rewrite <-consonant_set_share, <-!consonant_set_nonempty.
  pose proof (edge_test_spec a b) as Hedge.
  destruct (Nat.leb_spec (2 * editdistance a b) (Nat.max (length a) (length b)))
    as [Hcl|Hcl]; cbn [negb].
  - assert (close_enough a b) as Hclose by done.
    destruct (bool_decide (consonant_set a ≠ ∅)) eqn:Ha; cbn [andb].
    + destruct (bool_decide (consonant_set b ≠ ∅)) eqn:Hb.
      * apply bool_decide_eq_true in Ha, Hb. rewrite bool_decide_eq_true. tauto.
      * apply bool_decide_eq_false in Hb. tauto.
    + apply bool_decide_eq_false in Ha. tauto.
  - assert (¬ close_enough a b) as Hclose by (unfold close_enough; lia).
    match goal with |- context [if ?e then _ else ?e] => destruct e eqn:He end.
    + assert (shorter_at_edge a b) as Hs by (by apply Hedge).
      destruct (bool_decide (consonant_set a ≠ ∅)) eqn:Ha; cbn [andb].
      * destruct (bool_decide (consonant_set b ≠ ∅)) eqn:Hb.
        -- apply bool_decide_eq_true in Ha, Hb. rewrite bool_decide_eq_true. tauto.
        -- apply bool_decide_eq_false in Hb. tauto.
      * apply bool_decide_eq_false in Ha. tauto.
    + assert (¬ shorter_at_edge a b) as Hs.
      { intros Hs. apply Hedge in Hs. congruence. }
      split; [done | tauto].
Qed.

Lemma calc_distance_sorted_related (a b : str) :
  ¬ (a = [] ∧ b = []) →
  ∃ r, calc_distance_sorted a b = Returns (editdistance a b) r
       ∧ (r = true ↔ related_words a b).
Proof.
  intros Hne. unfold calc_distance_sorted. destruct (Py.str_gt a b).
  - destruct (calc_distance_body_related b a) as (r & -> & Hr); [tauto|].
    exists r. by rewrite editdistance_sym, related_words_sym.
  - by apply calc_distance_body_related.
Qed.

(** C4.  Relatedness criterion: unless both words are the same run of
    filler vowels (when no result is returned), [calc_distance a b]
    returns the edit distance of the two words stripped of their shared
    leading and trailing fillers, with a flag that is true exactly when the
    stripped words are close enough (distance over the greater length at
    most 0.5) or the shorter, of at least two letters, is a prefix or suffix
    of the longer, and, if both contain a consonant, they share one (the
    velar nasal counting as n).  In particular 'kubə' and 'sabə' are not
    related. *)
Theorem calc_distance_related_iff :
  (∀ a b : str,
     ¬ (a = b ∧ all_schwa a) →
     ∃ r, calc_distance a b =
          Some (Returns (let '(a', b') := strip_shared_fillers a b in
                         editdistance a' b') r)
          ∧ (r = true ↔ related_spec a b))
  ∧ calc_distance (ustr "kubə") (ustr "sabə") = Some (Returns 2 false).
Proof.
  split; [|by vm_compute].
  intros a b Hne. rewrite calc_distance_spec. unfold related_spec.
  rewrite <-strip_fillers_empty in Hne.
  destruct (strip_shared_fillers a b) as [a' b'].
  destruct (calc_distance_sorted_related a' b') as (r & -> & Hr).
  { intros [-> ->]. by apply Hne. }
  by exists r.
Qed.

(** The criterion applied to 'kitten' and 'sitting'. *)
Lemma calc_distance_related_iff_witness :
  ∃ r, calc_distance (ustr "kitten") (ustr "sitting") =
       Some (Returns (let '(a', b') :=
                        strip_shared_fillers (ustr "kitten") (ustr "sitting") in
                      editdistance a' b') r)
       ∧ (r = true ↔ related_spec (ustr "kitten") (ustr "sitting")).
Proof.
  apply (proj1 calc_distance_related_iff (ustr "kitten") (ustr "sitting")).
  intros [H _]. vm_compute in H. discriminate H.
Defined.


(** ** The order of floats *)

Section FloatOrder.
Context {F : PyFloat} {L : PyFloatLaws F}.
Implicit Types a b c : float.

Lemma feq_sym a b : feq a b = feq b a.
Proof using L. rewrite !feq_fle. apply andb_comm. Qed.

Lemma feq_fle_true a b :
  feq a b = true → fle a b = true ∧ fle b a = true.
Proof using L. rewrite feq_fle. apply andb_true_iff. Qed.

Lemma feq_trans a b c : feq a b = true → feq b c = true → feq a c = true.
Proof using L.
  rewrite !feq_fle, !andb_true_iff. intros [? ?] [? ?].
  split; by eapply fle_trans.
Qed.

Lemma feq_fneg a b : feq (fneg a) (fneg b) = feq a b.
Proof using L. rewrite !feq_fle, !fneg_fle. apply andb_comm. Qed.

Lemma flt_fneg a b : flt (fneg a) (fneg b) = flt b a.
Proof using L. unfold flt. by rewrite fneg_fle. Qed.

Lemma flt_fle a b : flt a b = true → fle a b = true.
Proof using L.
  unfold flt. rewrite negb_true_iff. intros H.
  destruct (fle_total a b); congruence.
Qed.

Lemma flt_asym a b : flt a b = true → flt b a = false.
Proof using L. intros H%flt_fle. unfold flt. by rewrite H. Qed.

(** Of two numbers that are not equal, one is less than the other. *)
Lemma flt_false_neq a b : feq a b = false → flt a b = false → flt b a = true.
Proof using L.
  rewrite feq_fle. unfold flt. rewrite negb_false_iff. intros H Hba.
  rewrite Hba, andb_true_r in H. by rewrite H.
Qed.

Lemma flt_fle_trans a b c : flt a b = true → fle b c = true → flt a c = true.
Proof using L.
  unfold flt. rewrite !negb_true_iff. intros Hab Hbc.
  destruct (fle c a) eqn:Hca; [|done].
  by rewrite (fle_trans b c a) in Hab.
Qed.

Lemma fle_flt_trans a b c : fle a b = true → flt b c = true → flt a c = true.
Proof using L.
  unfold flt. rewrite !negb_true_iff. intros Hab Hbc.
  destruct (fle c a) eqn:Hca; [|done].
  by rewrite (fle_trans c a b) in Hbc.
Qed.

End FloatOrder.

Lemma exact_floats_laws : PyFloatLaws exact_floats.
Proof.
  split; cbn [float fle feq fneg fadd int_truediv of_int exact_floats].
  - intros a b. rewrite !Qle_bool_iff.
    destruct (Qlt_le_dec a b); [left|right]; lra.
  - intros a b c. rewrite !Qle_bool_iff. lra.
  - intros a b. apply eq_true_iff_eq.
    rewrite andb_true_iff, Qeq_bool_iff, !Qle_bool_iff. lra.
  - intros a b. apply eq_true_iff_eq.
    rewrite !Qle_bool_iff, !Qred_correct. lra.
  - intros d Hd. change (inject_Z 1) with (Qred 1). apply Qred_complete.
    rewrite Qred_correct. unfold Qdiv. change (inject_Z 0) with 0%Q.
    change (inject_Z 1) with 1%Q. rewrite Qmult_0_l. reflexivity.
Qed.

(** ** [store_normalized_sim_penalties] *)

Section Normalization.
Context {F : PyFloat}.





End Normalization.



(** The same batch, run in exact arithmetic: the scores are 1, 1/2 and 0. *)
Example store_normalized_sim_penalties_example :
  let vb := empty_builder (F:=exact_floats) in
  let cand (w : string) (p : Z) :=
    mkCandidate (F:=exact_floats)
      (ustr w) 0 (ustr "xx") (ustr w) None [] p (of_int (-1)) ∅ true in
  let candidates :=
    [(ustr "xx", [cand "kata"%string 4%Z; cand "kato"%string 7%Z]);
     (ustr "yy", [cand "gato"%string 10%Z])] in
  simscore <$> (store_normalized_sim_penalties vb candidates).1
  = [1%Q; (1 # 2)%Q; 0%Q].
Proof. by vm_compute. Qed.


(** ** [print_cands]: the order *)

Lemma str_gt_trans_le (a b c : str) :
  Py.str_gt a b = false → Py.str_gt b c = false → Py.str_gt a c = false.
Proof.
  revert b c. induction a as [|x a IH]; intros [|y b] [|z c]; simpl; try done.
  destruct (N.ltb_spec y x), (N.ltb_spec x y), (N.ltb_spec z y),
    (N.ltb_spec y z), (N.ltb_spec z x), (N.ltb_spec x z); try done; try lia.
  apply IH.
Qed.

Section Ranking.
Context {U : Unicode} {F : PyFloat} {L : PyFloatLaws F}.

Lemma key_lt_false_iff (x y : Candidate) :
  key_lt (sort_key y) (sort_key x) = false ↔ ranks_before x y.
Proof using L.
  unfold key_lt, sort_key, ranks_before, Py.str_lt.
  set (nx := count_related_natlang_cands x).
  set (ny := count_related_natlang_cands y).
  destruct (Z.eqb_spec (- Z.of_nat ny) (- Z.of_nat nx)) as [E|E]; cbn [negb].
  - assert (nx = ny) as Hn by lia.
    rewrite feq_fneg, flt_fneg, (feq_sym (total_score y)).
    destruct (feq (total_score x) (total_score y)) eqn:Hq; cbn [negb].
    + split; [intros H; right; split; [done|]; by right|].
      intros [?|[_ [Hlt|[_ ?]]]]; [lia | | done].
      apply feq_fle_true in Hq as [Hxy _]. unfold flt in Hlt.
      rewrite Hxy in Hlt. done.
    + split.
      * intros H. right. split; [done|]. left. by apply flt_false_neq.
      * intros [?|[_ [Hlt|[? _]]]]; [lia | | done].
        by apply flt_asym.
  - rewrite Z.ltb_ge. split; [intros H; left; lia|].
    intros [?|[? _]]; lia.
Qed.

Lemma key_lt_true_ranks (x y : Candidate) :
  key_lt (sort_key y) (sort_key x) = true → ranks_before y x.
Proof using L.
  intros H. apply key_lt_false_iff. revert H.
  unfold key_lt, sort_key, Py.str_lt.
  set (nx := count_related_natlang_cands x).
  set (ny := count_related_natlang_cands y).
  destruct (Z.eqb_spec (- Z.of_nat ny) (- Z.of_nat nx)) as [E|E]; cbn [negb].
  - rewrite <-E, Z.eqb_refl. cbn [negb].
    rewrite !feq_fneg, !flt_fneg, (feq_sym (total_score y)).
    destruct (feq (total_score x) (total_score y)) eqn:Hq; cbn [negb].
    + apply str_gt_asym.
    + apply flt_asym.
  - destruct (Z.eqb_spec (- Z.of_nat nx) (- Z.of_nat ny)); [lia|]. cbn [negb].
    rewrite Z.ltb_lt, Z.ltb_ge. lia.
Qed.

Lemma ranks_before_trans (x y z : Candidate) :
  ranks_before x y → ranks_before y z → ranks_before x z.
Proof using L.
  unfold ranks_before.
  intros [?|[? [Hxy|[Hxy ?]]]] [?|[? [Hyz|[Hyz ?]]]];
    try (left; lia); right; (split; [lia|]).
  - left. eapply flt_fle_trans; [exact Hyz|]. by apply flt_fle.
  - left. apply feq_fle_true in Hyz as [_ Hzy].
    by eapply fle_flt_trans.
  - left. apply feq_fle_true in Hxy as [_ Hyx].
    by eapply flt_fle_trans.
  - right. split; [by eapply feq_trans|]. by eapply str_gt_trans_le.
Qed.

Lemma insert_sorted_perm (x : Candidate) (l : list Candidate) :
  insert_sorted x l ≡ₚ x :: l.
Proof.
  induction l as [|y l IH]; cbn [insert_sorted]; [done|].
  destruct (key_lt _ _); [|done]. rewrite IH. apply Permutation_swap.
Qed.

Lemma sorted_perm (l : list Candidate) : sorted l ≡ₚ l.
Proof.
  induction l as [|x l IH]; [done|].
  cbn [sorted foldr]. rewrite insert_sorted_perm. by f_equiv.
Qed.

Lemma insert_sorted_strongly (x : Candidate) (l : list Candidate) :
  StronglySorted ranks_before l → StronglySorted ranks_before (insert_sorted x l).
Proof using L.
  induction l as [|y l IH]; cbn [insert_sorted]; intros Hl.
  - by repeat constructor.
  - apply StronglySorted_inv in Hl as [Hl Hy].
    destruct (key_lt (sort_key y) (sort_key x)) eqn:Hlt.
    + constructor; [by apply IH|].
      rewrite Forall_forall. intros z Hz.
      rewrite insert_sorted_perm in Hz. apply elem_of_cons in Hz as [->|Hz].
      * by apply key_lt_true_ranks.
      * rewrite Forall_forall in Hy. by apply Hy.
    + apply key_lt_false_iff in Hlt.
      constructor; [by constructor|]. constructor; [done|].
      eapply Forall_impl; [exact Hy|]. intros z Hz.
      by eapply ranks_before_trans.
Qed.

Lemma sorted_strongly (l : list Candidate) : StronglySorted ranks_before (sorted l).
Proof using L.
  induction l as [|x l IH]; [constructor|].
  by apply insert_sorted_strongly.
Qed.

End Ranking.


(** ** [print_cands]: skipping and numbering *)

Section Printing.
Context {U : Unicode} {F : PyFloat}.
Variables (vb : VocBuilder) (min_length : Z) (constraints : option Constraints).
Variable best_score : float.

Lemma print_cand_spec (st : print_state) (cand : Candidate) :
  failure_inv constraints st →
  let st' := print_cand vb min_length constraints best_score st cand in
  failure_inv constraints st'
  ∧ ∃ p star,
      printed st' = printed st ++ [InfoCandidate p star cand]
      ∧ (p = Numbered (num st) ∧ ¬ skipped vb min_length constraints cand
         ∧ result st' = result st ++ [cand] ∧ num st' = (num st + 1)%Z
         ∨ (∀ n, p ≠ Numbered n) ∧ skipped vb min_length constraints cand
           ∧ result st' = result st ∧ num st' = num st).
Proof.
  intros Hinv. unfold print_cand, skipped. cbv zeta.
  set (pf := match constraints with Some cs => fails cs cand | None => possible_failure st end).
  assert (constraints = None → pf = []) as Hpf.
  { intros E. subst pf. rewrite E. by apply Hinv. }
  assert (pf ≠ [] ↔ ∃ cs, constraints = Some cs ∧ fails cs cand ≠ []) as Hfail.
  { subst pf. destruct constraints as [cs|] eqn:E.
    - split; [eauto|]. by intros (? & [= <-] & ?).
    - rewrite Hinv by done. split; [done|]. by intros (? & ? & ?). }
  destruct (bool_decide _ && negb _) eqn:H1.
  { split; [done|]. eexists _, _. split; [reflexivity|]. right.
    apply andb_true_iff in H1 as [H1 H1']. apply bool_decide_eq_true in H1.
    apply negb_true_iff in H1'. repeat split; try done. by left. }
  destruct (Z.ltb_spec (Z.of_nat (length (word cand))) min_length) as [H2|H2].
  { split; [done|]. eexists _, _. split; [reflexivity|]. right.
    repeat split; try done. right. by left. }
  destruct (fle (dscore cand) literal_0_6) eqn:H3.
  { split; [done|]. eexists _, _. split; [reflexivity|]. right.
    repeat split; try done. right. right. by left. }
  destruct (Nat.eqb_spec (length pf) 0) as [H4|H4]; cbn [negb].
  - split; [done|]. eexists _, _. split; [reflexivity|]. left.
    repeat split; try done.
    intros [[Hin Hdup]|[?|[Hq|Hc]]].
    + apply andb_false_iff in H1 as [H1|H1].
      * by apply bool_decide_eq_false in H1.
      * rewrite Hdup in H1. done.
    + lia.
    + congruence.
    + apply Hfail in Hc. by destruct pf.
  - split; [done|]. eexists _, _. split; [reflexivity|]. right.
    repeat split; try done. right. right. right. apply Hfail. by intros ->.
Qed.

Lemma shown_cands_cons (p : prefix) (star : bool) (c : Candidate)
    (l : list message) :
  shown_cands (InfoCandidate p star c :: l) = c :: shown_cands l.
Proof. done. Qed.

Lemma numbered_lines_numbered (n : Z) (star : bool) (c : Candidate)
    (l : list message) :
  numbered_lines (InfoCandidate (Numbered n) star c :: l)
  = (n, c) :: numbered_lines l.
Proof. done. Qed.

Lemma numbered_lines_skipped (p : prefix) (star : bool) (c : Candidate)
    (l : list message) :
  (∀ n, p ≠ Numbered n) →
  numbered_lines (InfoCandidate p star c :: l) = numbered_lines l.
Proof. intros Hp. destruct p; try done. by destruct (Hp num0). Qed.

Lemma print_loop_spec (l : list Candidate) (st : print_state) :
  failure_inv constraints st →
  let st' := foldl (print_cand vb min_length constraints best_score) st l in
  ∃ new added,
    printed st' = printed st ++ new
    ∧ result st' = result st ++ added
    ∧ shown_cands new = l
    ∧ Forall (line_ok vb min_length constraints) new
    ∧ numbered_lines new = imap (λ i c, (num st + Z.of_nat i, c)%Z) added.
Proof.
  revert st. induction l as [|c l IH]; intros st Hinv; cbn [foldl].
  - exists [], []. by rewrite !app_nil_r.
  - destruct (print_cand_spec st c Hinv) as (Hinv' & p & star & Hp & Hcase).
    destruct (IH _ Hinv') as (new & added & Hnew & Hres & Hshown & Hok & Hnum).
    cbv zeta. rewrite Hnew, Hres, Hp.
    destruct Hcase as [(-> & Hns & Hr & Hn)|(Hp' & Hs & Hr & Hn)].
    + exists (InfoCandidate (Numbered (num st)) star c :: new), (c :: added).
      rewrite Hr, <-!app_assoc. repeat split; try done.
      * by rewrite shown_cands_cons, Hshown.
      * constructor; [|done]. eexists _, _, _. split; [done|]. split; eauto.
      * rewrite numbered_lines_numbered, Hnum, Hn. cbn [imap].
        rewrite Z.add_0_r. f_equal. apply imap_ext. intros i x _.
        cbn. f_equal. lia.
    + exists (InfoCandidate p star c :: new), added.
      rewrite Hr, <-!app_assoc. repeat split; try done.
      * by rewrite shown_cands_cons, Hshown.
      * constructor; [|done]. eexists _, _, _. split; [done|].
        split; [intros [n ->]; by destruct (Hp' n) | done].
      * by rewrite numbered_lines_skipped, Hnum, Hn.
Qed.

End Printing.

(** C5.  Ranker ordering and skipping.  [print_cands] prints one line per
    candidate of [cand_list] (none is dropped), in an order in which each
    candidate has more related natural languages than the later ones, or
    as many and a higher total score, or these are equal and its exported
    word is alphabetically not greater.  A line is numbered exactly when
    its candidate is not skipped, i.e. when none of these holds: its
    normalized word is an existing word and duplicates are not allowed, its
    internal word is shorter than the minimum length, its distortion score
    is at most 0.6, the constraints report a failure (a non-empty reason).
    The numbered lines carry the numbers 1, 2, 3, ... in order, and their
    candidates, in order, are the returned list.  Scores are compared as
    the floats compare them. *)
Theorem print_cands_spec `{U : Unicode} `{F : PyFloat} `{L : !PyFloatLaws F}
    (vb : VocBuilder)
    (cand_list : list Candidate) (min_length : Z)
    (constraints : option Constraints) :
  ∃ printed,
    LOG (print_cands vb cand_list min_length constraints).2 = LOG vb ++ printed
    ∧ shown_cands printed ≡ₚ cand_list
    ∧ StronglySorted ranks_before (shown_cands printed)
    ∧ Forall (line_ok vb min_length constraints) printed
    ∧ numbered_lines printed =
      imap (λ i c, (1 + Z.of_nat i, c)%Z)
           (print_cands vb cand_list min_length constraints).1.
Proof.
  unfold print_cands, print_cands_run. cbn [fst snd LOG log].
  destruct cand_list as [|c rest].
  - exists []. repeat split; by constructor.
  - set (best := best_total_score c rest).
    destruct (print_loop_spec vb min_length constraints best
                (sorted (c :: rest)) (mkPrintState 1 [] [] []))
      as (new & added & Hnew & Hres & Hshown & Hok & Hnum); [done|].
    cbv zeta in *. cbn [printed result num app] in *.
    exists new. rewrite Hnew, Hres, Hshown. repeat split; try done.
    + apply sorted_perm.
    + apply sorted_strongly.
Qed.

(** The theorem on four candidates with similarity score 1 and conversion
    penalties 1, 0, 0 and 3, with minimum length 3 and no constraints. *)
Lemma print_cands_spec_witness :
  let vb := empty_builder (F:=exact_floats) in
  let cand (w : string) (p : Z) :=
    mkCandidate (F:=exact_floats)
      (ustr w) p (ustr "xx") (ustr w) None [] 0 (of_int 1) ∅ true in
  let cand_list :=
    [cand "kato"%string 1%Z; cand "ka"%string 0%Z;
     cand "kata"%string 0%Z; cand "gato"%string 3%Z] in
  ∃ printed,
    LOG (print_cands (U:=basic_unicode) vb cand_list 3 None).2 = LOG vb ++ printed
    ∧ shown_cands printed ≡ₚ cand_list
    ∧ StronglySorted (ranks_before (U:=basic_unicode)) (shown_cands printed)
    ∧ Forall (line_ok (U:=basic_unicode) vb 3 None) printed
    ∧ numbered_lines printed =
      imap (λ i c, (1 + Z.of_nat i, c)%Z)
           (print_cands (U:=basic_unicode) vb cand_list 3 None).1.
Proof.
  intros vb cand cand_list.
  apply (print_cands_spec (U:=basic_unicode) (F:=exact_floats)
           (L:=exact_floats_laws)).
Defined.

(** The same call, run: 'ka' is shown first and skipped as too short,
    'kata' and 'kato' are numbered 1 and 2, and 'gato', whose distortion
    score is 0.4, is skipped. *)
Example print_cands_example :
  let vb := empty_builder (F:=exact_floats) in
  let cand (w : string) (p : Z) :=
    mkCandidate (F:=exact_floats)
      (ustr w) p (ustr "xx") (ustr w) None [] 0 (of_int 1) ∅ true in
  let cand_list :=
    [cand "kato"%string 1%Z; cand "ka"%string 0%Z;
     cand "kata"%string 0%Z; cand "gato"%string 3%Z] in
  let out := print_cands (U:=basic_unicode) vb cand_list 3 None in
  out.1 = [cand "kata"%string 0%Z; cand "kato"%string 1%Z]
  ∧ LOG out.2 =
    [InfoCandidate SkippedTooShort true (cand "ka"%string 0%Z);
     InfoCandidate (Numbered 1) true (cand "kata"%string 0%Z);
     InfoCandidate (Numbered 2) false (cand "kato"%string 1%Z);
     InfoCandidate SkippedTooDistorted false (cand "gato"%string 3%Z)].
Proof. by vm_compute. Qed.


(** ** The conversion loop of [mk_candidate] *)

Lemma longest_match_spec (convdict : gmap str Conversion) (rest : str)
    (n idx : nat) (conv : Conversion) :
  longest_match convdict rest n = Some (idx, conv) →
  1 ≤ idx ≤ n ∧ convdict !! take idx rest = Some conv
  ∧ ∀ j, idx < j ≤ n → convdict !! take j rest = None.
Proof.
  induction n as [|n IH]; cbn [longest_match]; [done|].
  destruct (convdict !! take (S n) rest) eqn:E.
  - intros [= <- <-]. split; [lia|]. split; [done|]. intros j ?. lia.
  - intros H. destruct (IH H) as (? & ? & Hmax). split; [lia|]. split; [done|].
    intros j Hj. destruct (decide (j = S n)) as [->|]; [done|]. apply Hmax. lia.
Qed.

Lemma longest_match_none (convdict : gmap str Conversion) (rest : str) (n : nat) :
  longest_match convdict rest n = None →
  ∀ idx, 1 ≤ idx ≤ n → convdict !! take idx rest = None.
Proof.
  induction n as [|n IH]; cbn [longest_match]; [intros _ idx; lia|].
  destruct (convdict !! take (S n) rest) eqn:E; [done|].
  intros H idx Hidx. destruct (decide (idx = S n)) as [->|]; [done|].
  apply IH; [done | lia].
Qed.

Section Conversion.
Context {F : PyFloat}.
Variables (convdict : gmap str Conversion) (maxkeylen : Z) (langcode word : str).

Lemma convert_step_progress (c0 : char) (r : str) (st : conv_state) :
  rest_word st = c0 :: r →
  let st' := convert_step convdict maxkeylen langcode word c0 st in
  let start := Z.to_nat (Z.min maxkeylen (Z.of_nat (length (rest_word st)))) in
  ∃ consumed,
    1 ≤ length consumed
    ∧ rest_word st = consumed ++ rest_word st'
    ∧ ((∃ idx conv,
          consumed = take idx (rest_word st) ∧ 1 ≤ idx ≤ start
          ∧ convdict !! consumed = Some conv
          ∧ (∀ j, idx < j ≤ start → convdict !! take j (rest_word st) = None)
          ∧ out_word st' = out_word st ++ output conv
          ∧ conv_pen st' = (conv_pen st + (if conv_penalty conv then 1 else 0))%Z
          ∧ warnings st' = warnings st)
       ∨ ((∀ j, 1 ≤ j ≤ start → convdict !! take j (rest_word st) = None)
          ∧ consumed = [c0]
          ∧ out_word st' = out_word st ++ [c0]
          ∧ conv_pen st' = conv_pen st
          ∧ warnings st' =
            warnings st ++ [WarnUnexpectedCharacter c0 langcode word])).
Proof.
  intros Hrest. unfold convert_step. cbv zeta.
  set (start := Z.to_nat (Z.min maxkeylen (Z.of_nat (length (rest_word st))))).
  assert (start ≤ length (rest_word st)) as Hstart by lia.
  destruct (longest_match convdict (rest_word st) start) as [[idx conv]|] eqn:E.
  - apply longest_match_spec in E as (Hidx & Hconv & Hmax).
    exists (take idx (rest_word st)). cbn [rest_word out_word warnings conv_pen].
    split; [rewrite length_take; lia|].
    split; [by rewrite take_drop|]. left. by exists idx, conv.
  - exists [c0]. cbn [rest_word out_word warnings conv_pen].
    split; [done|]. split; [by rewrite Hrest|]. right.
    split; [by apply longest_match_none | done].
Qed.

Lemma convert_loop_terminates (fuel : nat) (st : conv_state) :
  length (rest_word st) ≤ fuel →
  ∃ st', convert_loop fuel convdict maxkeylen langcode word st = Some st'
         ∧ rest_word st' = [].
Proof.
  revert st. induction fuel as [|fuel IH]; intros st Hfuel.
  - destruct (rest_word st) eqn:E; [|simpl in Hfuel; lia].
    exists st. cbn [convert_loop]. by rewrite E.
  - cbn [convert_loop]. destruct (rest_word st) as [|c0 r] eqn:E.
    + by exists st.
    + apply IH.
      destruct (convert_step_progress c0 r st E) as (consumed & Hlen & Hsplit & _).
      cbv zeta in Hsplit.
      apply (f_equal length) in Hsplit. rewrite length_app, E in Hsplit.
      rewrite ?E in Hfuel. cbn [length] in *. lia.
Qed.
End Conversion.

Lemma find_absent (c : char) (s : str) : c ∉ s → Py.find [c] s = None.
Proof.
  induction s as [|x s IH]; [done|]. intros H.
  apply not_elem_of_cons in H as [Hx Hs]. cbn [Py.find Py.startswith].
  rewrite andb_true_r, (IH Hs). by destruct (N.eqb_spec c x).
Qed.

Lemma find_first (c : char) (a r : str) :
  c ∉ a → Py.find [c] (a ++ c :: r) = Some (length a).
Proof.
  induction a as [|x a IH]; intros H; cbn [app Py.find Py.startswith length].
  - by rewrite N.eqb_refl.
  - apply not_elem_of_cons in H as [Hx Ha]. rewrite andb_true_r, (IH Ha).
    by destruct (N.eqb_spec c x).
Qed.

Section Mapper.
Context {U : Unicode} {F : PyFloat}.
Variable preprocess_candidate_word : str → str → str → str.
Variable postprocess_candidate : str → str → str → str → str.

Local Abbreviation mk_cand :=
  (mk_candidate preprocess_candidate_word postprocess_candidate).

(** *** The text that the mapper looks at *)

Lemma latin_check_nonempty (word : str) :
  (if (length word =? 0)%nat then Some false else has_latin_letter word)
  = has_latin_letter word.
Proof. by destruct word. Qed.

Lemma no_latin_letter_cons (c : char) (text : str) :
  no_latin_letter (c :: text)
  ↔ (py_isalpha c = true → py_latin_name c = Some false) ∧ no_latin_letter text.
Proof.
  unfold no_latin_letter. split.
  - intros H. split; [apply H; by left|]. intros x Hx. apply H. by right.
  - intros [Hc H] x [->|Hx]%elem_of_cons; [done|by apply H].
Qed.

Lemma no_latin_letter_nil : no_latin_letter [].
Proof. by intros c ?%elem_of_nil. Qed.

Lemma unnamed_letter_first_cons (c : char) (text : str) :
  unnamed_letter_first (c :: text)
  ↔ (py_isalpha c = true ∧ py_latin_name c = None)
    ∨ ((py_isalpha c = true → py_latin_name c = Some false)
       ∧ unnamed_letter_first text).
Proof.
  split.
  - intros (pre & x & post & E & Hpre & Hx & Hn).
    destruct pre as [|y pre]; cbn [app] in E; injection E as -> ->.
    + by left.
    + right. apply no_latin_letter_cons in Hpre as [Hy Hpre].
      split; [done|]. by exists pre, x, post.
  - intros [[Hc Hn]|[Hc (pre & x & post & -> & Hpre & Hx & Hn)]].
    + exists [], c, text. split; [done|]. split; [apply no_latin_letter_nil|done].
    + exists (c :: pre), x, post. split; [done|].
      split; [by apply no_latin_letter_cons|done].
Qed.

(** The three outcomes of [has_latin_letter]. *)
Lemma has_latin_letter_None (text : str) :
  has_latin_letter text = None ↔ unnamed_letter_first text.
Proof.
  induction text as [|c text IH].
  - split; [done|]. by intros ([|??] & ? & ? & ? & _).
  - rewrite unnamed_letter_first_cons. cbn [has_latin_letter].
    destruct (py_isalpha c); [destruct (py_latin_name c) as [[]|]|].
    + split; [done|]. intros [[_ ?]|[H _]]; [done|]. by specialize (H eq_refl).
    + rewrite IH. split; [by right|]. by intros [[_ ?]|[_ ?]].
    + split; [by left|done].
    + rewrite IH. split; [by right|]. by intros [[? _]|[_ ?]].
Qed.






(** *** The outcomes of [mk_candidate] *)

(** [mk_candidate] returns unless [has_latin_letter] raises. *)
Lemma mk_candidate_None (vb : VocBuilder) (word langcode conv_dict_name cls : str)
    (true_original : option str) :
  mk_cand vb word langcode conv_dict_name cls true_original = None
  ↔ candi_cache vb !! (langcode ++ ustr ":" ++ word) = None
    ∧ has_latin_letter (strip_comment word) = None.
Proof.
  unfold mk_candidate. cbv zeta. rewrite latin_check_nonempty.
  destruct (candi_cache vb !! _); [by split; [|intros []]|].
  destruct (has_latin_letter (strip_comment word)) as [has_latin|];
    [|done]. cbn [mbind option_bind].
  split; [|by intros []]. destruct (negb has_latin); [done|].
  destruct (convdicts vb !! conv_dict_name) as [convdict|]; [|done].
  destruct (convert_loop_terminates convdict (maxkeylength convdict) langcode
              (preprocess_candidate_word (strip_comment word) conv_dict_name cls)
              (length (preprocess_candidate_word (strip_comment word) conv_dict_name cls))
              (mkConvState [] 0 (preprocess_candidate_word (strip_comment word)
                                   conv_dict_name cls) []))
    as (st' & -> & _); done.
Qed.




End Mapper.




Example mk_candidate_comment_example :
  fst <$> mk_candidate (U:=basic_unicode) (F:=exact_floats)
            (λ w _ _, w) (λ w _ _ _, w) empty_builder
            (ustr "Kasa (house)") (ustr "es") (ustr "es") (ustr "noun") None
  = Some (Some 0)
  ∧ strip_comment (ustr "Kasa (house)") = ustr "Kasa".
Proof. by vm_compute. Qed.


(** C9.  Mapper progress and termination.  Each iteration of the
    conversion loop, entered with a non-empty remaining input, consumes at
    least one of its characters: either the longest prefix, among the
    probed lengths, that is a key of the table, whose output is appended
    and whose penalty flag is added; or, when no probed prefix is a key,
    the single leading character, which is copied verbatim with a warning.
    Hence the loop empties the input within as many iterations as it has
    characters. *)
Theorem mk_candidate_conversion_terminates `{U : Unicode} `{F : PyFloat} :
  (∀ convdict maxkeylen langcode word c0 r st,
     rest_word st = c0 :: r →
     let st' := convert_step convdict maxkeylen langcode word c0 st in
     let start := Z.to_nat (Z.min maxkeylen (Z.of_nat (length (rest_word st)))) in
     ∃ consumed,
       1 ≤ length consumed
       ∧ rest_word st = consumed ++ rest_word st'
       ∧ ((∃ idx conv,
             consumed = take idx (rest_word st) ∧ 1 ≤ idx ≤ start
             ∧ convdict !! consumed = Some conv
             ∧ (∀ j, idx < j ≤ start → convdict !! take j (rest_word st) = None)
             ∧ out_word st' = out_word st ++ output conv
             ∧ conv_pen st' = (conv_pen st + (if conv_penalty conv then 1 else 0))%Z
             ∧ warnings st' = warnings st)
          ∨ ((∀ j, 1 ≤ j ≤ start → convdict !! take j (rest_word st) = None)
             ∧ consumed = [c0]
             ∧ out_word st' = out_word st ++ [c0]
             ∧ conv_pen st' = conv_pen st
             ∧ warnings st' =
               warnings st ++ [WarnUnexpectedCharacter c0 langcode word])))
  ∧ (∀ convdict maxkeylen langcode word st,
       ∃ st', convert_loop (length (rest_word st)) convdict maxkeylen
                langcode word st = Some st'
              ∧ rest_word st' = []).
Proof.
  split.
  - intros. by eapply convert_step_progress.
  - intros. by apply convert_loop_terminates.
Qed.

(** One iteration on the input 'ab' with a table that only knows 'a'. *)
Lemma mk_candidate_conversion_terminates_witness :
  let convdict : gmap str Conversion :=
    {[ ustr "a" := mkConversion (ustr "a") false ]} in
  let st := mkConvState (F:=exact_floats) [] 0 (ustr "ab") [] in
  let st' := convert_step convdict 1 (ustr "en") (ustr "ab") (uchr "a") st in
  let start := Z.to_nat (Z.min 1 (Z.of_nat (length (rest_word st)))) in
  ∃ consumed,
    1 ≤ length consumed
    ∧ rest_word st = consumed ++ rest_word st'
    ∧ ((∃ idx conv,
          consumed = take idx (rest_word st) ∧ 1 ≤ idx ≤ start
          ∧ convdict !! consumed = Some conv
          ∧ (∀ j, idx < j ≤ start → convdict !! take j (rest_word st) = None)
          ∧ out_word st' = out_word st ++ output conv
          ∧ conv_pen st' = (conv_pen st + (if conv_penalty conv then 1 else 0))%Z
          ∧ warnings st' = warnings st)
       ∨ ((∀ j, 1 ≤ j ≤ start → convdict !! take j (rest_word st) = None)
          ∧ consumed = [uchr "a"]
          ∧ out_word st' = out_word st ++ [uchr "a"]
          ∧ conv_pen st' = conv_pen st
          ∧ warnings st' =
            warnings st ++ [WarnUnexpectedCharacter (uchr "a") (ustr "en") (ustr "ab")])).
Proof.
  intros convdict st.
  apply (proj1 (mk_candidate_conversion_terminates
                  (U:=basic_unicode) (F:=exact_floats))
           convdict 1%Z (ustr "en") (ustr "ab") (uchr "a") (ustr "b") st).
  reflexivity.
Defined.

(** ** [insert_filler_vowels]: the repair always returns *)

Lemma split_go_nonempty (s cur : str) (w : str) :
  w ∈ Py.split_go s cur → w ≠ [].
Proof.
  revert cur. induction s as [|c s IH]; intros cur; cbn [Py.split_go].
  - destruct cur as [|x cur]; [by intros ?%elem_of_nil|].
    intros ->%list_elem_of_singleton. cbn [rev]. by destruct (rev cur).
  - destruct (Py.isspace c).
    + destruct cur as [|x cur]; [apply IH|].
      intros [->|H]%elem_of_cons; [|by eapply IH].
      cbn [rev]. by destruct (rev cur).
    + apply IH.
Qed.

Lemma split_nonempty (s w : str) : w ∈ Py.split s → w ≠ [].
Proof. apply split_go_nonempty. Qed.

Lemma replace_nonempty (old new s : str) :
  new ≠ [] → s ≠ [] → Py.replace old new s ≠ [].
Proof.
  intros Hnew Hs. destruct s as [|c s]; [done|].
  unfold Py.replace. cbn [Py.replace_go].
  destruct (Py.startswith old (c :: s)); [|done].
  by destruct new.
Qed.

Lemma drop_last_nonempty (p s : str) :
  2 ≤ length p → Py.endswith p s = true → Py.drop_last 1 s ≠ [].
Proof.
  intros Hp Hs. apply endswith_suffix in Hs. apply suffix_length in Hs.
  unfold Py.drop_last. intros E. apply (f_equal length) in E.
  rewrite length_take in E. cbn [length] in E. lia.
Qed.

Section Repair.
Context {U : Unicode} {F : PyFloat}.

(** A substitution whose replacements are not empty keeps a non-empty
    string non-empty. *)
Lemma subn_nonempty (r : regex) (repl : groups → str) (s : str) :
  (∀ bef aft g n, match_at r bef aft = Some (g, n) → repl g ≠ []) →
  s ≠ [] → (Re.subn r repl s).1 ≠ [].
Proof.
  intros Hrepl Hs. destruct s as [|c s]; [done|].
  unfold Re.subn. cbn [subn_go].
  destruct (match_at r [] (c :: s)) as [[g [|n]]|] eqn:E.
  - destruct (subn_go r repl [c] s 0). cbn [fst]. by destruct (repl g).
  - destruct (subn_go r repl [c] s n). cbn [fst].
    specialize (Hrepl _ _ _ _ E). by destruct (repl g).
  - by destruct (subn_go r repl [c] s 0).
Qed.

Lemma sub_nonempty (r : regex) (repl : groups → str) (s : str) :
  (∀ g, repl g ≠ []) → s ≠ [] → Re.sub r repl s ≠ [].
Proof. intros H. apply subn_nonempty. intros ? ? g ? _. apply H. Qed.

Lemma take_one_more (c : char) (aft : str) :
  take (length (c :: aft) - length aft) (c :: aft) = [c].
Proof.
  replace (length (c :: aft) - length aft) with 1 by (cbn [length]; lia).
  done.
Qed.

Lemma double_cons_group (bef aft : str) (g : groups) (n : nat) :
  match_at DOUBLE_CONS_RE bef aft = Some (g, n) → group g 1 ≠ [].
Proof.
  unfold match_at, DOUBLE_CONS_RE, cls.
  cbn [rmatch before after caps].
  destruct aft as [|c aft]; [done|].
  destruct (cset_match _ c); [|done].
  cbn [before after caps group Nat.eqb]. rewrite take_one_more.
  destruct (Py.startswith [c] aft); [|done].
  intros [= <- _]. done.
Qed.

Lemma keeps_on_word (f : str → str) :
  (∀ w, w ≠ [] → f w ≠ []) → keeps_nonempty (on_word f).
Proof. intros H [w p] Hw. by apply H. Qed.

Lemma keeps_counting (f : str → str * nat) :
  (∀ w, w ≠ [] → (f w).1 ≠ []) → keeps_nonempty (counting f).
Proof.
  intros H [w p] Hw. unfold counting. cbn [fst snd].
  specialize (H w Hw). by destruct (f w).
Qed.

Lemma keeps_when (b : bool) (s : statement) :
  keeps_nonempty s → keeps_nonempty (when b s).
Proof. intros H. destruct b; [done|]. by intros st Hst. Qed.

Lemma run_keeps_nonempty (block : list statement) :
  Forall keeps_nonempty block → keeps_nonempty (run block).
Proof.
  unfold run. induction 1 as [|s block Hs _ IH]; intros st Hst; [done|].
  cbn [foldl]. apply IH. by apply Hs.
Qed.

(** A replacement with a constant, non-empty part is not empty. *)
Ltac nonempty_text :=
  let E := fresh "E" in
  intros E; cbv beta in E;
  repeat match type of E with
         | context [if ?b then _ else _] => destruct b
         end;
  repeat match goal with
         | H : _ ++ _ = [] |- _ => apply app_eq_nil in H as [? ?]
         end;
  match goal with
  | H : _ = [] |- _ => vm_compute in H; discriminate H
  end.

Ltac nonempty_repl := intros ?; nonempty_text.

Ltac keeps_nonempty_step :=
  first
    [ apply keeps_when
    | apply keeps_on_word; intros w Hw;
      first
        [ apply sub_nonempty; [nonempty_repl | exact Hw]
        | apply subn_nonempty; [apply double_cons_group | exact Hw]
        | apply replace_nonempty; [by vm_compute | exact Hw]
        | destruct (Py.endswith _ w) eqn:?;
          [eapply drop_last_nonempty; [|eassumption]; by vm_compute | exact Hw] ]
    | apply keeps_counting; intros w Hw;
      first
        [ apply subn_nonempty; [intros ? ? ? ? _; nonempty_text | exact Hw]
        | cbv zeta; cbn [fst]; destruct (_ =? _)%nat;
          [exact Hw | apply replace_nonempty; [by vm_compute | exact Hw]] ] ].

Lemma repair_block_1_nonempty (lang : str) :
  Forall keeps_nonempty (repair_block_1 lang).
Proof.
  unfold repair_block_1.
  repeat first [apply List.Forall_nil | apply List.Forall_cons];
    repeat keeps_nonempty_step.
Qed.

(** *** The repeated substitution terminates *)

Lemma match_at_illegal_pair (bef aft : str) :
  match_at ILLEGAL_CONS_PAIR_RE bef aft =
  match aft with
  | x :: y :: _ =>
      if Py.char_in x NOT_SYLLABLE_FINAL_NON_SEMIVOWEL
         && Py.char_in y NOT_SECOND_CONSONANTS
      then Some ([(0, [x; y]); (2, [y]); (1, [x])], 2)
      else None
  | _ => None
  end.
Proof.
  unfold match_at, ILLEGAL_CONS_PAIR_RE, cls.
  cbn [rmatch before after caps cset_match].
  destruct aft as [|x [|y aft]]; [done| |].
  - by destruct (Py.char_in x _).
  - destruct (Py.char_in x _); [|done].
    cbn [before after caps andb]. destruct (Py.char_in y _); [|done].
    cbn [before after caps]. rewrite !take_one_more.
    by replace (length (x :: y :: aft) - length aft) with 2
      by (cbn [length]; lia).
Qed.

Lemma subn_go_cons (r : regex) (repl : groups → str) (bef s : str) (c : char) :
  subn_go r repl bef (c :: s) 0 =
  match match_at r bef (c :: s) with
  | Some (g, O) =>
      let '(out, cnt) := subn_go r repl (c :: bef) s 0 in
      (repl g ++ c :: out, S cnt)
  | Some (g, S n) =>
      let '(out, cnt) := subn_go r repl (c :: bef) s n in
      (repl g ++ out, S cnt)
  | None =>
      let '(out, cnt) := subn_go r repl (c :: bef) s 0 in
      (c :: out, cnt)
  end.
Proof. done. Qed.

Lemma subn_go_skip (r : regex) (repl : groups → str) (bef s : str) (c : char)
    (n : nat) :
  subn_go r repl bef (c :: s) (S n) = subn_go r repl (c :: bef) s n.
Proof. done. Qed.

Lemma fill_pairs_cons (x y : char) (s : str) :
  fill_pairs (x :: y :: s) =
  if Py.char_in x NOT_SYLLABLE_FINAL_NON_SEMIVOWEL
     && Py.char_in y NOT_SECOND_CONSONANTS
  then let '(out, n) := fill_pairs s in (x :: schwa :: y :: out, S n)
  else let '(out, n) := fill_pairs (y :: s) in (x :: out, n).
Proof. done. Qed.

Lemma subn_go_illegal_pair (s : str) :
  let fill := λ g, group g 1 ++ [schwa] ++ group g 2 in
  (∀ bef, subn_go ILLEGAL_CONS_PAIR_RE fill bef s 0 = fill_pairs s)
  ∧ (∀ bef c, subn_go ILLEGAL_CONS_PAIR_RE fill bef (c :: s) 0
              = fill_pairs (c :: s)).
Proof.
  intros fill. induction s as [|y s [IH1 IH2]].
  - split; intros; cbn [subn_go]; rewrite !match_at_illegal_pair; done.
  - split; [intros; apply IH2|]. intros bef x.
    rewrite subn_go_cons, match_at_illegal_pair, fill_pairs_cons.
    destruct (Py.char_in x _ && Py.char_in y _).
    + rewrite subn_go_skip, IH1. by destruct (fill_pairs s).
    + rewrite IH2. by destruct (fill_pairs (y :: s)).
Qed.

Lemma subn_illegal_pair (s : str) :
  Re.subn ILLEGAL_CONS_PAIR_RE (λ g, group g 1 ++ [schwa] ++ group g 2) s
  = fill_pairs s.
Proof. apply subn_go_illegal_pair. Qed.

Lemma schwa_not_syllable_final :
  Py.char_in schwa NOT_SYLLABLE_FINAL_NON_SEMIVOWEL = false.
Proof. by vm_compute. Qed.

Lemma schwa_not_second : Py.char_in schwa NOT_SECOND_CONSONANTS = false.
Proof. by vm_compute. Qed.

Lemma fill_pairs_head (s : str) : head (fill_pairs s).1 = head s.
Proof.
  destruct s as [|x [|y s]]; [done..|]. rewrite fill_pairs_cons.
  destruct (_ && _).
  - by destruct (fill_pairs s).
  - by destruct (fill_pairs (y :: s)).
Qed.

Lemma illegal_pairs_cons (x : char) (t t' : str) :
  head t = head t' →
  illegal_pairs (x :: t) + illegal_pairs t' = illegal_pairs (x :: t') + illegal_pairs t.
Proof.
  destruct t as [|y t], t' as [|y' t']; try done.
  intros [= <-]. cbn [illegal_pairs]. lia.
Qed.

Lemma fill_pairs_measure (s : str) :
  (illegal_pairs (fill_pairs s).1 + (fill_pairs s).2 = illegal_pairs s)
  ∧ ∀ x, illegal_pairs (fill_pairs (x :: s)).1 + (fill_pairs (x :: s)).2
         = illegal_pairs (x :: s).
Proof.
  induction s as [|y s [IH1 IH2]]; [done|].
  split; [apply IH2|]. intros x.
  rewrite fill_pairs_cons.
  destruct (Py.char_in x _ && Py.char_in y _) eqn:E.
  - pose proof (fill_pairs_head s) as Hh.
    destruct (fill_pairs s) as [out n]. cbn [fst snd] in *.
    pose proof (illegal_pairs_cons y out s Hh) as Hy.
    change (illegal_pairs (x :: y :: s)) with
      ((if Py.char_in x NOT_SYLLABLE_FINAL_NON_SEMIVOWEL
           && Py.char_in y NOT_SECOND_CONSONANTS then 1 else 0)
       + illegal_pairs (y :: s)).
    change (illegal_pairs (x :: schwa :: y :: out)) with
      ((if Py.char_in x NOT_SYLLABLE_FINAL_NON_SEMIVOWEL
           && Py.char_in schwa NOT_SECOND_CONSONANTS then 1 else 0)
       + ((if Py.char_in schwa NOT_SYLLABLE_FINAL_NON_SEMIVOWEL
              && Py.char_in y NOT_SECOND_CONSONANTS then 1 else 0)
          + illegal_pairs (y :: out))).
    rewrite E, schwa_not_second, schwa_not_syllable_final, andb_false_r.
    cbn [andb]. lia.
  - pose proof (fill_pairs_head (y :: s)) as Hh. specialize (IH2 y).
    destruct (fill_pairs (y :: s)) as [out n]. cbn [fst snd] in *.
    destruct out as [|y' out]; [done|]. injection Hh as ->.
    change (illegal_pairs (x :: y :: s)) with
      ((if Py.char_in x NOT_SYLLABLE_FINAL_NON_SEMIVOWEL
           && Py.char_in y NOT_SECOND_CONSONANTS then 1 else 0)
       + illegal_pairs (y :: s)).
    change (illegal_pairs (x :: y :: out)) with
      ((if Py.char_in x NOT_SYLLABLE_FINAL_NON_SEMIVOWEL
           && Py.char_in y NOT_SECOND_CONSONANTS then 1 else 0)
       + illegal_pairs (y :: out)).
    lia.
Qed.

Lemma illegal_pairs_bound (s : str) : illegal_pairs s ≤ length s.
Proof.
  assert (illegal_pairs s ≤ length s ∧ ∀ x, illegal_pairs (x :: s) ≤ length s)
    as [H _]; [|done].
  induction s as [|y s [IH1 IH2]]; [by split|].
  split; [etrans; [apply IH2|]; cbn [length]; lia|]. intros x.
  change (illegal_pairs (x :: y :: s)) with
    ((if Py.char_in x NOT_SYLLABLE_FINAL_NON_SEMIVOWEL
         && Py.char_in y NOT_SECOND_CONSONANTS then 1 else 0)
     + illegal_pairs (y :: s)).
  specialize (IH2 y). cbn [length]. destruct (_ && _); lia.
Qed.

Lemma insert_between_illegal_pairs_terminates (fuel : nat) (word : str) :
  illegal_pairs word < fuel →
  ∃ word', insert_between_illegal_pairs fuel word = Some word'.
Proof.
  revert word. induction fuel as [|fuel IH]; intros word Hfuel; [lia|].
  cbn [insert_between_illegal_pairs]. rewrite subn_illegal_pair.
  destruct (fill_pairs_measure word) as [Hm _].
  destruct (fill_pairs word) as [out n]. cbn [fst snd] in Hm.
  destruct (Nat.eqb_spec n 0); [by eauto|].
  apply IH. lia.
Qed.

(** *** The repair returns *)

Lemma repair_word_total (lang original word : str) (penalty : Z) :
  word ≠ [] → ∃ r, repair_word lang original word penalty = Some r.
Proof.
  intros Hw. unfold repair_word.
  pose proof (run_keeps_nonempty _ (repair_block_1_nonempty lang)
                (word, penalty) Hw) as H1.
  destruct (run (repair_block_1 lang) (word, penalty)) as [w1 p1].
  cbn [fst] in H1.
  assert (∃ w2, repair_word_fr lang original w1 = Some w2) as [w2 ->].
  { unfold repair_word_fr. destruct (decide _); [|by eauto].
    unfold Py.last_char. destruct (last w1) eqn:E.
    - destruct (_ && _); by eauto.
    - apply last_None in E. done. }
  cbn [mbind option_bind].
  destruct (run (repair_block_2 lang) (w2, p1)) as [w3 p3].
  destruct (insert_between_illegal_pairs_terminates (S (length w3)) w3) as [w4 ->].
  { pose proof (illegal_pairs_bound w3). lia. }
  cbn [mbind option_bind]. by eauto.
Qed.

Lemma repair_words_total (lang original : str) (words : list str) (penalty : Z) :
  Forall (λ w, w ≠ []) words →
  ∃ r, repair_words lang original words penalty = Some r.
Proof.
  revert penalty. induction words as [|w words IH]; intros penalty Hws.
  - by eexists.
  - apply Forall_cons in Hws as [Hw Hws]. cbn [repair_words].
    destruct (repair_word_total lang original w penalty Hw) as [[w' p'] ->].
    cbn [mbind option_bind].
    destruct (IH p' Hws) as [[ws' p''] ->]. cbn [mbind option_bind]. by eauto.
Qed.

Lemma insert_filler_vowels_total (c : Candidate) :
  ∃ c', insert_filler_vowels c = Some c' ∧ filled c' = true.
Proof.
  unfold insert_filler_vowels. destruct (filled c) eqn:E; [by eauto|].
  destruct (repair_words_total (lang c) (original c)
              (Py.split (Re.sub PUNCTUATION_RE (λ _, ustr " ") (word c)))
              (penalty c)) as [[ws p] ->].
  { apply Forall_forall. intros w. apply split_nonempty. }
  cbn [mbind option_bind]. by eauto.
Qed.

End Repair.

(** C2.  Repair idempotence.  For every candidate the repair returns, and
    a second call on the repaired candidate returns it unchanged: its word
    and its penalty are what they were after the first call. *)
Theorem insert_filler_vowels_idempotent `{U : Unicode} `{F : PyFloat} (c : Candidate) :
  ∃ c1,
    insert_filler_vowels c = Some c1
    ∧ ∃ c2,
        insert_filler_vowels c1 = Some c2
        ∧ word c2 = word c1 ∧ penalty c2 = penalty c1 ∧ c2 = c1.
Proof.
  destruct (insert_filler_vowels_total c) as (c1 & H1 & Hf).
  exists c1. split; [done|]. exists c1.
  unfold insert_filler_vowels. by rewrite Hf.
Qed.


(** ** [build_candidates_for_lang]: the validator as a gate *)

Section Gate.
Context {U : Unicode} {F : PyFloat}.
Variable preprocess_candidate_word : str → str → str → str.
Variable postprocess_candidate : str → str → str → str → str.

Lemma re_split_go_nonnil (r : regex) (bef s : str) (skip : nat) (cur : str) :
  Re.split_go r bef s skip cur ≠ [].
Proof.
  revert bef skip cur. induction s as [|c s IH]; intros bef skip cur;
    cbn [Re.split_go].
  - by destruct skip, (match_at r bef []).
  - destruct skip; [|apply IH].
    by destruct (match_at r bef (c :: s)) as [[g [|n]]|]; [..|apply IH].
Qed.

Lemma add_to_last_nonnil (x : str) (l : list str) : l ≠ [] → add_to_last x l ≠ [].
Proof.
  intros Hl. unfold add_to_last. destruct (rev l) as [|y r] eqn:E.
  - apply (f_equal (@rev _)) in E. rewrite rev_involutive in E. done.
  - cbn [rev]. by destruct (rev r).
Qed.

Lemma remerge_nonnil (sep : str) (result : list str) (wait : bool)
    (merged : list str) :
  result ≠ [] ∨ merged ≠ [] → (wait = true → merged ≠ []) →
  remerge sep result wait merged ≠ [].
Proof.
  revert wait merged. induction result as [|elem result IH];
    intros wait merged Hne Hwait; cbn [remerge].
  - by destruct Hne.
  - destruct wait.
    + apply IH.
      * right. apply add_to_last_nonnil. by apply Hwait.
      * intros _. apply add_to_last_nonnil. by apply Hwait.
    + apply IH.
      * right. by destruct merged.
      * intros _. by destruct merged.
Qed.

Lemma split_on_sep_nonnil (text sep : str) :
  text ≠ [] → split_on_sep text sep ≠ [].
Proof.
  intros Ht. unfold split_on_sep. destruct text as [|c text]; [done|].
  cbv zeta. destruct (Re.search _ _).
  - apply remerge_nonnil; [left; apply re_split_go_nonnil | done].
  - apply re_split_go_nonnil.
Qed.

(** Where the characters of the raw words come from: the pieces of a
    split are made of characters of the text, and the pieces merged
    again of these and of the separator. *)
Lemma re_split_go_sub (r : regex) (s bef : str) (skip : nat) (cur p : str)
    (c : char) :
  p ∈ Re.split_go r bef s skip cur → c ∈ p → c ∈ cur ∨ c ∈ s.
Proof.
  revert bef skip cur. induction s as [|c0 s IH]; intros bef skip cur;
    cbn [Re.split_go].
  - intros Hp Hc. left. apply elem_of_rev.
    assert (p = rev cur ∨ p = []) as [->| ->]; [|done|by apply elem_of_nil in Hc].
    destruct skip, (match_at r bef []);
      repeat (apply elem_of_cons in Hp as [Hp|Hp]; [by auto|]);
      by apply elem_of_nil in Hp.
  - assert (∀ bef' n cur', p ∈ Re.split_go r bef' s n cur' → c ∈ p →
                           (∀ x, x ∈ cur' → x ∈ cur ∨ x = c0) →
                           c ∈ cur ∨ c ∈ c0 :: s) as Hgo.
    { intros bef' n cur' Hp Hc Hcur.
      destruct (IH bef' n cur' Hp Hc) as [Hin|Hin].
      - destruct (Hcur c Hin) as [?| ->]; [by left|right; by left].
      - right. by right. }
    assert (p = rev cur → c ∈ p → c ∈ cur ∨ c ∈ c0 :: s) as Hcur.
    { intros -> Hc. left. by apply elem_of_rev. }
    destruct skip as [|n].
    2:{ intros Hp Hc. apply (Hgo _ _ _ Hp Hc). intros x ?. by left. }
    destruct (match_at r bef (c0 :: s)) as [[g [|n]]|].
    + intros [->|Hp]%elem_of_cons Hc; [by apply Hcur|].
      destruct (match_at_nonempty r bef (c0 :: s)) as [[g' [|n]]|].
      * apply (Hgo _ _ _ Hp Hc). intros x ->%list_elem_of_singleton. by right.
      * apply elem_of_cons in Hp as [->|Hp]; [by apply elem_of_nil in Hc|].
        apply (Hgo _ _ _ Hp Hc). by intros x ?%elem_of_nil.
      * apply (Hgo _ _ _ Hp Hc). intros x ->%list_elem_of_singleton. by right.
    + intros [->|Hp]%elem_of_cons Hc; [by apply Hcur|].
      apply (Hgo _ _ _ Hp Hc). by intros x ?%elem_of_nil.
    + intros Hp Hc. apply (Hgo _ _ _ Hp Hc).
      intros x [->|?]%elem_of_cons; [by right|by left].
Qed.

Lemma add_to_last_sub (s : str) (l : list str) (p : str) (c : char) :
  p ∈ add_to_last s l → c ∈ p → c ∈ s ∨ ∃ q, q ∈ l ∧ c ∈ q.
Proof.
  unfold add_to_last. destruct (rev l) as [|x r] eqn:E;
    [by intros ?%elem_of_nil|].
  assert (∀ q, q ∈ x :: r → q ∈ l) as Hl.
  { intros q Hq. rewrite <-E, elem_of_rev in Hq. exact Hq. }
  rewrite elem_of_rev. intros [->|Hp]%elem_of_cons Hc.
  - apply elem_of_app in Hc as [Hc|Hc]; [|by left].
    right. exists x. split; [|done]. apply Hl. by left.
  - right. exists p. split; [|done]. apply Hl. by right.
Qed.

Lemma remerge_sub (sep : str) (result : list str) (wait : bool)
    (merged : list str) (p : str) (c : char) :
  p ∈ remerge sep result wait merged → c ∈ p →
  c ∈ sep ∨ (∃ q, q ∈ result ∧ c ∈ q) ∨ (∃ q, q ∈ merged ∧ c ∈ q).
Proof.
  revert wait merged. induction result as [|elem result IH];
    intros wait merged; cbn [remerge].
  - intros Hp Hc. right. right. by exists p.
  - intros Hp Hc.
    assert (∀ merged' : list str,
              (c ∈ sep ∨ (∃ q, q ∈ result ∧ c ∈ q)
               ∨ (∃ q, q ∈ merged' ∧ c ∈ q)) →
              (∀ q, q ∈ merged' → c ∈ q →
                    c ∈ sep ∨ c ∈ elem ∨ ∃ q', q' ∈ merged ∧ c ∈ q') →
              c ∈ sep ∨ (∃ q, q ∈ elem :: result ∧ c ∈ q)
              ∨ (∃ q, q ∈ merged ∧ c ∈ q)) as Hgo.
    { intros merged' [?|[(q & ? & ?)|(q & Hq & Hcq)]] Hm; [by left| |].
      - right. left. exists q. split; [by right|done].
      - destruct (Hm q Hq Hcq) as [?|[?|?]]; [by left| |by right; right].
        right. left. exists elem. split; [by left|done]. }
    destruct wait.
    + apply (Hgo _ (IH _ _ Hp Hc)). intros q Hq Hcq.
      destruct (add_to_last_sub _ _ _ _ Hq Hcq) as [Hin|?]; [|by right; right].
      apply elem_of_app in Hin as [?|?]; [by left|by right; left].
    + apply (Hgo _ (IH _ _ Hp Hc)).
      intros q [Hq| ->%list_elem_of_singleton]%elem_of_app Hcq.
      * right. right. by exists q.
      * right. by left.
Qed.

Lemma split_on_sep_sub (text sep p : str) (c : char) :
  p ∈ split_on_sep text sep → c ∈ p → c ∈ text ∨ c ∈ sep.
Proof.
  unfold split_on_sep. destruct text as [|c0 text]; [by intros ?%elem_of_nil|].
  cbv zeta. set (t := c0 :: text).
  assert (∀ q, q ∈ Re.split (seqs [Many CSpace 0; Lit (Py.strip sep);
                                   Many CSpace 0]) (Py.strip t) →
               c ∈ q → c ∈ t) as Hsplit.
  { intros q Hq Hc. destruct (re_split_go_sub _ _ _ _ _ _ _ Hq Hc) as [Hin|Hin].
    - by apply elem_of_nil in Hin.
    - by apply strip_sub. }
  destruct (Re.search _ _).
  - intros Hp Hc.
    destruct (remerge_sub _ _ _ _ _ _ Hp Hc)
      as [?|[(q & Hq & Hcq)|(q & Hq & _)]]; [by right| |by apply elem_of_nil in Hq].
    left. by apply (Hsplit q).
  - intros Hp Hc. left. by apply (Hsplit p).
Qed.

Lemma extract_text_in_brackets_sub (text inner : str) (otherwise : bool)
    (c : char) :
  extract_text_in_brackets text otherwise = Some inner → c ∈ inner → c ∈ text.
Proof.
  unfold extract_text_in_brackets. cbv zeta.
  assert ((if otherwise then Some text else None) = Some inner →
          c ∈ inner → c ∈ text) as Hor.
  { destruct otherwise; [|done]. by intros [= ->]. }
  destruct (Py.find (ustr "[") text) as [start|]; [|done].
  destruct (Py.find (ustr "]") text) as [end_|]; [|done].
  destruct (start <? end_); [|done]. intros [= <-] Hc.
  apply subseteq_take in Hc. by apply subseteq_drop in Hc.
Qed.

Lemma strip_comment_sub (word : str) (c : char) :
  c ∈ strip_comment word → c ∈ word.
Proof.
  unfold strip_comment. destruct (Py.endswith _ _); [|done].
  destruct (Py.find _ _); [|done]. intros Hc%strip_sub.
  by apply subseteq_take in Hc.
Qed.

(** A call of the mapper that does not return has met a letter without a
    name in its word. *)
Lemma mk_candidate_raises (vb : VocBuilder)
    (word langcode conv_dict_name cls : str) (true_original : option str) :
  mk_candidate preprocess_candidate_word postprocess_candidate
    vb word langcode conv_dict_name cls true_original = None →
  ∃ c, c ∈ word ∧ py_isalpha c = true ∧ py_latin_name c = None.
Proof.
  intros [_ Hlat]%mk_candidate_None.
  apply has_latin_letter_None in Hlat as (pre & c & post & E & _ & ? & ?).
  exists c. split; [|done]. apply strip_comment_sub. rewrite E.
  apply elem_of_app. right. by left.
Qed.

(** The mapper only adds to the heap. *)
Lemma mk_candidate_heap (vb vb' : VocBuilder)
    (word langcode conv_dict_name cls : str) (true_original : option str)
    (result : option nat) :
  mk_candidate preprocess_candidate_word postprocess_candidate
    vb word langcode conv_dict_name cls true_original = Some (result, vb') →
  cache_refs_valid vb →
  cache_refs_valid vb'
  ∧ args vb' = args vb
  ∧ (∃ new, heap vb' = heap vb ++ new)
  ∧ (∀ ref, result = Some ref → ref < length (heap vb'))
  ∧ (∀ ref, length (heap vb) ≤ ref < length (heap vb') → result = Some ref)
  ∧ (∃ msgs, LOG vb' = LOG vb ++ msgs).
Proof.
  intros Hmk Hvalid. revert Hmk. unfold mk_candidate. cbv zeta.
  destruct (candi_cache vb !! _) as [cached|] eqn:Hc.
  { intros [= <- <-]. split; [done|]. split; [done|].
    split; [exists []; by rewrite app_nil_r|].
    split; [intros ref ->; by eapply Hvalid|].
    split; [intros ref ?; lia|]. exists []. by rewrite app_nil_r. }
  destruct (if (length _ =? 0)%nat then _ else _) as [has_latin|]; [|done].
  cbn [mbind option_bind]. destruct (negb has_latin).
  { intros [= <- <-]. split; [|split; [done|]].
    - intros key ref. cbn [candi_cache with_cache heap].
      destruct (decide (langcode ++ ustr ":" ++ word = key)) as [<-|?].
      + by rewrite lookup_insert_eq.
      + rewrite lookup_insert_ne by done. apply Hvalid.
    - split; [exists []; by rewrite app_nil_r|]. split; [done|].
      cbn [with_cache heap LOG].
      split; [intros ref ?; lia|]. exists []. by rewrite app_nil_r. }
  assert (∀ c vb0 result vb',
            heap vb0 = heap vb → candi_cache vb0 = candi_cache vb →
            args vb0 = args vb → (∃ msgs, LOG vb0 = LOG vb ++ msgs) →
            remember (langcode ++ ustr ":" ++ word) c vb0 = (result, vb') →
            cache_refs_valid vb'
            ∧ args vb' = args vb
            ∧ (∃ new, heap vb' = heap vb ++ new)
            ∧ (∀ ref, result = Some ref → ref < length (heap vb'))
            ∧ (∀ ref, length (heap vb) ≤ ref < length (heap vb') →
                      result = Some ref)
            ∧ (∃ msgs, LOG vb' = LOG vb ++ msgs)) as Hrem.
  { intros c vb0 r v Hh0 Hc0 Ha0 Hl0. unfold remember, with_cache, with_heap.
    cbn [heap candi_cache args existing_norm_words convdicts vb_auxlangs LOG].
    rewrite Hh0, Hc0, Ha0. intros H. apply pair_equal_spec in H as [<- <-].
    cbn [heap candi_cache args LOG].
    split; [|split; [done|split; [by eexists|split; [|split; [|done]]]]].
    - intros key ref. cbn [heap candi_cache]. rewrite length_app. cbn [length].
      destruct (decide (langcode ++ ustr ":" ++ word = key)) as [<-|?].
      + rewrite lookup_insert_eq. intros [= <-]. lia.
      + rewrite lookup_insert_ne by done. intros H%Hvalid. lia.
    - intros ref [= <-]. rewrite length_app. cbn [length]. lia.
    - intros ref. rewrite length_app. cbn [length]. intros ?. f_equal. lia. }
  destruct (convdicts vb !! conv_dict_name) as [convdict|].
  - destruct (convert_loop _ _ _ _ _ _) as [st'|]; [|done].
    cbn [mbind option_bind]. intros H%(inj Some).
    eapply (Hrem _ (log (warnings st') vb)); [done..| |exact H].
    by eexists.
  - intros H%(inj Some). eapply (Hrem _ vb); [done..| |exact H].
    exists []. by rewrite app_nil_r.
Qed.

Lemma all_valid_extend (vb vb' : VocBuilder) (cands : list nat) (new : list Candidate) :
  heap vb' = heap vb ++ new → all_valid vb cands → all_valid vb' cands.
Proof.
  intros Hh Hv ref Href. destruct (Hv ref Href) as (c & Hc & ?).
  exists c. split; [|done]. rewrite Hh. by apply lookup_app_l_Some.
Qed.

(** One round of the loop keeps the three invariants, unless the mapper
    meets a letter without a name. *)
Lemma build_candidate_inv (langcode conv_dict_name cls : str)
    (vb0 : VocBuilder) (msgs : list message) (st : build_state)
    (cand_word : str) :
  gate_inv st → distinct_inv st → checked_inv langcode vb0 msgs st →
  match build_candidate preprocess_candidate_word postprocess_candidate
          langcode conv_dict_name cls st cand_word with
  | Some st' =>
      gate_inv st' ∧ distinct_inv st'
      ∧ ∃ msgs', checked_inv langcode vb0 (msgs ++ msgs') st'
  | None => ∃ c, (c ∈ cand_word ∨ c ∈ ustr ", ")
                 ∧ py_isalpha c = true ∧ py_latin_name c = None
  end.
Proof.
  destruct st as [[vb cand_word_set] cands]. intros Hinv Hdist Hchecked.
  assert (gate_inv (vb, cand_word_set, cands)
          ∧ distinct_inv (vb, cand_word_set, cands)
          ∧ ∃ msgs', checked_inv langcode vb0 (msgs ++ msgs')
                       (vb, cand_word_set, cands)) as Hsame.
  { split; [done|]. split; [done|]. exists []. by rewrite app_nil_r. }
  pose proof Hdist as (cs & Hcs & Hnd). pose proof Hinv as (Hc & Hs & Hv).
  pose proof Hchecked as (Hlog & Hlen & Hchk).
  cbn [fst snd] in Hc, Hs, Hv, Hcs, Hlog, Hlen, Hchk. unfold build_candidate.
  destruct (extract_text_in_brackets _ _) as [[|r0 raw]|] eqn:Hraw;
    [done| |done].
  set (raw_cand_word := r0 :: raw) in *.
  assert (∃ w to,
    (if bool_decide (raw_cand_word ≠ cand_word) && Py.str_in (ustr "[") cand_word
     then first ← head (split_on_commas raw_cand_word);
          Some (first, Some (Py.strip (before_bracket cand_word)))
     else Some (raw_cand_word, None)) = Some (w, to)
    ∧ ∀ c, c ∈ w → c ∈ cand_word ∨ c ∈ ustr ", ") as (w & to & -> & Hw).
  { destruct (_ && _).
    - destruct (split_on_commas raw_cand_word) as [|first rest] eqn:E;
        [by apply split_on_sep_nonnil in E|].
      eexists _, _. split; [done|]. intros c Hcw.
      destruct (split_on_sep_sub raw_cand_word (ustr ", ") first c)
        as [Hin|?]; [fold (split_on_commas raw_cand_word); rewrite E; by left
                    |done| |by right].
      left. by eapply extract_text_in_brackets_sub.
    - eexists _, _. split; [done|]. intros c Hcw. left.
      by eapply extract_text_in_brackets_sub. }
  cbn [mbind option_bind].
  destruct (mk_candidate preprocess_candidate_word postprocess_candidate
              vb w langcode conv_dict_name cls to) as [[result vb1]|] eqn:Hmk.
  2:{ apply mk_candidate_raises in Hmk as (c & Hcw & ? & ?).
      exists c. split; [by apply Hw|done]. }
  cbn [mbind option_bind].
  destruct (mk_candidate_heap _ _ _ _ _ _ _ _ Hmk Hc)
    as (Hc1 & Hargs & [new Hheap] & Href & Hnew & [msgs1 Hlog1]).
  pose proof (all_valid_extend _ _ _ _ Hheap Hv) as Hv1.
  assert (schwastrip (args vb1) = false) as Hs1 by (by rewrite Hargs).
  assert (Forall2 (λ ref c, heap vb1 !! ref = Some c ∧ filled c = true
                            ∧ word c ∈ cand_word_set) cands cs) as Hcs1.
  { eapply Forall2_impl; [exact Hcs|]. intros r c (Hl & ? & ?).
    split; [|done]. rewrite Hheap. by apply lookup_app_l_Some. }
  assert (∀ r c, length (heap vb0) ≤ r → heap vb1 !! r = Some c →
                 r < length (heap vb) ∨ result = Some r) as Hwhere.
  { intros r c _ Hr. destruct (decide (r < length (heap vb))); [by left|].
    right. apply Hnew. apply lookup_lt_Some in Hr. lia. }
  assert (∀ r c, r < length (heap vb) → heap vb1 !! r = Some c →
                 heap vb !! r = Some c) as Hold.
  { intros r c Hr. rewrite Hheap. by rewrite lookup_app_l. }
  destruct result as [ref|].
  2:{ split; [by repeat split|]. split; [by exists cs|].
      exists msgs1. split; [|split].
      - cbn [fst]. by rewrite Hlog1, Hlog, app_assoc.
      - cbn [fst]. rewrite Hheap, length_app. lia.
      - cbn [fst snd]. intros r c Hr Hrc.
        destruct (Hwhere r c Hr Hrc) as [Hlt|?]; [|done].
        destruct (Hchk r c Hr (Hold r c Hlt Hrc)) as (Hf & Hm & He).
        split; [done|]. split.
        + intros m Hin. apply elem_of_app. left. by apply Hm.
        + intros e Hval. destruct (He e Hval) as [? ?].
          split; [|done]. apply elem_of_app. by left. }
  specialize (Href ref eq_refl).
  destruct (lookup_lt_is_Some_2 _ _ Href) as [candidate Hcand].
  rewrite Hcand. cbn [mbind option_bind].
  destruct (insert_filler_vowels_total candidate) as (candidate' & Hfill & Hfilled).
  rewrite Hfill. cbn [mbind option_bind].
  destruct (validate candidate') as [val_err warned] eqn:Eval.
  set (failed := match val_err with
                 | Some e => [WarnFailedValidation langcode (word candidate') e]
                 | None => []
                 end).
  set (vb2 := match val_err with
              | Some e => log [WarnFailedValidation langcode (word candidate') e]
                              (log warned vb1)
              | None => log warned vb1
              end).
  assert (heap vb2 = heap vb1 ∧ candi_cache vb2 = candi_cache vb1
          ∧ args vb2 = args vb1
          ∧ LOG vb2 = LOG vb1 ++ warned ++ failed) as (Hh2 & Hc2 & Ha2 & Hl2).
  { subst vb2 failed. destruct val_err; cbn [log heap candi_cache args LOG];
      by rewrite <-?app_assoc, ?app_nil_r. }
  rewrite Ha2, Hs1.
  set (vb3 := with_heap (<[ref:=candidate']> (heap vb2)) vb2).
  assert (cache_refs_valid vb3) as Hc3.
  { intros key r. subst vb3. cbn [with_heap candi_cache heap].
    rewrite length_insert, Hh2, Hc2. apply Hc1. }
  assert (heap vb3 !! ref = Some candidate') as Hnewc.
  { subst vb3. cbn [with_heap heap]. rewrite Hh2.
    by apply list_lookup_insert_eq. }
  assert (∀ r, r ≠ ref → heap vb3 !! r = heap vb1 !! r) as Hother.
  { intros r Hr. subst vb3. cbn [with_heap heap]. rewrite Hh2.
    by apply list_lookup_insert_ne. }
  assert (∀ r c, heap vb1 !! r = Some c → filled c = true →
                 heap vb3 !! r = Some c) as Hkeep.
  { intros r c Hlc Hf. destruct (decide (r = ref)) as [->|Hne].
    - rewrite Hcand in Hlc. injection Hlc as ->.
      unfold insert_filler_vowels in Hfill. rewrite Hf in Hfill.
      by injection Hfill as <-.
    - by rewrite Hother. }
  assert (all_valid vb3 cands) as Hv3.
  { intros r Hr. destruct (Hv1 r Hr) as (c & Hlc & Hf & Hval).
    exists c. split; [by apply Hkeep|done]. }
  assert (Forall2 (λ ref c, heap vb3 !! ref = Some c ∧ filled c = true
                            ∧ word c ∈ cand_word_set) cands cs) as Hcs3.
  { eapply Forall2_impl; [exact Hcs1|]. intros r c (Hl & ? & ?).
    split; [by apply Hkeep|done]. }
  assert (args vb3 = args vb1) as Ha3 by (subst vb3; by rewrite <-Ha2).
  assert (LOG vb3 = LOG vb0 ++ msgs ++ msgs1 ++ warned ++ failed) as Hl3.
  { subst vb3. cbn [with_heap LOG]. by rewrite Hl2, Hlog1, Hlog, <-!app_assoc. }
  assert (val_err ≠ None → ref ∉ cands) as Hout.
  { intros Hval Hin. destruct (Hv1 ref Hin) as (c & Hlc & Hf & Hvalid).
    rewrite Hcand in Hlc. injection Hlc as ->.
    unfold insert_filler_vowels in Hfill. rewrite Hf in Hfill.
    injection Hfill as <-. rewrite Eval in Hvalid. done. }
  assert (∀ cands',
            (val_err ≠ None → cands' = cands) →
            (∀ r, r ∈ cands' → r ∈ cands ∨ r = ref) →
            checked_inv langcode vb0 (msgs ++ msgs1 ++ warned ++ failed)
              (vb3, cand_word_set, cands')
            ∧ ∀ set', checked_inv langcode vb0 (msgs ++ msgs1 ++ warned ++ failed)
                        (vb3, set', cands')) as Hchecked3.
  { intros cands' Hrej Hsub.
    enough (∀ set', checked_inv langcode vb0
                      (msgs ++ msgs1 ++ warned ++ failed) (vb3, set', cands'))
      by done.
    intros set'. split; [done|]. split.
    { cbn [fst]. subst vb3. cbn [with_heap heap].
      rewrite length_insert, Hh2, Hheap, length_app. lia. }
    cbn [fst snd]. intros r c Hr Hrc.
    destruct (decide (r = ref)) as [->|Hne].
    - rewrite Hnewc in Hrc. injection Hrc as <-. split; [done|].
      rewrite Eval. cbn [fst snd]. split.
      + intros m Hm. rewrite !elem_of_app. tauto.
      + intros e ->. split.
        * subst failed. rewrite !elem_of_app. right. right. right. by left.
        * rewrite Hrej by done. by apply Hout.
    - rewrite Hother in Hrc by done.
      destruct (Hwhere r c Hr Hrc) as [Hlt|[= ?]]; [|done].
      destruct (Hchk r c Hr (Hold r c Hlt Hrc)) as (Hf & Hm & He).
      split; [done|]. split.
      + intros m Hin. apply elem_of_app. left. by apply Hm.
      + intros e Hval. destruct (He e Hval) as [? Hnot].
        split; [apply elem_of_app; by left|].
        intros [?|?]%Hsub; done. }
  destruct (negb _) eqn:Hadd.
  - apply negb_true_iff, orb_false_iff in Hadd as [Hval Hseen].
    apply bool_decide_eq_false in Hval, Hseen.
    assert (val_err = None) as Hnone by (by destruct val_err; [destruct Hval|]).
    split; [|split].
    + unfold gate_inv. cbn [fst snd].
      split; [done|]. split; [by rewrite Ha3|].
      intros r [Hr|Hr]%elem_of_app; [by apply Hv3|].
      apply list_elem_of_singleton in Hr as ->.
      exists candidate'. split; [done|]. split; [done|]. by rewrite Eval.
    + exists (cs ++ [candidate']). cbn [fst snd]. split.
      * apply Forall2_app.
        -- eapply Forall2_impl; [exact Hcs3|]. intros r c (? & ? & ?).
           split; [done|]. split; [done|]. apply elem_of_union. by right.
        -- constructor; [|constructor]. split; [done|]. split; [done|].
           apply elem_of_union. left. by apply elem_of_singleton.
      * rewrite fmap_app. apply NoDup_app. split; [done|].
        split; [|apply NoDup_singleton].
        intros x Hx Hx'. apply list_elem_of_singleton in Hx' as ->.
        apply Hseen. apply list_elem_of_fmap in Hx as (c & -> & Hc').
        apply list_elem_of_lookup in Hc' as [i Hi].
        destruct (Forall2_lookup_r _ _ _ _ _ Hcs3 Hi) as (r & _ & _ & _ & Hin).
        done.
    + exists (msgs1 ++ warned ++ failed).
      apply (Hchecked3 (cands ++ [ref])); [done|].
      intros r [?|?%list_elem_of_singleton]%elem_of_app; [by left|by right].
  - split; [|split].
    + unfold gate_inv. cbn [fst snd].
      split; [done|]. split; [by rewrite Ha3 | done].
    + by exists cs.
    + exists (msgs1 ++ warned ++ failed).
      apply (Hchecked3 cands); [done|]. intros r ?. by left.
Qed.

Lemma build_candidates_loop_inv (langcode conv_dict_name cls : str)
    (vb0 : VocBuilder) (raw_cand_words : list str) (msgs : list message)
    (st : build_state) :
  gate_inv st → distinct_inv st → checked_inv langcode vb0 msgs st →
  match build_candidates_loop preprocess_candidate_word postprocess_candidate
          langcode conv_dict_name cls st raw_cand_words with
  | Some st' =>
      gate_inv st' ∧ distinct_inv st'
      ∧ ∃ msgs', checked_inv langcode vb0 (msgs ++ msgs') st'
  | None => ∃ c, ((∃ w, w ∈ raw_cand_words ∧ c ∈ w) ∨ c ∈ ustr ", ")
                 ∧ py_isalpha c = true ∧ py_latin_name c = None
  end.
Proof.
  revert msgs st. induction raw_cand_words as [|w ws IH];
    intros msgs st Hinv Hdist Hchecked.
  - cbn [build_candidates_loop]. split; [done|]. split; [done|].
    exists []. by rewrite app_nil_r.
  - cbn [build_candidates_loop].
    pose proof (build_candidate_inv langcode conv_dict_name cls vb0 msgs st w
                  Hinv Hdist Hchecked) as Hstep.
    destruct (build_candidate _ _ _ _ _ st w) as [st1|].
    2:{ destruct Hstep as (c & [?|?] & ?); exists c; (split; [|done]);
          [left; exists w; split; [by left|done] | by right]. }
    destruct Hstep as (Hinv1 & Hdist1 & msgs1 & Hchecked1).
    cbn [mbind option_bind].
    specialize (IH (msgs ++ msgs1) st1 Hinv1 Hdist1 Hchecked1).
    destruct (build_candidates_loop _ _ _ _ _ st1 ws) as [st'|].
    2:{ destruct IH as (c & [(w' & ? & ?)|?] & ?); exists c; (split; [|done]);
          [left; exists w'; split; [by right|done] | by right]. }
    destruct IH as (? & ? & msgs' & ?). split; [done|]. split; [done|].
    exists (msgs1 ++ msgs'). by rewrite app_assoc.
Qed.

(** The invariants hold before the loop. *)
Lemma build_candidates_start (langcode : str) (vb : VocBuilder) :
  cache_refs_valid vb → schwastrip (args vb) = false →
  gate_inv (vb, ∅, []) ∧ distinct_inv (vb, ∅, [])
  ∧ checked_inv langcode vb [] (vb, ∅, []).
Proof.
  intros Hc Hs. split; [|split].
  - split; [done|]. split; [done|]. by intros ref ?%elem_of_nil.
  - exists []. split; constructor.
  - split; [by rewrite app_nil_r|]. split; [done|].
    intros ref c Hle Hlook. apply lookup_lt_Some in Hlook. cbn [fst] in Hlook. lia.
Qed.

End Gate.

(** C1, as amended.  The repair can leave a word that the validator
    rejects, and [build_candidates_for_lang] uses the validator as a gate.
    Started with a cache that refers into the heap and with schwa stripping
    off, it returns unless the text of the entry for the language (or a
    separator) holds a letter without a name, on which [unicodedata.name]
    raises.  Every candidate in the list it returns has been repaired and
    passes the validator.  Every candidate that the call creates is
    repaired; what the validator logs for it is among the messages that
    the call adds to the log, and if the validator rejects it the warning
    of the rejection is among them and the candidate is not in the
    list. *)
Theorem build_candidates_for_lang_valid `{U : Unicode} `{F : PyFloat}
    (preprocess_candidate_word : str → str → str → str)
    (postprocess_candidate : str → str → str → str → str)
    (vb : VocBuilder) (langcode conv_dict_name : str) (entry : gmap str str) :
  cache_refs_valid vb →
  schwastrip (args vb) = false →
  match build_candidates_for_lang preprocess_candidate_word
          postprocess_candidate vb langcode conv_dict_name entry with
  | Some (cands, vb') =>
      (∀ ref, ref ∈ cands →
         ∃ c, heap vb' !! ref = Some c ∧ filled c = true
              ∧ (validate c).1 = None)
      ∧ ∃ msgs,
          LOG vb' = LOG vb ++ msgs
          ∧ ∀ ref c, length (heap vb) ≤ ref → heap vb' !! ref = Some c →
              filled c = true
              ∧ (∀ m, m ∈ (validate c).2 → m ∈ msgs)
              ∧ ∀ e, (validate c).1 = Some e →
                  WarnFailedValidation langcode (word c) e ∈ msgs
                  ∧ ref ∉ cands
  | None => ∃ c, (c ∈ default [] (entry !! langcode) ∨ c ∈ ustr ";, ")
                 ∧ py_isalpha c = true ∧ py_latin_name c = None
  end.
Proof.
  intros Hc Hs. unfold build_candidates_for_lang. cbv zeta.
  destruct (default [] (entry !! langcode)) as [|r0 raw] eqn:E.
  - split; [by intros ref ?%elem_of_nil|]. exists [].
    split; [by rewrite app_nil_r|]. intros ref c Hle Hlook.
    apply lookup_lt_Some in Hlook. lia.
  - destruct (build_candidates_start langcode vb Hc Hs) as (Hg & Hd & Hk).
    pose proof (build_candidates_loop_inv preprocess_candidate_word
                  postprocess_candidate langcode conv_dict_name
                  (default [] (entry !! ustr "class")) vb
                  (split_on_semicolons (r0 :: raw)) [] (vb, ∅, []) Hg Hd Hk)
      as Hloop.
    destruct (build_candidates_loop _ _ _ _ _ _ _) as [[[vb' set'] cands]|].
    2:{ destruct Hloop as (c & Hin & ?). exists c. split; [|done].
        destruct Hin as [(w & Hw & Hin)|Hin].
        - destruct (split_on_sep_sub _ _ _ _ Hw Hin) as [?|Hsep]; [by left|].
          right. revert Hsep. vm_compute (ustr "; "). vm_compute (ustr ";, ").
          rewrite !elem_of_cons, !elem_of_nil. tauto.
        - right. revert Hin. vm_compute (ustr ", "). vm_compute (ustr ";, ").
          rewrite !elem_of_cons, !elem_of_nil. tauto. }
    destruct Hloop as ((_ & _ & Hv) & _ & msgs & Hlog & _ & Hchk).
    cbn [mbind option_bind fst snd app] in *. split; [done|]. by exists msgs.
Qed.

(** The gate at work: of the two Spanish-like words 'kasa' and 'qat',
    mapped without a conversion table, only the first is returned. *)
Lemma build_candidates_for_lang_valid_witness :
  match build_candidates_for_lang (U:=basic_unicode) (F:=exact_floats)
          (λ w _ _, w) (λ w _ _ _, w)
          empty_builder (ustr "xx") (ustr "xx")
          {[ ustr "xx" := ustr "kasa; qat"; ustr "class" := ustr "noun" ]} with
  | Some (cands, vb') =>
      (∀ ref, ref ∈ cands →
         ∃ c, heap vb' !! ref = Some c ∧ filled c = true
              ∧ (validate (U:=basic_unicode) (F:=exact_floats) c).1 = None)
      ∧ ∃ msgs,
          LOG vb' = LOG (empty_builder (F:=exact_floats)) ++ msgs
          ∧ ∀ ref c, length (heap (empty_builder (F:=exact_floats))) ≤ ref →
              heap vb' !! ref = Some c →
              filled c = true
              ∧ (∀ m, m ∈ (validate (U:=basic_unicode) c).2 → m ∈ msgs)
              ∧ ∀ e, (validate (U:=basic_unicode) c).1 = Some e →
                  WarnFailedValidation (ustr "xx") (word c) e ∈ msgs
                  ∧ ref ∉ cands
  | None => ∃ c, (c ∈ default [] (({[ ustr "xx" := ustr "kasa; qat";
                                       ustr "class" := ustr "noun" ]}
                                     : gmap str str) !! ustr "xx")
                  ∨ c ∈ ustr ";, ")
                 ∧ py_isalpha (Unicode:=basic_unicode) c = true
                 ∧ py_latin_name (Unicode:=basic_unicode) c = None
  end.
Proof.
  apply (build_candidates_for_lang_valid (U:=basic_unicode) (F:=exact_floats)).
  - intros key ref H. cbn [candi_cache empty_builder] in H.
    by rewrite lookup_empty in H.
  - reflexivity.
Defined.

(** The rejected word 'qat' leaves two warnings: the one of the validator
    and the one of the builder. *)
Example build_candidates_for_lang_example :
  ∃ vb',
    build_candidates_for_lang (U:=basic_unicode) (F:=exact_floats)
      (λ w _ _, w) (λ w _ _ _, w)
      empty_builder (ustr "xx") (ustr "xx")
      {[ ustr "xx" := ustr "kasa; qat"; ustr "class" := ustr "noun" ]}
    = Some ([0], vb')
    ∧ word (F:=exact_floats) <$> heap vb' !! 0 = Some (ustr "kasa")
    ∧ word (F:=exact_floats) <$> heap vb' !! 1 = Some (ustr "qat")
    ∧ length (LOG vb') = 2
    ∧ LOG vb' !! 0
      = Some (WarnUnexpectedCharacters (ustr "xx") (ustr "qat") {[uchr "q"]})
    ∧ LOG vb' !! 1
      = Some (WarnFailedValidation (ustr "xx") (ustr "qat")
                (UnexpectedCharacters {[uchr "q"]})).
Proof. eexists. split; [by vm_compute|]. by vm_compute. Qed.

(** A word whose first letter has no name makes the call raise. *)
Example build_candidates_for_lang_raises :
  build_candidates_for_lang (U:=unnamed_unicode) (F:=exact_floats)
    (λ w _ _, w) (λ w _ _ _, w)
    empty_builder (ustr "xx") (ustr "xx")
    {[ ustr "xx" := ustr "kasa; " ++ [94208%N] ]}
  = None.
Proof. by vm_compute. Qed.


(** C1 fails on the code: for a language without conversion table the
    mapper passes the word 'qat' through, the repair leaves it as it is,
    and the validator rejects it for its unexpected character. *)
Lemma repaired_candidate_rejected :
  ∃ ref vb' c c' e,
    mk_candidate (U:=basic_unicode) (F:=exact_floats)
      (λ w _ _, w) (λ w _ _ _, w) empty_builder
      (ustr "qat") (ustr "xx") (ustr "xx") (ustr "noun") None
    = Some (Some ref, vb')
    ∧ heap vb' !! ref = Some c
    ∧ insert_filler_vowels (U:=basic_unicode) (F:=exact_floats) c = Some c'
    ∧ word c' = ustr "qat"
    ∧ (validate (U:=basic_unicode) (F:=exact_floats) c').1 = Some e.
Proof.
  eexists _, _, _, _, _. split; [by vm_compute|].
  split; [by vm_compute|]. split; [by vm_compute|]. split; [by vm_compute|].
  by vm_compute.
Qed.

(** The repair can also turn a word of the internal alphabet into one that
    the validator rejects: 'Nw' becomes 'Nwə'. *)
Lemma repaired_word_rejected :
  ∃ c' e,
    insert_filler_vowels (U:=basic_unicode) (F:=exact_floats)
      (new_Candidate (ustr "Nw") 0 (ustr "xx") (ustr "Nw") None []) = Some c'
    ∧ word c' = ustr "Nwə"
    ∧ (validate (U:=basic_unicode) (F:=exact_floats) c').1 = Some e.
Proof.
  eexists _, _. split; [by vm_compute|]. split; by vm_compute.
Qed.


(** * Further properties *)

(** ** [calc_distance]: bounds, shared fillers, distance zero *)

Lemma editdistance_le_max (a b : str) :
  editdistance a b ≤ Nat.max (length a) (length b).
Proof.
  revert b. induction a as [|x a IHa]; intros b; [cbn; lia|].
  induction b as [|y b IHb]; [rewrite editdistance_nil_r; lia|].
  rewrite editdistance_cons. specialize (IHa b). cbn [length].
  destruct (x =? y)%N; lia.
Qed.

Lemma editdistance_ge_diff (a b : str) :
  length a - length b ≤ editdistance a b
  ∧ length b - length a ≤ editdistance a b.
Proof.
  revert b. induction a as [|x a IHa]; intros b; [cbn; lia|].
  induction b as [|y b IHb]; [rewrite editdistance_nil_r; cbn [length]; lia|].
  rewrite editdistance_cons.
  pose proof (IHa b). pose proof (IHa (y :: b)). cbn [length] in *.
  destruct (x =? y)%N; lia.
Qed.

Lemma editdistance_zero (a b : str) : editdistance a b = 0 ↔ a = b.
Proof.
  split; [|intros ->; apply editdistance_refl].
  revert b. induction a as [|x a IHa]; intros b.
  - destruct b; [done|]. cbn. lia.
  - destruct b as [|y b]; [rewrite editdistance_nil_r; cbn; lia|].
    rewrite editdistance_cons.
    destruct (N.eqb_spec x y) as [->|]; [|lia].
    intros H. f_equal. apply IHa. lia.
Qed.

Lemma calc_distance_sorted_edist (a b : str) (d : nat) (r : bool) :
  calc_distance_sorted a b = Returns d r → d = editdistance a b.
Proof.
  unfold calc_distance_sorted, calc_distance_body.
  destruct (Py.str_gt a b); [rewrite (editdistance_sym b a)|];
    destruct (_ =? 0)%nat; (intros [= <- _] || intros [=]); done.
Qed.

(** The stripped words, with the fillers that were removed. *)
Lemma strip_fillers_decomp (a b a' b' : str) :
  strip_shared_fillers a b = (a', b') →
  ∃ k m, a = replicate k schwa ++ a' ++ replicate m schwa
         ∧ b = replicate k schwa ++ b' ++ replicate m schwa.
Proof.
  unfold strip_shared_fillers.
  destruct (strip_shared_leading a b) as [a1 b1] eqn:E. intros Ht.
  destruct (strip_leading_decomp _ _ _ _ E) as (k & -> & ->).
  destruct (strip_trailing_decomp _ _ _ _ Ht) as (m & -> & ->).
  by exists k, m.
Qed.

(** X1.  The distance that [calc_distance] returns lies between the
    difference of the lengths of the two words and the length of the
    longer one. *)
Theorem calc_distance_bounded (a b : str) (d : nat) (r : bool) :
  calc_distance a b = Some (Returns d r) →
  Nat.max (length a) (length b) - Nat.min (length a) (length b) ≤ d
  ∧ d ≤ Nat.max (length a) (length b).
Proof.
  rewrite calc_distance_spec.
  destruct (strip_shared_fillers a b) as [a' b'] eqn:E. intros [= H].
  apply calc_distance_sorted_edist in H as ->.
  destruct (strip_fillers_decomp _ _ _ _ E) as (k & m & -> & ->).
  pose proof (editdistance_le_max a' b').
  pose proof (editdistance_ge_diff a' b').
  rewrite !length_app, !length_replicate. lia.
Qed.

(** The words 'kata' and 'kato' are at distance 1. *)
Lemma calc_distance_bounded_witness :
  Nat.max (length (ustr "kata")) (length (ustr "kato"))
  - Nat.min (length (ustr "kata")) (length (ustr "kato")) ≤ 1
  ∧ 1 ≤ Nat.max (length (ustr "kata")) (length (ustr "kato")).
Proof.
  apply (calc_distance_bounded (ustr "kata") (ustr "kato") 1 true).
  by vm_compute.
Defined.

Lemma calc_distance_sorted_nil_l (b : str) :
  b ≠ [] → calc_distance_sorted [] b = Returns (length b) false.
Proof.
  destruct b as [|y b]; [done|]. intros _.
  unfold calc_distance_sorted, calc_distance_body. cbn [Py.str_gt editdistance].
  cbn [length Nat.max Nat.eqb Nat.ltb Nat.leb negb]. f_equal.
  destruct (Nat.leb_spec (2 * S (length b)) (S (length b))); [lia|done].
Qed.

Lemma calc_distance_sorted_nil_r (a : str) :
  a ≠ [] → calc_distance_sorted a [] = Returns (length a) false.
Proof. intros H. by rewrite calc_distance_sorted_sym, calc_distance_sorted_nil_l. Qed.

Lemma strip_leading_replicate (k : nat) (a b : str) :
  strip_shared_leading (replicate k schwa ++ a) (replicate k schwa ++ b)
  = strip_shared_leading a b.
Proof.
  induction k as [|k IH]; [done|].
  cbn [replicate app strip_shared_leading]. by rewrite N.eqb_refl.
Qed.

Lemma strip_leading_app (a b a1 b1 s t : str) :
  strip_shared_leading a b = (a1, b1) → a1 ≠ [] → b1 ≠ [] →
  strip_shared_leading (a ++ s) (b ++ t) = (a1 ++ s, b1 ++ t).
Proof.
  revert b. induction a as [|x a IH]; intros [|y b];
    cbn [strip_shared_leading app]; try (intros [= <- <-]; done).
  destruct ((x =? schwa)%N && (y =? schwa)%N); [apply IH|].
  by intros [= <- <-].
Qed.

Lemma strip_trailing_nil_l (b : str) : strip_shared_trailing [] b = ([], b).
Proof.
  unfold strip_shared_trailing. cbn [rev strip_shared_leading].
  by rewrite rev_involutive.
Qed.

Lemma strip_trailing_nil_r (a : str) : strip_shared_trailing a [] = (a, []).
Proof.
  unfold strip_shared_trailing. cbn [rev].
  replace (strip_shared_leading (rev a) []) with (rev a, ([] : str))
    by by destruct (rev a).
  by rewrite rev_involutive.
Qed.

Lemma calc_distance_trailing_filler (a b : str) :
  (let '(a', b') := strip_shared_fillers (a ++ [schwa]) (b ++ [schwa]) in
   calc_distance_sorted a' b')
  = (let '(a', b') := strip_shared_fillers a b in calc_distance_sorted a' b').
Proof.
  unfold strip_shared_fillers.
  destruct (strip_shared_leading a b) as [a1 b1] eqn:E.
  destruct (strip_leading_decomp _ _ _ _ E) as (k & -> & ->).
  destruct a1 as [|x a1], b1 as [|y b1].
  - rewrite !app_nil_r.
    rewrite (strip_leading_all_schwa (replicate k schwa ++ [schwa])); [done|].
    intros c [Hc|Hc]%elem_of_app; [by apply all_schwa_replicate in Hc|].
    by apply list_elem_of_singleton in Hc.
  - rewrite <-!app_assoc, strip_leading_replicate, strip_trailing_nil_l.
    cbn [app strip_shared_leading]. rewrite N.eqb_refl. cbn [andb].
    destruct (N.eqb_spec y schwa) as [->|Hy].
    + replace (strip_shared_leading [] (b1 ++ [schwa]))
        with (([] : str), b1 ++ [schwa]) by by destruct (b1 ++ [schwa]).
      rewrite strip_trailing_nil_l, !calc_distance_sorted_nil_l by (by destruct b1).
      by rewrite length_app, Nat.add_1_r.
    + change [schwa] with ([] ++ [schwa]) at 1.
      change (y :: b1 ++ [schwa]) with ((y :: b1) ++ [schwa]).
      by rewrite strip_trailing_shared, strip_trailing_nil_l.
  - rewrite <-!app_assoc, strip_leading_replicate, strip_trailing_nil_r.
    cbn [app strip_shared_leading]. rewrite N.eqb_refl, andb_true_r.
    destruct (N.eqb_spec x schwa) as [->|Hx].
    + replace (strip_shared_leading (a1 ++ [schwa]) [])
        with (a1 ++ [schwa], ([] : str)) by by destruct (a1 ++ [schwa]).
      rewrite strip_trailing_nil_r, !calc_distance_sorted_nil_r by (by destruct a1).
      by rewrite length_app, Nat.add_1_r.
    + change [schwa] with ([] ++ [schwa]) at 2.
      change (x :: a1 ++ [schwa]) with ((x :: a1) ++ [schwa]).
      by rewrite strip_trailing_shared, strip_trailing_nil_r.
  - rewrite (strip_leading_app _ _ _ _ [schwa] [schwa] E) by done.
    by rewrite strip_trailing_shared.
Qed.

(** X2.  A filler vowel that both words start with, or that both words end
    in, does not count: the call gives what it gives without it. *)
Theorem calc_distance_shared_filler (a b : str) :
  calc_distance (schwa :: a) (schwa :: b) = calc_distance a b
  ∧ calc_distance (a ++ [schwa]) (b ++ [schwa]) = calc_distance a b.
Proof.
  rewrite !calc_distance_spec. split.
  - unfold strip_shared_fillers. cbn [strip_shared_leading].
    by rewrite N.eqb_refl.
  - f_equal. apply calc_distance_trailing_filler.
Qed.

(** X3.  The distance is 0 only between a word and itself: the call
    returns distance 0 exactly when the two words are equal and have a
    letter other than the filler, and the words then count as related. *)
Theorem calc_distance_zero_iff (a b : str) (r : bool) :
  calc_distance a b = Some (Returns 0 r) ↔ a = b ∧ ¬ all_schwa a ∧ r = true.
Proof.
  split.
  - intros H. assert (a = b) as <-.
    { rewrite calc_distance_spec in H.
      destruct (strip_shared_fillers a b) as [a' b'] eqn:E.
      apply (inj Some) in H. apply calc_distance_sorted_edist in H.
      symmetry in H. apply editdistance_zero in H as <-.
      by destruct (strip_fillers_decomp _ _ _ _ E) as (k & m & -> & ->). }
    split; [done|].
    assert (¬ all_schwa a) as Hns.
    { intros Hs. assert (calc_distance a a = Some ZeroDivisionError) as H'
        by by apply calc_distance_error_iff.
      rewrite H in H'. discriminate H'. }
    split; [done|]. rewrite calc_distance_self in H by done. by injection H.
  - intros (<- & Hns & ->). by apply calc_distance_self.
Qed.

(** ** [mk_candidate]: the cache and the candidate built *)

Section MapperState.
Context {U : Unicode} {F : PyFloat}.
Variable preprocess_candidate_word : str → str → str → str.
Variable postprocess_candidate : str → str → str → str → str.

Lemma convert_loop_penalty (fuel : nat) (convdict : gmap str Conversion)
    (maxkeylen : Z) (langcode word : str) (st st' : conv_state) :
  convert_loop fuel convdict maxkeylen langcode word st = Some st' →
  (conv_pen st ≤ conv_pen st' ≤ conv_pen st + Z.of_nat (length (rest_word st)))%Z.
Proof.
  revert st. induction fuel as [|fuel IH]; intros st; cbn [convert_loop];
    destruct (rest_word st) as [|c0 r] eqn:E; try done;
    try (intros [= <-]; cbn [length]; lia).
  intros H%IH.
  destruct (convert_step_progress convdict maxkeylen langcode word c0 r st E)
    as (consumed & Hlen & Hsplit & Hcase).
  cbv zeta in Hsplit, Hcase.
  apply (f_equal length) in Hsplit. rewrite length_app, E in Hsplit.
  cbn [length] in *.
  destruct Hcase as [(idx & conv & _ & _ & _ & _ & _ & Hpen & _)
                    |(_ & _ & _ & Hpen & _)];
    rewrite Hpen in H; [destruct (conv_penalty conv)|]; lia.
Qed.

(** What a call of [mk_candidate] does to the builder: nothing on a cache
    hit; otherwise the result is cached under [langcode:word], a
    candidate built is appended to the heap, and warnings to the log. *)
Lemma mk_candidate_cases (vb vb' : VocBuilder)
    (raw_word langcode conv_dict_name cls : str) (true_orig : option str)
    (result : option nat) :
  mk_candidate preprocess_candidate_word postprocess_candidate
    vb raw_word langcode conv_dict_name cls true_orig = Some (result, vb') →
  let key := langcode ++ ustr ":" ++ raw_word in
  (candi_cache vb !! key = Some result ∧ vb' = vb)
  ∨ (candi_cache vb !! key = None
     ∧ ∃ new lg,
         vb' = mkVocBuilder (args vb) (existing_norm_words vb)
                 (<[key := result]> (candi_cache vb)) (convdicts vb)
                 (vb_auxlangs vb) (heap vb ++ new) (LOG vb ++ lg)
         ∧ (result = None ∧ new = [] ∧ lg = []
            ∨ ∃ c, result = Some (length (heap vb)) ∧ new = [c]
                   ∧ lang c = langcode
                   ∧ original c = strip_comment raw_word
                   ∧ true_original c = true_orig
                   ∧ auxlangs c = vb_auxlangs vb
                   ∧ filled c = false
                   ∧ match convdicts vb !! conv_dict_name with
                     | None =>
                         word c = py_lower (strip_comment raw_word)
                         ∧ penalty c = 0%Z ∧ lg = []
                     | Some _ =>
                         (0 ≤ penalty c
                          ≤ Z.of_nat (length (preprocess_candidate_word
                                               (strip_comment raw_word)
                                               conv_dict_name cls)))%Z
                     end)).
Proof.
  unfold mk_candidate. cbv zeta.
  destruct (candi_cache vb !! _) as [cached|] eqn:Hc.
  { intros [= <- <-]. by left. }
  intros H. right. split; [done|]. revert H.
  destruct (if (length (strip_comment raw_word) =? 0)%nat then Some false
            else has_latin_letter (strip_comment raw_word))
    as [has_latin|]; [|done].
  cbn [mbind option_bind]. destruct (negb has_latin).
  { intros [= <- <-]. exists [], []. rewrite !app_nil_r. split; [done|]. by left. }
  destruct (convdicts vb !! conv_dict_name) as [convdict|].
  - destruct (convert_loop _ _ _ _ _ _) as [st'|] eqn:Hloop; [|done].
    cbn [mbind option_bind]. intros [= <- <-].
    exists [new_Candidate
              (postprocess_candidate (out_word st')
                 (preprocess_candidate_word (strip_comment raw_word) conv_dict_name cls)
                 conv_dict_name cls)
              (conv_pen st') langcode (strip_comment raw_word) true_orig
              (vb_auxlangs vb)], (warnings st').
    split; [done|]. right. eexists. repeat split.
    + apply convert_loop_penalty in Hloop. cbn in Hloop. cbn. lia.
    + apply convert_loop_penalty in Hloop. cbn in Hloop. cbn. lia.
  - intros [= <- <-].
    exists [new_Candidate (py_lower (strip_comment raw_word)) 0 langcode
              (strip_comment raw_word) true_orig (vb_auxlangs vb)], [].
    rewrite app_nil_r. split; [done|]. right. eexists. by repeat split.
Qed.

End MapperState.

(** X4.  [mk_candidate] is memoized on the language code and the word: once
    a call has returned, a later call with the same language code and word
    returns the same result and leaves the builder as it is, whatever
    conversion table, class and true original it is given. *)
Theorem mk_candidate_memoized `{U : Unicode} `{F : PyFloat}
    (preprocess_candidate_word : str → str → str → str)
    (postprocess_candidate : str → str → str → str → str)
    (vb vb' : VocBuilder) (raw_word langcode conv_dict_name cls : str)
    (true_orig : option str) (result : option nat) :
  mk_candidate preprocess_candidate_word postprocess_candidate
    vb raw_word langcode conv_dict_name cls true_orig = Some (result, vb') →
  ∀ conv_dict_name' cls' true_orig',
    mk_candidate preprocess_candidate_word postprocess_candidate
      vb' raw_word langcode conv_dict_name' cls' true_orig' = Some (result, vb').
Proof.
  intros H conv_dict_name' cls' true_orig'.
  apply mk_candidate_cases in H. cbv zeta in H.
  assert (candi_cache vb' !! (langcode ++ ustr ":" ++ raw_word) = Some result)
    as Hhit.
  { destruct H as [[H ->]|(_ & new & lg & -> & _)]; [done|].
    cbn [candi_cache]. apply lookup_insert_eq. }
  unfold mk_candidate. cbv zeta. by rewrite Hhit.
Qed.

(** The word 'kasa', mapped for a language without a table, then asked for
    again with another table name, class and true original. *)
Lemma mk_candidate_memoized_witness :
  ∃ result vb',
    mk_candidate (U:=basic_unicode) (F:=exact_floats)
      (λ w _ _, w) (λ w _ _ _, w) empty_builder
      (ustr "kasa") (ustr "xx") (ustr "xx") (ustr "noun") None
    = Some (result, vb')
    ∧ mk_candidate (U:=basic_unicode) (F:=exact_floats)
        (λ w _ _, w) (λ w _ _ _, w) vb'
        (ustr "kasa") (ustr "xx") (ustr "yy") (ustr "verb") (Some (ustr "casa"))
      = Some (result, vb').
Proof.
  eexists _, _. split; [by vm_compute|].
  apply (mk_candidate_memoized (U:=basic_unicode) (F:=exact_floats)
           (λ w _ _, w) (λ w _ _ _, w) empty_builder _
           (ustr "kasa") (ustr "xx") (ustr "xx") (ustr "noun") None).
  by vm_compute.
Defined.

(** X5.  [mk_candidate] only adds to the builder: the switches, the
    existing words and the tables stay as they are, the objects already in
    the heap and the messages already logged are kept (new ones are
    appended), every cache entry is kept, and the result is cached under
    [langcode:word]. *)
Theorem mk_candidate_grows `{U : Unicode} `{F : PyFloat}
    (preprocess_candidate_word : str → str → str → str)
    (postprocess_candidate : str → str → str → str → str)
    (vb vb' : VocBuilder) (raw_word langcode conv_dict_name cls : str)
    (true_orig : option str) (result : option nat) :
  mk_candidate preprocess_candidate_word postprocess_candidate
    vb raw_word langcode conv_dict_name cls true_orig = Some (result, vb') →
  args vb' = args vb
  ∧ existing_norm_words vb' = existing_norm_words vb
  ∧ convdicts vb' = convdicts vb
  ∧ vb_auxlangs vb' = vb_auxlangs vb
  ∧ heap vb `prefix_of` heap vb'
  ∧ LOG vb `prefix_of` LOG vb'
  ∧ candi_cache vb ⊆ candi_cache vb'
  ∧ candi_cache vb' !! (langcode ++ ustr ":" ++ raw_word) = Some result.
Proof.
  intros H. apply mk_candidate_cases in H. cbv zeta in H.
  destruct H as [[H ->]|(Hmiss & new & lg & -> & _)]; [done|].
  cbn [args existing_norm_words convdicts vb_auxlangs heap LOG candi_cache].
  repeat split.
  - by apply prefix_app_r.
  - by apply prefix_app_r.
  - by apply insert_subseteq.
  - apply lookup_insert_eq.
Qed.

Lemma mk_candidate_grows_witness :
  let vb := empty_builder (F:=exact_floats) in
  ∃ result vb',
    mk_candidate (U:=basic_unicode) (λ w _ _, w) (λ w _ _ _, w) vb
      (ustr "kasa") (ustr "xx") (ustr "xx") (ustr "noun") None
    = Some (result, vb')
    ∧ args vb' = args vb
    ∧ existing_norm_words vb' = existing_norm_words vb
    ∧ convdicts vb' = convdicts vb
    ∧ vb_auxlangs vb' = vb_auxlangs vb
    ∧ heap vb `prefix_of` heap vb'
    ∧ LOG vb `prefix_of` LOG vb'
    ∧ candi_cache vb ⊆ candi_cache vb'
    ∧ candi_cache vb' !! (ustr "xx" ++ ustr ":" ++ ustr "kasa") = Some result.
Proof.
  intros vb. eexists _, _. split; [by vm_compute|].
  apply (mk_candidate_grows (U:=basic_unicode) (F:=exact_floats)
           (λ w _ _, w) (λ w _ _ _, w) vb _
           (ustr "kasa") (ustr "xx") (ustr "xx") (ustr "noun") None).
  by vm_compute.
Defined.



(** ** [insert_filler_vowels]: the penalty *)

Lemma count_one_app (x : char) (a b : str) :
  Py.count [x] (a ++ b) = Py.count [x] a + Py.count [x] b.
Proof.
  unfold Py.count. induction a as [|c a IH]; [done|].
  cbn [app Py.count_go length Nat.sub]. rewrite IH.
  by destruct (Py.startswith [x] (c :: a ++ b)) eqn:E1,
              (Py.startswith [x] (c :: a)) eqn:E2;
    cbn [Py.startswith] in E1, E2; rewrite ?andb_true_r in *; try congruence.
Qed.

Lemma count_schwa_join (words : list str) :
  Py.count [schwa] (Py.join (ustr " ") words)
  = foldr (λ w n, Py.count [schwa] w + n) 0 words.
Proof.
  induction words as [|w words IH]; [done|].
  destruct words as [|w' words]; [cbn [Py.join foldr]; lia|].
  change (Py.join (ustr " ") (w :: w' :: words))
    with (w ++ ustr " " ++ Py.join (ustr " ") (w' :: words)).
  rewrite !count_one_app, IH. cbn [foldr]. 
  change (Py.count [schwa] (ustr " ")) with 0. lia.
Qed.

Section RepairPenalty.
Context {U : Unicode} {F : PyFloat}.

Lemma on_word_penalty (f : str → str) (st : str * Z) : (on_word f st).2 = st.2.
Proof. done. Qed.

Lemma counting_penalty (f : str → str * nat) (st : str * Z) :
  (st.2 ≤ (counting f st).2)%Z.
Proof. unfold counting. destruct (f st.1). cbn [snd]. lia. Qed.

Lemma run_penalty (block : list statement) (st : str * Z) :
  Forall (λ s : statement, ∀ st, (st.2 ≤ (s st).2)%Z) block →
  (st.2 ≤ (run block st).2)%Z.
Proof.
  unfold run. intros H. revert st.
  induction H as [|s block Hs _ IH]; intros st; cbn [foldl]; [lia|].
  specialize (Hs st). specialize (IH (s st)). lia.
Qed.

Ltac penalty_step :=
  lazymatch goal with
  | |- ∀ st, (_ ≤ (on_word _ st).2)%Z => intros ?; rewrite on_word_penalty; lia
  | |- ∀ st, (_ ≤ (counting _ st).2)%Z => intros ?; apply counting_penalty
  | |- ∀ st, (_ ≤ (when ?b _ st).2)%Z =>
      destruct b; cbn [when]; [penalty_step | intros ?; cbn; lia]
  end.

Lemma repair_block_1_penalty (lang : str) :
  Forall (λ s : statement, ∀ st, (st.2 ≤ (s st).2)%Z) (repair_block_1 lang).
Proof. unfold repair_block_1. repeat (constructor; [penalty_step|]). constructor. Qed.

Lemma repair_block_2_penalty (lang : str) :
  Forall (λ s : statement, ∀ st, (st.2 ≤ (s st).2)%Z) (repair_block_2 lang).
Proof. unfold repair_block_2. repeat (constructor; [penalty_step|]). constructor. Qed.

Lemma repair_word_penalty (lang original w w' : str) (p p' : Z) :
  repair_word lang original w p = Some (w', p') →
  (p + Z.of_nat (Py.count [schwa] w') ≤ p')%Z.
Proof.
  unfold repair_word.
  pose proof (run_penalty _ (w, p) (repair_block_1_penalty lang)) as H1.
  destruct (run (repair_block_1 lang) (w, p)) as [w1 p1].
  destruct (repair_word_fr lang original w1) as [w2|]; [|done].
  cbn [mbind option_bind].
  pose proof (run_penalty _ (w2, p1) (repair_block_2_penalty lang)) as H2.
  destruct (run (repair_block_2 lang) (w2, p1)) as [w3 p3].
  destruct (insert_between_illegal_pairs _ _) as [w4|]; [|done].
  cbn [mbind option_bind]. intros [= <- <-]. cbn [snd] in *. lia.
Qed.

Lemma repair_words_penalty (lang original : str) (words words' : list str)
    (p p' : Z) :
  repair_words lang original words p = Some (words', p') →
  (p + Z.of_nat (foldr (λ w n, Py.count [schwa] w + n)%nat 0%nat words') ≤ p')%Z.
Proof.
  revert p words' p'. induction words as [|w words IH]; intros p words' p';
    cbn [repair_words].
  - intros [= <- <-]. cbn. lia.
  - destruct (repair_word lang original w p) as [[w1 p1]|] eqn:E1; [|done].
    cbn [mbind option_bind].
    destruct (repair_words lang original words p1) as [[ws p2]|] eqn:E2; [|done].
    cbn [mbind option_bind]. intros [= <- <-].
    apply repair_word_penalty in E1. apply IH in E2. cbn [foldr]. lia.
Qed.

End RepairPenalty.

(** X7.  The repair never lowers the penalty, and every filler vowel of the
    repaired word is paid for: a first call returns a candidate whose
    penalty is at least the penalty before plus the number of filler
    vowels in its word. *)
Theorem insert_filler_vowels_penalty `{U : Unicode} `{F : PyFloat}
    (c : Candidate) :
  ∃ c', insert_filler_vowels c = Some c'
        ∧ (penalty c ≤ penalty c')%Z
        ∧ (filled c = false →
           (penalty c + Z.of_nat (Py.count [schwa] (word c')) ≤ penalty c')%Z).
Proof.
  destruct (insert_filler_vowels_total c) as (c' & Hc' & _).
  exists c'. split; [done|]. revert Hc'. unfold insert_filler_vowels.
  destruct (filled c); [intros [= <-]; split; [lia|done]|].
  destruct (repair_words _ _ _ _) as [[ws p']|] eqn:E; [|done].
  cbn [mbind option_bind]. intros [= <-]. cbn [penalty word].
  apply repair_words_penalty in E. rewrite count_schwa_join.
  split; [lia|]. intros _. lia.
Qed.

(** ** [export_word] and [normalize_word]: letters that never come out *)

Lemma replace_go_elem (old new s : str) (skip : nat) (c : char) :
  c ∈ Py.replace_go old new s skip → c ∈ s ∨ c ∈ new.
Proof.
  revert skip. induction s as [|x s IH]; intros skip; cbn [Py.replace_go].
  - by intros ?%elem_of_nil.
  - destruct skip as [|n].
    + destruct (Py.startswith old (x :: s)).
      * intros [?|H]%elem_of_app; [by right|].
        apply IH in H as [?|?]; [left; by right | by right].
      * intros [->|H]%elem_of_cons; [left; by left|].
        apply IH in H as [?|?]; [left; by right | by right].
    + intros H. apply IH in H as [?|?]; [left; by right | by right].
Qed.

Lemma replace_elem (old new s : str) (c : char) :
  c ∈ Py.replace old new s → c ∈ s ∨ c ∈ new.
Proof. apply replace_go_elem. Qed.

(** Replacing a character by a text without it removes the character. *)
Lemma replace_one_gone (c : char) (new s : str) :
  c ∉ new → c ∉ Py.replace [c] new s.
Proof.
  intros Hnew. unfold Py.replace. induction s as [|x s IH];
    cbn [Py.replace_go Py.startswith length Nat.sub].
  - by intros ?%elem_of_nil.
  - rewrite andb_true_r. destruct (N.eqb_spec c x) as [<-|Hx].
    + by intros [?|?]%elem_of_app.
    + by intros [?|?]%elem_of_cons.
Qed.

(** A character that a replacement does not bring in stays absent. *)
Lemma replace_keeps_absent (old new s : str) (c : char) :
  c ∉ new → c ∉ s → c ∉ Py.replace old new s.
Proof. intros ?? [?|?]%replace_elem; done. Qed.

(** A character is not in a literal string. *)
Ltac absent_char :=
  let H := fresh in
  intros H; vm_compute in H;
  repeat (apply elem_of_cons in H as [H|H]; [discriminate H|]);
  by apply elem_of_nil in H.

(** X8.  The exported form of a word has none of the letters that only the
    internal alphabet uses: 'C', 'N', 'S' and the filler vowel. *)
Theorem export_word_external `{U : Unicode} (w : str) (c : char) :
  c ∈ export_word w →
  c ≠ uchr "C" ∧ c ≠ uchr "N" ∧ c ≠ uchr "S" ∧ c ≠ schwa.
Proof.
  unfold export_word. cbv zeta.
  generalize (Re.sub Y_RE (λ g, group g 1 ++ ustr "i")
                (Re.sub W_RE (λ g, group g 1 ++ ustr "u") w)).
  intros w0. unfold EXPORT_REPL. cbn [foldl fst snd].
  set (w1 := Py.replace (ustr "sh") (ustr "s-h") w0).
  set (w2 := Py.replace (ustr "C") (ustr "ch") w1).
  set (w3 := Py.replace (ustr "Ng") (ustr "ng") w2).
  set (w4 := Py.replace (ustr "Nk") (ustr "nk") w3).
  set (w5 := Py.replace (ustr "N") (ustr "ng") w4).
  set (w6 := Py.replace (ustr "S") (ustr "sh") w5).
  intros Hc.
  assert (uchr "C" ∉ w2) as HC2 by (apply replace_one_gone; absent_char).
  assert (uchr "N" ∉ w5) as HN5 by (apply replace_one_gone; absent_char).
  assert (uchr "S" ∉ w6) as HS6 by (apply replace_one_gone; absent_char).
  assert (uchr "C" ∉ w6) as HC6.
  { do 4 (apply replace_keeps_absent; [absent_char|]). done. }
  assert (uchr "N" ∉ w6) as HN6.
  { apply replace_keeps_absent; [absent_char|done]. }
  repeat split; intros ->; revert Hc.
  - apply replace_keeps_absent; [absent_char|done].
  - apply replace_keeps_absent; [absent_char|done].
  - apply replace_keeps_absent; [absent_char|done].
  - apply replace_one_gone. absent_char.
Qed.

Lemma export_word_external_witness :
  uchr "s" ≠ uchr "C" ∧ uchr "s" ≠ uchr "N" ∧ uchr "s" ≠ uchr "S"
  ∧ uchr "s" ≠ schwa.
Proof.
  apply (export_word_external (U:=basic_unicode) (ustr "SaNə")).
  vm_compute. apply list_elem_of_here.
Defined.

Section Whitespace.
Context {U : Unicode}.

(** A greedy repetition hands over to its continuation after at least
    [atleast] characters. *)
Lemma many_consumes {A} (cs : cset) (atleast : nat) (aft bef : str)
    (g : groups) (k : mstate → option A) (a : A) :
  many cs atleast aft bef g k = Some a →
  ∃ st, k st = Some a ∧ length (after st) + atleast ≤ length aft.
Proof.
  revert atleast bef. induction aft as [|c aft IH]; intros atleast bef;
    cbn [many].
  - destruct atleast; [|done]. intros H. eexists. split; [exact H|]. cbn. lia.
  - assert (match atleast with
            | 0 => k (MState bef (c :: aft) g)
            | S _ => None
            end = Some a →
            ∃ st, k st = Some a ∧ length (after st) + atleast ≤ length (c :: aft))
      as Hstop.
    { destruct atleast; [|done]. intros H. eexists. split; [exact H|]. cbn. lia. }
    destruct (cset_match cs c); [|done].
    destruct (many cs (Nat.pred atleast) aft (c :: bef) g k) eqn:E; [|done].
    intros [= ->]. apply IH in E as (st & Hk & Hlen).
    exists st. split; [done|]. cbn [length]. lia.
Qed.

(** With a continuation that always succeeds, a repetition that may be
    empty succeeds. *)
Lemma many_0_some {A} (cs : cset) (aft bef : str) (g : groups)
    (k : mstate → option A) :
  (∀ st, is_Some (k st)) → is_Some (many cs 0 aft bef g k).
Proof.
  intros Hk. revert bef. induction aft as [|c aft IH]; intros bef; cbn [many];
    [done|].
  destruct (cset_match cs c); [|done].
  cbn [Nat.pred]. by destruct (IH (c :: bef)) as [a ->].
Qed.

Lemma match_at_spaces_none (bef : str) (c : char) (s : str) :
  match_at (Many CSpace 1) bef (c :: s) = None → Py.isspace c = false.
Proof.
  unfold match_at. cbn [rmatch many before after caps cset_match Nat.pred].
  destruct (Py.isspace c); [|done].
  match goal with |- context [many ?cs 0 ?a ?b ?g ?k] =>
    destruct (many_0_some cs a b g k) as [x ->]; [by eexists|done] end.
Qed.

Lemma match_at_spaces_length (bef s : str) (g : groups) (n : nat) :
  match_at (Many CSpace 1) bef s = Some (g, n) → 1 ≤ n.
Proof.
  unfold match_at. cbn [rmatch before after caps].
  intros (st & [= _ <-] & Hlen)%many_consumes. lia.
Qed.

(** [re.sub(r'\s+', '', s)] leaves no whitespace. *)
Lemma sub_spaces_go (s bef : str) (skip : nat) (x : char) :
  x ∈ (subn_go (Many CSpace 1) (λ _, []) bef s skip).1 → Py.isspace x = false.
Proof.
  revert bef skip. induction s as [|c s IH]; intros bef skip; cbn [subn_go].
  - destruct skip; [|by intros ?%elem_of_nil].
    destruct (match_at _ _ _) as [[g n]|] eqn:E; [|by intros ?%elem_of_nil].
    apply match_at_spaces_length in E.
    by intros ?%elem_of_nil.
  - destruct skip as [|m]; [|apply IH].
    destruct (match_at _ _ _) as [[g [|n]]|] eqn:E.
    + apply match_at_spaces_length in E. lia.
    + specialize (IH (c :: bef) n). destruct (subn_go _ _ _ _ _). apply IH.
    + specialize (IH (c :: bef) 0). destruct (subn_go _ _ _ _ _).
      cbn [fst] in *. intros [->|?]%elem_of_cons; [|by apply IH].
      by eapply match_at_spaces_none.
Qed.

End Whitespace.

(** X9.  A normalized word has no whitespace, no hyphen and none of the
    letters 'v', 'w', 'y', 'z', which normalization replaces. *)
Theorem normalize_word_letters `{U : Unicode} (w : str) (c : char) :
  c ∈ normalize_word w →
  Py.isspace c = false
  ∧ c ≠ uchr "v" ∧ c ≠ uchr "w" ∧ c ≠ uchr "y" ∧ c ≠ uchr "z"
  ∧ c ≠ uchr "-".
Proof.
  unfold normalize_word. cbv zeta.
  set (w0 := Re.sub (Many CSpace 1) (λ _, []) (py_lower w)).
  set (w1 := if Py.endswith (ustr "ng") w0 then Py.drop_last 1 w0 else w0).
  assert (∀ x, x ∈ w1 → Py.isspace x = false) as Hsp.
  { intros x Hx. apply (sub_spaces_go (py_lower w) [] 0).
    subst w1. destruct (Py.endswith _ _); [|done].
    by apply (subseteq_take (length w0 - 1) w0). }
  clearbody w1. clear w0. unfold NORM_REPL. cbn [foldl fst snd].
  set (w2 := Py.replace (ustr "v") (ustr "u") w1).
  set (w3 := Py.replace (ustr "w") (ustr "u") w2).
  set (w4 := Py.replace (ustr "y") (ustr "i") w3).
  set (w5 := Py.replace (ustr "z") (ustr "s") w4).
  intros Hc.
  assert (uchr "v" ∉ w2) as Hv by (apply replace_one_gone; absent_char).
  assert (uchr "w" ∉ w3) as Hw by (apply replace_one_gone; absent_char).
  assert (uchr "y" ∉ w4) as Hy by (apply replace_one_gone; absent_char).
  assert (uchr "z" ∉ w5) as Hz by (apply replace_one_gone; absent_char).
  split.
  - do 5 (apply replace_elem in Hc as [Hc|Hc];
          [|vm_compute in Hc;
            repeat (apply elem_of_cons in Hc as [->|Hc]; [done|]);
            by apply elem_of_nil in Hc]).
    by apply Hsp.
  - repeat split; intros ->; revert Hc.
    + do 4 (apply replace_keeps_absent; [absent_char|]). done.
    + do 3 (apply replace_keeps_absent; [absent_char|]). done.
    + do 2 (apply replace_keeps_absent; [absent_char|]). done.
    + apply replace_keeps_absent; [absent_char|done].
    + apply replace_one_gone. absent_char.
Qed.

Lemma normalize_word_letters_witness :
  Py.isspace (uchr "u") = false
  ∧ uchr "u" ≠ uchr "v" ∧ uchr "u" ≠ uchr "w" ∧ uchr "u" ≠ uchr "y"
  ∧ uchr "u" ≠ uchr "z" ∧ uchr "u" ≠ uchr "-".
Proof.
  apply (normalize_word_letters (U:=basic_unicode) (ustr "Wa-zy vang")).
  vm_compute. apply list_elem_of_here.
Defined.

(** ** Text utilities *)

Lemma lstrip_app (m : str) (c : char) (r : str) :
  Py.isspace c = false → Py.lstrip (m ++ c :: r) = Py.lstrip m ++ c :: r.
Proof.
  intros Hc. induction m as [|x m IH]; cbn [app Py.lstrip].
  - by rewrite Hc.
  - by destruct (Py.isspace x).
Qed.

Lemma lstrip_idemp (s : str) : Py.lstrip (Py.lstrip s) = Py.lstrip s.
Proof.
  induction s as [|x s IH]; [done|]. cbn [Py.lstrip].
  destruct (Py.isspace x) eqn:E; [done|]. cbn [Py.lstrip]. by rewrite E.
Qed.

Lemma rstrip_snoc (s : str) (c : char) :
  Py.isspace c = false → Py.rstrip (s ++ [c]) = s ++ [c].
Proof.
  intros Hc. unfold Py.rstrip. rewrite rev_unit. cbn [Py.lstrip].
  rewrite Hc. by rewrite <-rev_unit, rev_involutive.
Qed.

Lemma rstrip_lstrip (s : str) :
  Py.rstrip (Py.lstrip (Py.rstrip s)) = Py.lstrip (Py.rstrip s).
Proof.
  unfold Py.rstrip.
  destruct (Py.lstrip (rev s)) as [|c t] eqn:E; [done|].
  assert (Py.isspace c = false) as Hc.
  { clear -E. induction (rev s) as [|x l IH]; [done|]. cbn [Py.lstrip] in E.
    destruct (Py.isspace x) eqn:Ex; [by apply IH|]. by injection E as <- _. }
  cbn [rev]. rewrite lstrip_app by done.
  rewrite rev_unit. cbn [Py.lstrip]. rewrite Hc.
  by rewrite <-rev_unit, rev_involutive.
Qed.

Lemma str_in_middle (c : char) (a b : str) : Py.str_in [c] (a ++ c :: b) = true.
Proof.
  induction a as [|x a IH]; cbn [app Py.str_in Py.startswith].
  - by rewrite N.eqb_refl.
  - rewrite IH. apply orb_true_r.
Qed.

Lemma rfind_absent (c : char) (s : str) : c ∉ s → rfind [c] s = None.
Proof.
  induction s as [|x s IH]; [done|]. intros H.
  apply not_elem_of_cons in H as [Hx Hs]. cbn [rfind Py.startswith].
  rewrite (IH Hs), andb_true_r. by destruct (N.eqb_spec c x).
Qed.

Lemma rfind_last (c : char) (a b : str) :
  c ∉ b → rfind [c] (a ++ c :: b) = Some (length a).
Proof.
  intros Hb. induction a as [|x a IH]; cbn [app rfind length].
  - rewrite (rfind_absent _ _ Hb). cbn [Py.startswith]. by rewrite N.eqb_refl.
  - by rewrite IH.
Qed.

(** X10.  [split_text_and_explanation] takes a text apart at its last
    opening parenthesis: on 'main(explanation)', where the explanation has
    no opening parenthesis, it returns the main text and the explanation,
    both stripped of outer whitespace.  (Whitespace before the main text
    or inside the parentheses does not matter.) *)
Theorem split_text_and_explanation_parts (main explanation : str) :
  uchr "(" ∉ explanation →
  split_text_and_explanation (main ++ ustr "(" ++ explanation ++ ustr ")")
  = (Py.strip main, Some (Py.strip explanation)).
Proof.
  intros He. unfold split_text_and_explanation. cbv zeta.
  change (ustr "(") with [uchr "("]. change (ustr ")") with [uchr ")"].
  cbn [app].
  assert (Py.strip (main ++ uchr "(" :: explanation ++ [uchr ")"])
          = Py.lstrip main ++ uchr "(" :: explanation ++ [uchr ")"]) as ->.
  { unfold Py.strip. rewrite lstrip_app by done.
    change (Py.lstrip main ++ uchr "(" :: explanation ++ [uchr ")"])
      with (Py.lstrip main ++ (uchr "(" :: explanation) ++ [uchr ")"]).
    rewrite app_assoc. by apply rstrip_snoc. }
  assert (Py.endswith [uchr ")"]
            (Py.lstrip main ++ uchr "(" :: explanation ++ [uchr ")"]) = true)
    as ->.
  { unfold Py.endswith.
    change (Py.lstrip main ++ uchr "(" :: explanation ++ [uchr ")"])
      with (Py.lstrip main ++ (uchr "(" :: explanation) ++ [uchr ")"]).
    rewrite app_assoc, rev_unit. cbn. by rewrite N.eqb_refl. }
  rewrite str_in_middle. cbn [andb].
  rewrite rfind_last.
  2:{ intros [?|H]%elem_of_app; [done|]. by apply list_elem_of_singleton in H. }
  rewrite take_app_length. f_equal.
  - unfold Py.strip. by rewrite lstrip_idemp.
  - f_equal. f_equal.
    replace (length (Py.lstrip main) + 1) with (length (Py.lstrip main ++ [uchr "("]))
      by (rewrite length_app; cbn; lia).
    change (Py.lstrip main ++ uchr "(" :: explanation ++ [uchr ")"])
      with (Py.lstrip main ++ [uchr "("] ++ explanation ++ [uchr ")"]).
    rewrite app_assoc, drop_app_length.
    unfold Py.drop_last. rewrite length_app. cbn [length].
    replace (length explanation + 1 - 1) with (length explanation) by lia.
    apply take_app_length.
Qed.

Lemma split_text_and_explanation_parts_witness :
  split_text_and_explanation
    (ustr " ka " ++ ustr "(" ++ ustr " short form " ++ ustr ")")
  = (Py.strip (ustr " ka "), Some (Py.strip (ustr " short form "))).
Proof.
  apply (split_text_and_explanation_parts (ustr " ka ") (ustr " short form ")).
  absent_char.
Defined.

(** *** [format_compact_string_list] *)

Lemma compact_lines_fit (prefix sep : str) (max_line_length : Z)
    (all items : list str) (line : str) (result_arr : list str) :
  let fits (l : str) :=
    (Z.of_nat (length l) ≤ max_line_length)%Z
    ∨ ∃ item, item ∈ all ∧ l = prefix ++ item ++ sep in
  items ⊆ all → fits line → Forall fits result_arr →
  Forall fits (compact_lines prefix sep max_line_length items line result_arr).1
  ∧ fits (compact_lines prefix sep max_line_length items line result_arr).2.
Proof.
  intros fits. revert line result_arr.
  induction items as [|item items IH]; intros line result_arr Hsub Hline Hres;
    cbn [compact_lines]; [done|].
  assert (item ∈ all) as Hitem by (apply Hsub; by left).
  assert (items ⊆ all) as Hsub' by (intros x Hx; apply Hsub; by right).
  destruct (Z.ltb_spec (Z.of_nat (length line + length item + length sep))
              max_line_length) as [Hlt|Hge].
  - apply IH; [done| |done]. left.
    rewrite !length_app. change (length (ustr " ")) with 1. lia.
  - apply IH; [done| |].
    + right. by exists item.
    + apply Forall_app. split; [done|]. by constructor.
Qed.

(** X11.  [format_compact_string_list] keeps its lines within the maximum
    length: with a non-empty separator every line is at most
    [max_line_length] long, unless it holds a single item.  With an empty
    separator the last line comes out empty. *)
Theorem format_compact_lines_fit (strlist : list str) (prefix sep : str)
    (max_line_length : Z) :
  (sep ≠ [] →
   Forall (λ l, (Z.of_nat (length l) ≤ max_line_length)%Z
                ∨ ∃ item, item ∈ strlist
                          ∧ (l = prefix ++ item ++ sep ∨ l = prefix ++ item))
          (format_compact_lines strlist prefix sep max_line_length))
  ∧ (sep = [] → strlist ≠ [] →
     last (format_compact_lines strlist prefix sep max_line_length) = Some []).
Proof.
  unfold format_compact_lines. destruct strlist as [|first rest].
  { split; [by constructor|done]. }
  pose proof (compact_lines_fit prefix sep max_line_length (first :: rest)
                rest (prefix ++ first ++ sep) []) as H.
  cbv zeta in H.
  destruct (compact_lines _ _ _ _ _ _) as [result_arr line]. split.
  - intros Hsep.
    destruct H as [Hres Hline].
    { intros x Hx. by right. }
    { right. exists first. split; [by left|done]. }
    { constructor. }
    cbn [fst snd] in *. apply Forall_app. split.
    + eapply Forall_impl; [exact Hres|]. intros l [?|(item & ? & ->)]; [by left|].
      right. exists item. split; [done|by left].
    + constructor; [|constructor].
      destruct (Nat.eqb_spec (length sep) 0) as [E|_]; [by destruct sep|].
      destruct Hline as [Hlen|(item & ? & ->)].
      * left. unfold Py.drop_last. rewrite length_take. lia.
      * right. exists item. split; [done|]. right.
        unfold Py.drop_last. rewrite app_assoc, length_app.
        replace (length (prefix ++ item) + length sep - length sep)
          with (length (prefix ++ item)) by lia.
        apply take_app_length.
  - intros -> _. cbn [length Nat.eqb]. by rewrite last_snoc.
Qed.

(** *** [normalize] *)

Lemma rev_nil_inv {A} (l : list A) : rev l = [] → l = [].
Proof.
  intros H. apply (f_equal (@length A)) in H. rewrite length_rev in H.
  by destruct l.
Qed.

Lemma split_go_word (w rest cur : str) :
  (∀ x, x ∈ w → Py.isspace x = false) →
  Py.split_go (w ++ rest) cur = Py.split_go rest (rev w ++ cur).
Proof.
  revert cur. induction w as [|x w IH]; intros cur Hw; [done|].
  cbn [app Py.split_go]. rewrite Hw by by left.
  rewrite IH by (intros ??; apply Hw; by right).
  cbn [rev]. by rewrite <-app_assoc.
Qed.

(** Splitting undoes joining with single spaces. *)
Lemma split_join (words : list str) :
  Forall (λ w, w ≠ [] ∧ ∀ x, x ∈ w → Py.isspace x = false) words →
  Py.split (Py.join (ustr " ") words) = words.
Proof.
  unfold Py.split. induction 1 as [|w words [Hne Hw] Hws IH]; [done|].
  destruct words as [|w' words].
  - cbn [Py.join]. rewrite <-(app_nil_r w) at 1.
    rewrite split_go_word by done. cbn [Py.split_go]. rewrite app_nil_r.
    destruct (rev w) eqn:E; [|by rewrite <-E, rev_involutive].
    by apply rev_nil_inv in E.
  - change (Py.join (ustr " ") (w :: w' :: words))
      with (w ++ 32%N :: Py.join (ustr " ") (w' :: words)).
    rewrite split_go_word by done. cbn [Py.split_go]. rewrite app_nil_r.
    change (Py.isspace 32) with true. cbn match.
    destruct (rev w) eqn:E; [by apply rev_nil_inv in E|].
    by rewrite <-E, rev_involutive, IH.
Qed.

Lemma lstrip_id (c : char) (s : str) :
  Py.isspace c = false → Py.lstrip (c :: s) = c :: s.
Proof. intros H. cbn [Py.lstrip]. by rewrite H. Qed.

Lemma join_ends (words : list str) :
  Forall (λ w, w ≠ [] ∧ ∀ x, x ∈ w → Py.isspace x = false) words →
  words ≠ [] →
  (∃ c s, Py.join (ustr " ") words = c :: s ∧ Py.isspace c = false)
  ∧ (∃ s c, Py.join (ustr " ") words = s ++ [c] ∧ Py.isspace c = false).
Proof.
  induction 1 as [|w words [Hne Hw] Hws IH]; [done|]. intros _.
  destruct words as [|w' words].
  - cbn [Py.join]. split.
    + destruct w as [|c s]; [done|]. exists c, s. split; [done|]. apply Hw. by left.
    + destruct (snoc_cases w) as [->|(s & c & ->)]; [done|].
      exists s, c. split; [done|]. apply Hw. apply elem_of_app. right. by left.
  - change (Py.join (ustr " ") (w :: w' :: words))
      with (w ++ 32%N :: Py.join (ustr " ") (w' :: words)).
    destruct IH as [_ (s & c & -> & Hc)]; [done|]. split.
    + destruct w as [|c0 s0]; [done|]. exists c0. eexists. split; [done|].
      apply Hw. by left.
    + exists (w ++ 32%N :: s), c. split; [|done]. by rewrite <-app_assoc.
Qed.

Lemma strip_join (words : list str) :
  Forall (λ w, w ≠ [] ∧ ∀ x, x ∈ w → Py.isspace x = false) words →
  Py.strip (Py.join (ustr " ") words) = Py.join (ustr " ") words.
Proof.
  intros H. destruct words as [|w words]; [done|].
  destruct (join_ends _ H) as [(c & s & E & Hc) (s' & c' & E' & Hc')]; [done|].
  unfold Py.strip. rewrite E, lstrip_id by done. rewrite <-E, E'.
  by apply rstrip_snoc.
Qed.

Lemma split_words (s : str) :
  Forall (λ w, w ≠ [] ∧ ∀ x, x ∈ w → Py.isspace x = false) (Py.split s).
Proof.
  apply Forall_forall. intros w Hw. split.
  - by eapply split_nonempty.
  - intros x Hx. eapply (split_go_nospace s []); [by intros ??%elem_of_nil|done..].
Qed.

(** X12.  [normalize] is idempotent, and what it returns has no outer
    whitespace and splits into the words it was joined from. *)
Theorem normalize_idempotent (text : str) :
  normalize (normalize text) = normalize text
  ∧ Py.strip (normalize text) = normalize text
  ∧ Py.split (normalize text) = Py.split (Py.strip text).
Proof.
  unfold normalize.
  pose proof (split_words (Py.strip text)) as H.
  rewrite (strip_join _ H), (split_join _ H). done.
Qed.

(** ** Related candidates *)

(** X13.  A candidate that [has_suitable_related_natlang_cands] accepts has
    at least one related natural language, as
    [count_related_natlang_cands] counts them; for a candidate of a
    language other than Glosa the two agree. *)
Theorem has_suitable_related_count `{U : Unicode} `{F : PyFloat} (c : Candidate) :
  (has_suitable_related_natlang_cands c = true →
   1 ≤ count_related_natlang_cands c)
  ∧ (lang c ≠ ustr "glosa" →
     (has_suitable_related_natlang_cands c = true
      ↔ 1 ≤ count_related_natlang_cands c)).
Proof.
  unfold has_suitable_related_natlang_cands, count_related_natlang_cands.
  cbv zeta. set (keys := elements (dom (related_cands c))).
  assert (∀ l, l ∈ keys → l ∉ auxlangs c →
               1 ≤ length (filter (λ l, l ∉ auxlangs c) keys)) as Hcount.
  { intros l Hl Hnot.
    assert (l ∈ filter (λ l, l ∉ auxlangs c) keys) as Hin
      by by apply list_elem_of_filter.
    destruct (filter _ keys); [by apply elem_of_nil in Hin|cbn; lia]. }
  split.
  - intros (l & Hl & Hd)%existsb_exists.
    apply list_elem_of_In in Hl. apply bool_decide_eq_true in Hd.
    apply (Hcount l Hl). intros ?. apply Hd, elem_of_app. by left.
  - intros Hlang. destruct (decide (lang c = ustr "glosa")); [done|].
    rewrite app_nil_r. split.
    + intros (l & Hl & Hd)%existsb_exists.
      apply list_elem_of_In in Hl. apply bool_decide_eq_true in Hd.
      by apply (Hcount l Hl).
    + intros Hlen. apply existsb_exists.
      destruct (filter (λ l, l ∉ auxlangs c) keys) as [|l rest] eqn:E;
        [cbn in Hlen; lia|].
      assert (l ∈ filter (λ l, l ∉ auxlangs c) keys) as Hin
        by (rewrite E; by left).
      apply list_elem_of_filter in Hin as [Hnot Hl].
      exists l. split; [by apply list_elem_of_In|by apply bool_decide_eq_true].
Qed.

(** ** [calc_sim_penalties] *)

Section SimPenalties.
Context {F : PyFloat}.

Lemma scan_other_cands_sound (w other_lang : str) (others : list Candidate)
    (m m' : nat) (rc rc' : gmap str (list str)) :
  scan_other_cands w other_lang others m rc = Some (m', rc') →
  m' ≤ m
  ∧ (∀ k x, x ∈ default [] (rc !! k) → x ∈ default [] (rc' !! k))
  ∧ (∀ k x, x ∈ default [] (rc' !! k) →
       x ∈ default [] (rc !! k)
       ∨ (k = other_lang
          ∧ ∃ o d, o ∈ others ∧ word o = x
                   ∧ calc_distance w x = Some (Returns d true))).
Proof.
  revert m rc. induction others as [|o others IH]; intros m rc;
    cbn [scan_other_cands].
  - intros [= <- <-]. split; [done|]. split; [done|]. by left.
  - destruct (calc_distance w (word o)) as [[dist related|]|] eqn:Ed; try done.
    intros (Hm & Hkeep & Hnew)%IH. split.
    { destruct (dist <? m)%nat eqn:E; [apply Nat.ltb_lt in E|]; lia. }
    split.
    + intros k x Hx. apply Hkeep. destruct related; [|done].
      destruct (decide (other_lang = k)) as [<-|Hk].
      * rewrite lookup_insert_eq. cbn [default]. apply elem_of_app. by left.
      * by rewrite lookup_insert_ne.
    + intros k x Hx. apply Hnew in Hx as [Hx|(-> & o' & d & Ho' & Hw & Hd)].
      * destruct related; [|by left].
        destruct (decide (other_lang = k)) as [<-|Hk].
        -- rewrite lookup_insert_eq in Hx. cbn [default] in Hx.
           apply elem_of_app in Hx as [?|Hx]; [by left|].
           apply list_elem_of_singleton in Hx as ->.
           right. split; [done|]. exists o, dist. split; [by left|done].
        -- rewrite lookup_insert_ne in Hx by done. by left.
      * right. split; [done|]. exists o', d. split; [by right|done].
Qed.

Lemma scan_langs_sound (lang w : str) (langs : list (str * list Candidate))
    (pen pen' : Z) (rc rc' : gmap str (list str)) :
  scan_langs lang w langs pen rc = Some (pen', rc') →
  (pen ≤ pen' ≤ pen + 1000 * Z.of_nat (length langs))%Z
  ∧ (∀ k x, x ∈ default [] (rc !! k) → x ∈ default [] (rc' !! k))
  ∧ (∀ k x, x ∈ default [] (rc' !! k) →
       x ∈ default [] (rc !! k)
       ∨ (k ≠ lang ∧ k ≠ []
          ∧ ∃ others o d, (k, others) ∈ langs ∧ o ∈ others ∧ word o = x
                          ∧ calc_distance w x = Some (Returns d true))).
Proof.
  revert pen rc. induction langs as [|[other_lang others] langs IH];
    intros pen rc; cbn [scan_langs].
  - intros [= <- <-]. split; [cbn; lia|]. split; [done|]. by left.
  - destruct (bool_decide (other_lang = lang) || (length other_lang =? 0)%nat
              || (length others =? 0)%nat) eqn:Eskip.
    + intros (Hp & Hkeep & Hnew)%IH. split; [cbn [length]; lia|].
      split; [done|]. intros k x Hx.
      apply Hnew in Hx as [?|(? & ? & os & o & d & ? & ?)]; [by left|].
      right. split; [done|]. split; [done|]. exists os, o, d.
      split; [by right|done].
    + apply orb_false_iff in Eskip as [Eskip _].
      apply orb_false_iff in Eskip as [E1 E2].
      apply bool_decide_eq_false in E1. apply Nat.eqb_neq in E2.
      destruct (scan_other_cands w other_lang others 1000 rc)
        as [[min_dist rc1]|] eqn:Es; [|done].
      cbn [mbind option_bind].
      apply scan_other_cands_sound in Es as (Hm & Hk1 & Hn1).
      intros (Hp & Hkeep & Hnew)%IH. split; [cbn [length]; lia|]. split.
      * intros k x Hx. by apply Hkeep, Hk1.
      * intros k x Hx.
        apply Hnew in Hx as [Hx|(? & ? & os & o & d & ? & ?)].
        -- apply Hn1 in Hx as [?|(-> & o & d & ? & ?)]; [by left|].
           right. split; [done|]. split; [by destruct other_lang|].
           exists others, o, d. split; [by left|done].
        -- right. split; [done|]. split; [done|]. exists os, o, d.
           split; [by right|done].
Qed.

End SimPenalties.

(** X14.  [calc_sim_penalties] changes nothing but the raw similarity
    penalty and the related candidates of the candidates of [lang].  The
    penalty stored is at least 0 and at most 1000 for each language of the
    dictionary.  The related candidates recorded before are kept, and
    every one that is added is a candidate of another language with a
    non-empty code for which [calc_distance] reported the two words as
    related. *)
Theorem calc_sim_penalties_sound `{F : PyFloat} (my_lang : str)
    (candidates : list (str * list Candidate)) (result : list Candidate) :
  calc_sim_penalties my_lang candidates = Some result →
  ∃ my_cands,
    lookup_lang my_lang candidates = Some my_cands
    ∧ Forall2 (λ c c',
        word c' = word c ∧ penalty c' = penalty c
        ∧ lang c' = lang c ∧ original c' = original c
        ∧ true_original c' = true_original c ∧ auxlangs c' = auxlangs c
        ∧ simscore c' = simscore c ∧ filled c' = filled c
        ∧ (0 ≤ raw_psim c' ≤ 1000 * Z.of_nat (length candidates))%Z
        ∧ (∀ k x, x ∈ default [] (related_cands c !! k) →
                  x ∈ default [] (related_cands c' !! k))
        ∧ (∀ k x, x ∈ default [] (related_cands c' !! k) →
             x ∈ default [] (related_cands c !! k)
             ∨ (k ≠ my_lang ∧ k ≠ []
                ∧ ∃ others o d,
                    (k, others) ∈ candidates ∧ o ∈ others ∧ word o = x
                    ∧ calc_distance (word c) x = Some (Returns d true))))
      my_cands result.
Proof.
  unfold calc_sim_penalties.
  destruct (lookup_lang my_lang candidates) as [my_cands|]; [|done].
  cbn [mbind option_bind]. intros H%mapM_Some_1. exists my_cands.
  split; [done|]. eapply Forall2_impl; [exact H|].
  intros c c'. unfold with_sim_penalty.
  destruct (scan_langs _ _ _ _ _) as [[pen rc]|] eqn:E; [|done].
  cbn [mbind option_bind]. intros [= <-].
  apply scan_langs_sound in E as (Hp & Hkeep & Hnew).
  cbn [word penalty lang original true_original auxlangs simscore
       filled raw_psim related_cands].
  repeat split; try done; lia.
Qed.

(** The theorem on two languages and a pseudo-candidate without language
    code. *)
Lemma calc_sim_penalties_sound_witness :
  let cand (l w : string) :=
    new_Candidate (F:=exact_floats) (ustr w) 0 (ustr l) (ustr w) None [] in
  let candidates :=
    [(ustr "xx", [cand "xx"%string "kata"%string]);
     (ustr "yy", [cand "yy"%string "kato"%string; cand "yy"%string "mu"%string]);
     ([], [cand ""%string "kat"%string])] in
  ∃ result my_cands,
    calc_sim_penalties (ustr "xx") candidates = Some result
    ∧ lookup_lang (ustr "xx") candidates = Some my_cands
    ∧ Forall2 (λ c c',
        word c' = word c
        ∧ (0 ≤ raw_psim c' ≤ 1000 * Z.of_nat (length candidates))%Z
        ∧ ∀ k x, x ∈ default [] (related_cands c' !! k) →
            x ∈ default [] (related_cands c !! k)
            ∨ (k ≠ ustr "xx" ∧ k ≠ []))
      my_cands result.
Proof.
  intros cand candidates.
  destruct (calc_sim_penalties (ustr "xx") candidates) as [result|] eqn:E;
    [|vm_compute in E; discriminate E].
  destruct (calc_sim_penalties_sound _ _ _ E) as (my_cands & Hl & Hall).
  exists result, my_cands. split; [done|]. split; [done|].
  eapply Forall2_impl; [exact Hall|].
  intros c c' (Hw & _ & _ & _ & _ & _ & _ & _ & Hp & _ & Hnew).
  split; [done|]. split; [done|]. intros k x Hx.
  apply Hnew in Hx as [?|(? & ? & _)]; [by left|by right].
Defined.

(** The same call, run: 'kata' is at distance 1 from 'kato', its nearest
    candidate in the other language, to which alone it is related; the
    pseudo-candidate is not looked at. *)
Example calc_sim_penalties_example :
  let cand (l w : string) :=
    new_Candidate (F:=exact_floats) (ustr w) 0 (ustr l) (ustr w) None [] in
  let candidates :=
    [(ustr "xx", [cand "xx"%string "kata"%string]);
     (ustr "yy", [cand "yy"%string "kato"%string; cand "yy"%string "mu"%string]);
     ([], [cand ""%string "kat"%string])] in
  (λ c, (raw_psim c, map_to_list (related_cands c)))
    <$> default [] (calc_sim_penalties (ustr "xx") candidates)
  = [(1%Z, [(ustr "yy", [ustr "kato"])])].
Proof. by vm_compute. Qed.

(** ** [min_length] *)

(** X15.  [min_length] returns 1 when short candidates are allowed, by the
    command line or by the constraints.  Otherwise it reads the first
    class of the entry: it raises [IndexError] exactly when the entry has
    no class or an empty one, and else returns 3 for a content class and 1
    for any other, logging nothing. *)
Theorem min_length_spec `{U : Unicode} `{F : PyFloat}
    (args_allowshort : option str) (entry : gmap str str)
    (constraints : option Constraints) :
  let relaxed :=
    truthy args_allowshort = true
    ∨ ∃ cs, constraints = Some cs ∧ allowshort cs = true in
  let classes := split_on_commas (default [] (entry !! ustr "class")) in
  (relaxed →
   ∃ logged, min_length args_allowshort entry constraints = Some (1%Z, logged))
  ∧ (¬ relaxed →
     (min_length args_allowshort entry constraints = None
      ↔ default [] (entry !! ustr "class") = [])
     ∧ ∀ n logged,
         min_length args_allowshort entry constraints = Some (n, logged) →
         logged = []
         ∧ (n = 3%Z ∨ n = 1%Z)
         ∧ (n = 3%Z ↔ ∃ first_class, head classes = Some first_class
                                     ∧ first_class ∈ CONTENT_CLASSES)).
Proof.
  intros relaxed classes. unfold min_length. fold classes. split.
  - intros [Ha|(cs & -> & Hcs)].
    + rewrite Ha. cbn [orb]. by eexists.
    + rewrite Hcs, orb_true_r. by eexists.
  - intros Hno.
    assert (truthy args_allowshort
            || match constraints with
               | Some cs => allowshort cs
               | None => false
               end = false) as ->.
    { apply orb_false_iff. split.
      - destruct (truthy args_allowshort) eqn:E; [|done].
        exfalso. apply Hno. by left.
      - destruct constraints as [cs|]; [|done].
        destruct (allowshort cs) eqn:E; [|done].
        exfalso. apply Hno. right. by exists cs. }
    split.
    + split.
      * destruct (head classes) as [fc|] eqn:E; [done|]. intros _.
        destruct (default [] (entry !! ustr "class")) as [|c0 t] eqn:Et; [done|].
        exfalso. apply (split_on_sep_nonnil (c0 :: t) (ustr ", ")); [done|].
        fold (split_on_commas (c0 :: t)). fold classes.
        by destruct classes.
      * intros Hc. subst classes. by rewrite Hc.
    + intros n logged. destruct (head classes) as [fc|] eqn:E; [|done].
      cbn [mbind option_bind]. intros [= <- <-]. split; [done|].
      destruct (bool_decide (fc ∈ CONTENT_CLASSES)) eqn:Eb.
      * apply bool_decide_eq_true in Eb. split; [by left|].
        split; [|done]. intros _. by exists fc.
      * apply bool_decide_eq_false in Eb. split; [by right|].
        split; [done|]. by intros (? & [= <-] & ?).
Qed.

(** ** [cleanup_translation_value] *)

Lemma cleanup_loop_spec (many : bool) (translations result_list : list str)
    (result_set : gset str) :
  let is_comment t :=
    Py.startswith (ustr "(") t && Py.endswith (ustr ")") t in
  result_set = list_to_set result_list → NoDup result_list →
  ∃ added,
    cleanup_loop many translations result_list result_set = result_list ++ added
    ∧ NoDup (result_list ++ added)
    ∧ added `sublist_of` translations
    ∧ (∀ t, t ∈ added → many && is_comment t = false)
    ∧ (∀ t, t ∈ translations → many && is_comment t = false →
            t ∈ result_list ++ added).
Proof.
  intros is_comment. revert result_list result_set.
  induction translations as [|trans rest IH]; intros rl rs Hrs Hnd;
    cbn [cleanup_loop].
  - exists []. rewrite app_nil_r. repeat split; try done.
    + by intros ??%elem_of_nil.
    + by intros ??%elem_of_nil.
  - rewrite <-andb_assoc.
    change (many && (Py.startswith (ustr "(") trans
                     && Py.endswith (ustr ")") trans))
      with (many && is_comment trans).
    destruct (many && is_comment trans) eqn:Ec.
    { destruct (IH rl rs Hrs Hnd) as (added & -> & ? & ? & ? & Hall).
      exists added. repeat split; try done.
      - by apply sublist_cons.
      - intros t [->|Ht]%elem_of_cons Hn; [congruence|by apply Hall]. }
    destruct (bool_decide (trans ∈ rs)) eqn:Ein.
    { apply bool_decide_eq_true in Ein.
      destruct (IH rl rs Hrs Hnd) as (added & -> & ? & ? & ? & Hall).
      exists added. repeat split; try done.
      - by apply sublist_cons.
      - intros t [->|Ht]%elem_of_cons Hn; [|by apply Hall].
        apply elem_of_app. left. subst rs. by apply elem_of_list_to_set in Ein. }
    apply bool_decide_eq_false in Ein.
    assert (trans ∉ rl) as Hnot.
    { intros ?. apply Ein. subst rs. by apply elem_of_list_to_set. }
    destruct (IH (rl ++ [trans]) ({[trans]} ∪ rs))
      as (added & -> & Hnd' & Hsub & Hnc & Hall).
    { subst rs. rewrite list_to_set_app_L. cbn [list_to_set].
      rewrite (right_id_L ∅ (∪)). apply (comm_L (∪)). }
    { apply NoDup_app. split; [done|]. split; [|apply NoDup_singleton].
      intros x Hx ->%list_elem_of_singleton. done. }
    exists (trans :: added). rewrite <-app_assoc in *. cbn [app] in *.
    repeat split; try done.
    + by apply sublist_skip.
    + intros t [->|Ht]%elem_of_cons; [done|by apply Hnc].
    + intros t [->|Ht]%elem_of_cons Hn; [|by apply Hall].
      apply elem_of_app. right. by left.
Qed.

(** X16.  The translations that [cleanup_translation_value] keeps: they
    are translations of the list, in the order of the list and without
    repetition; at least one is kept when there is any.  When there are
    several, every translation that is not a comment in parentheses is
    kept, and a comment is kept only when all of them are comments. *)
Theorem cleanup_translations_spec (translations : list str) :
  let is_comment t :=
    Py.startswith (ustr "(") t && Py.endswith (ustr ")") t in
  let kept := cleanup_translations translations in
  NoDup kept
  ∧ kept `sublist_of` translations
  ∧ (translations ≠ [] → kept ≠ [])
  ∧ (∀ t, t ∈ translations →
          length translations ≤ 1 ∨ is_comment t = false → t ∈ kept)
  ∧ (∀ t, t ∈ kept → 1 < length translations → is_comment t = true →
          ∀ t', t' ∈ translations → is_comment t' = true).
Proof.
  intros is_comment kept. subst kept. unfold cleanup_translations. cbv zeta.
  destruct (cleanup_loop_spec (1 <? length translations)%nat translations [] ∅)
    as (added & -> & Hnd & Hsub & Hnc & Hall); [done|constructor|].
  cbn [app] in *. subst is_comment. cbv beta in *.
  destruct added as [|a added].
  - destruct translations as [|first rest].
    + split; [constructor|]. split; [done|]. split; [done|].
      split; by intros ? ?%elem_of_nil.
    + split; [apply NoDup_singleton|].
      split; [apply sublist_skip, sublist_nil_l|]. split; [done|]. split.
      * intros t Ht Hcase.
        exfalso. apply (elem_of_nil t), Hall; [done|].
        destruct Hcase as [Hlen| ->]; [|apply andb_false_r].
        destruct (Nat.ltb_spec 1 (length (first :: rest))); [lia|done].
      * intros t _ Hlen _ t' Ht'.
        destruct (_ && _) eqn:E; [done|].
        exfalso. apply (elem_of_nil t'), Hall; [done|].
        by rewrite E, andb_false_r.
  - split; [done|]. split; [done|]. split; [done|]. split.
    + intros t Ht Hcase. apply Hall; [done|].
      destruct Hcase as [Hlen| ->]; [|apply andb_false_r].
      destruct (Nat.ltb_spec 1 (length translations)); [lia|done].
    + intros t Ht Hlen Hc. exfalso.
      specialize (Hnc t Ht). rewrite Hc, andb_true_r in Hnc.
      apply Nat.ltb_ge in Hnc. lia.
Qed.

(** ** [validate] and [extract_text_in_brackets] *)

(** X17.  A candidate that [validate] accepts is written in the internal
    alphabet: each of its characters is a consonant or a vowel of that
    alphabet, or a space. *)
Theorem validate_alphabet `{U : Unicode} `{F : PyFloat} (c : Candidate)
    (ch : char) :
  (validate c).1 = None → ch ∈ word c →
  ch ∈ ALL_CONSONANTS ++ INTERNAL_VOWELS ++ ustr " ".
Proof.
  unfold validate. cbv zeta.
  generalize (ALL_CONSONANTS ++ INTERNAL_VOWELS ++ ustr " "). intros alphabet.
  destruct (bool_decide _) eqn:E; [done|]. intros _ Hch.
  apply bool_decide_eq_false in E.
  destruct (decide (ch ∈ alphabet)) as [|Hnot]; [done|].
  exfalso. apply E. intros Hempty.
  assert (ch ∈ (list_to_set (word c) ∖ list_to_set alphabet : gset N)) as Hin.
  { apply elem_of_difference. split; [by apply elem_of_list_to_set|].
    by rewrite elem_of_list_to_set. }
  rewrite Hempty in Hin. by apply elem_of_empty in Hin.
Qed.

Lemma validate_alphabet_witness :
  uchr "k" ∈ ALL_CONSONANTS ++ INTERNAL_VOWELS ++ ustr " ".
Proof.
  apply (validate_alphabet (U:=basic_unicode) (F:=exact_floats)
           (new_Candidate (ustr "kasa") 0 (ustr "xx") (ustr "kasa") None [])).
  - by vm_compute.
  - vm_compute. apply list_elem_of_here.
Defined.

(** X18.  [extract_text_in_brackets] returns the text between the first
    opening bracket and the first closing bracket, when there is no
    bracket before them.  Without an opening bracket, or without a closing
    one, it returns the whole text or nothing, as it is told. *)
Theorem extract_text_in_brackets_spec (before inner rest text : str)
    (otherwise_return_fully : bool) :
  (uchr "[" ∉ before → uchr "]" ∉ before → uchr "]" ∉ inner →
   extract_text_in_brackets (before ++ ustr "[" ++ inner ++ ustr "]" ++ rest)
                            otherwise_return_fully = Some inner)
  ∧ (uchr "[" ∉ text ∨ uchr "]" ∉ text →
     extract_text_in_brackets text otherwise_return_fully
     = if otherwise_return_fully then Some text else None).
Proof.
  unfold extract_text_in_brackets. cbv zeta.
  change (ustr "[") with [uchr "["]. change (ustr "]") with [uchr "]"].
  split.
  - intros H1 H2 H3. cbn [app]. rewrite find_first by done.
    change (before ++ uchr "[" :: inner ++ uchr "]" :: rest)
      with (before ++ [uchr "["] ++ inner ++ uchr "]" :: rest).
    rewrite !app_assoc, find_first.
    2:{ intros [[?|H]%elem_of_app|?]%elem_of_app; try done.
        by apply list_elem_of_singleton in H. }
    rewrite !length_app. cbn [length].
    destruct (Nat.ltb_spec (length before) (length before + 1 + length inner));
      [|lia].
    f_equal. rewrite <-!app_assoc.
    replace (length before + 1) with (length (before ++ [uchr "["]))
      by (rewrite length_app; cbn; lia).
    rewrite app_assoc, drop_app_length.
    replace (length (before ++ [uchr "["]) + length inner
             - length (before ++ [uchr "["])) with (length inner) by lia.
    apply take_app_length.
  - intros [H|H]; rewrite (find_absent _ _ H); [done|].
    by destruct (Py.find [uchr "["] text).
Qed.

(** ** [print_cands]: the star *)

Section Star.
Context {U : Unicode} {F : PyFloat}.

Lemma print_cand_star (vb : VocBuilder) (min_length : Z)
    (constraints : option Constraints) (best : float) (st : print_state)
    (cand : Candidate) :
  ∃ p, printed (print_cand vb min_length constraints best st cand)
       = printed st ++ [InfoCandidate p (feq (total_score cand) best) cand].
Proof.
  unfold print_cand. cbv zeta.
  repeat match goal with
         | |- context [if ?b then _ else _] => destruct b
         end; by eexists.
Qed.

Lemma print_loop_stars (vb : VocBuilder) (min_length : Z)
    (constraints : option Constraints) (best : float) (l : list Candidate)
    (st : print_state) :
  ∃ new,
    printed (foldl (print_cand vb min_length constraints best) st l)
    = printed st ++ new
    ∧ Forall (λ m, ∃ p x, m = InfoCandidate p (feq (total_score x) best) x) new
    ∧ ∀ x, x ∈ l → ∃ p, InfoCandidate p (feq (total_score x) best) x ∈ new.
Proof.
  revert st. induction l as [|c l IH]; intros st; cbn [foldl].
  - exists []. rewrite app_nil_r. split; [done|]. split; [constructor|].
    by intros ??%elem_of_nil.
  - destruct (print_cand_star vb min_length constraints best st c) as [p Hp].
    destruct (IH (print_cand vb min_length constraints best st c))
      as (new & -> & Hall & Hin).
    rewrite Hp, <-app_assoc. eexists. split; [done|]. split.
    + constructor; [by eexists _, _|done].
    + intros x [->|Hx]%elem_of_cons.
      * exists p. by left.
      * destruct (Hin x Hx) as [q Hq]. exists q. by right.
Qed.

Context {L : PyFloatLaws F}.

Lemma foldl_best_score (l : list Candidate) (m : float) :
  let best := foldl (λ m x, if flt m (total_score x) then total_score x else m)
                    m l in
  fle m best = true
  ∧ (∀ x, x ∈ l → fle (total_score x) best = true)
  ∧ (best = m ∨ ∃ x, x ∈ l ∧ best = total_score x).
Proof using L.
  revert m. induction l as [|c l IH]; intros m; cbn [foldl].
  - split; [|split; [by intros ??%elem_of_nil|by left]].
    by destruct (fle_total m m).
  - destruct (IH (if flt m (total_score c) then total_score c else m))
      as (Hm & Hall & Hat).
    destruct (flt m (total_score c)) eqn:E.
    + split; [|split].
      * eapply fle_trans; [by apply flt_fle|done].
      * intros x [->|Hx]%elem_of_cons; [done|by apply Hall].
      * right. destruct Hat as [->|(x & Hx & ->)].
        -- exists c. split; [by left|done].
        -- exists x. split; [by right|done].
    + split; [done|]. split.
      * intros x [->|Hx]%elem_of_cons; [|by apply Hall].
        eapply fle_trans; [|exact Hm]. unfold flt in E.
        by apply negb_false_iff in E.
      * destruct Hat as [->|(x & Hx & ->)]; [by left|].
        right. exists x. split; [by right|done].
Qed.

End Star.

(** X19.  The score that [print_cands] marks with a star is the highest
    total score of the candidates, as the floats compare: no candidate has
    a higher one and some candidate has exactly that score.  Every printed
    line carries the star exactly when the total score of its candidate
    equals it, and at least one line carries it. *)
Theorem print_cands_star `{U : Unicode} `{F : PyFloat} `{L : !PyFloatLaws F}
    (vb : VocBuilder) (c : Candidate) (rest : list Candidate)
    (min_length : Z) (constraints : option Constraints) :
  let best := best_total_score c rest in
  (∀ x, x ∈ c :: rest → fle (total_score x) best = true)
  ∧ (∃ x, x ∈ c :: rest ∧ total_score x = best)
  ∧ ∃ printed,
      LOG (print_cands vb (c :: rest) min_length constraints).2
      = LOG vb ++ printed
      ∧ Forall (λ m, ∃ p x, m = InfoCandidate p (feq (total_score x) best) x)
               printed
      ∧ Exists (λ m, ∃ p x, m = InfoCandidate p true x) printed.
Proof.
  intros best.
  destruct (foldl_best_score rest (total_score c)) as (Hc & Hrest & Hat).
  fold (best_total_score c rest) in Hc, Hrest, Hat. fold best in Hc, Hrest, Hat.
  assert (∃ x, x ∈ c :: rest ∧ total_score x = best) as (b & Hb & Hbest).
  { destruct Hat as [->|(x & Hx & ->)].
    - exists c. split; [by left|done].
    - exists x. split; [by right|done]. }
  split; [by intros x [->|?]%elem_of_cons; [|apply Hrest]|].
  split; [by exists b|].
  unfold print_cands, print_cands_run. cbn [fst snd LOG log]. fold best.
  destruct (print_loop_stars vb min_length constraints best
              (sorted (c :: rest)) (mkPrintState 1 [] [] []))
    as (new & -> & Hall & Hin).
  cbn [printed app]. exists new. split; [done|]. split; [done|].
  destruct (Hin b) as [p Hp].
  { by rewrite sorted_perm. }
  apply Exists_exists. eexists. split; [exact Hp|].
  exists p, b. f_equal. rewrite Hbest.
  rewrite feq_fle. by destruct (fle_total best best) as [-> | ->].
Qed.

Lemma print_cands_star_witness :
  let vb := empty_builder (F:=exact_floats) in
  let cand (w : string) (p : Z) :=
    mkCandidate (F:=exact_floats)
      (ustr w) p (ustr "xx") (ustr w) None [] 0 (of_int 1) ∅ true in
  let c := cand "kato"%string 1%Z in
  let rest := [cand "ka"%string 0%Z; cand "kata"%string 0%Z] in
  let best := best_total_score c rest in
  (∀ x, x ∈ c :: rest → fle (total_score x) best = true)
  ∧ (∃ x, x ∈ c :: rest ∧ total_score x = best)
  ∧ ∃ printed,
      LOG (print_cands (U:=basic_unicode) vb (c :: rest) 3 None).2
      = LOG vb ++ printed
      ∧ Forall (λ m, ∃ p x, m = InfoCandidate p (feq (total_score x) best) x)
               printed
      ∧ Exists (λ m, ∃ p x, m = InfoCandidate p true x) printed.
Proof.
  intros vb cand c rest.
  apply (print_cands_star (U:=basic_unicode) (F:=exact_floats)
           (L:=exact_floats_laws)).
Defined.

(** ** [build_candidates_for_lang]: no word twice *)

(** X20.  [build_candidates_for_lang] returns no word twice: started with
    a cache that refers into the heap and with schwa stripping off, when
    it returns, the candidates it returns are repaired and no two of them
    have the same word. *)
Theorem build_candidates_for_lang_distinct `{U : Unicode} `{F : PyFloat}
    (preprocess_candidate_word : str → str → str → str)
    (postprocess_candidate : str → str → str → str → str)
    (vb vb' : VocBuilder) (langcode conv_dict_name : str)
    (entry : gmap str str) (cands : list nat) :
  cache_refs_valid vb →
  schwastrip (args vb) = false →
  build_candidates_for_lang preprocess_candidate_word postprocess_candidate
    vb langcode conv_dict_name entry = Some (cands, vb') →
  ∃ cs,
    Forall2 (λ ref c, heap vb' !! ref = Some c ∧ filled c = true) cands cs
    ∧ NoDup (word <$> cs).
Proof.
  intros Hc Hs. unfold build_candidates_for_lang. cbv zeta.
  destruct (default [] (entry !! langcode)) as [|r0 raw] eqn:E.
  - intros [= <- <-]. exists []. split; constructor.
  - destruct (build_candidates_start langcode vb Hc Hs) as (Hg & Hd & Hk).
    pose proof (build_candidates_loop_inv preprocess_candidate_word
                  postprocess_candidate langcode conv_dict_name
                  (default [] (entry !! ustr "class")) vb
                  (split_on_semicolons (r0 :: raw)) [] (vb, ∅, []) Hg Hd Hk)
      as Hloop.
    destruct (build_candidates_loop _ _ _ _ _ _ _) as [[[vb1 set'] cands1]|];
      [|done].
    destruct Hloop as (_ & (cs & Hcs & Hnd) & _).
    cbn [mbind option_bind fst snd]. intros [= <- <-]. exists cs.
    split; [|done].
    eapply Forall2_impl; [exact Hcs|]. by intros r c (? & ? & _).
Qed.

(** The word 'kasa' given twice, and once more in upper case. *)
Lemma build_candidates_for_lang_distinct_witness :
  ∃ cands vb',
    build_candidates_for_lang (U:=basic_unicode) (F:=exact_floats)
      (λ w _ _, w) (λ w _ _ _, w) empty_builder (ustr "xx") (ustr "xx")
      {[ ustr "xx" := ustr "kasa; kasa; KASA; mata" ]}
    = Some (cands, vb')
    ∧ ∃ cs,
        Forall2 (λ ref c, heap vb' !! ref = Some c ∧ filled c = true) cands cs
        ∧ NoDup (word (F:=exact_floats) <$> cs).
Proof.
  eexists _, _. split; [by vm_compute|].
  apply (build_candidates_for_lang_distinct (U:=basic_unicode)
           (F:=exact_floats) (λ w _ _, w) (λ w _ _ _, w) empty_builder _
           (ustr "xx") (ustr "xx")
           {[ ustr "xx" := ustr "kasa; kasa; KASA; mata" ]}).
  - intros key ref H. cbn [candi_cache empty_builder] in H.
    by rewrite lookup_empty in H.
  - reflexivity.
  - by vm_compute.
Defined.

Example build_candidates_repeats_example :
  fst <$> build_candidates_for_lang (U:=basic_unicode) (F:=exact_floats)
            (λ w _ _, w) (λ w _ _ _, w) empty_builder (ustr "xx") (ustr "xx")
            {[ ustr "xx" := ustr "kasa; kasa; KASA; mata" ]}
  = Some [0; 2].
Proof. by vm_compute. Qed.

(** ** Line dictionaries *)

Lemma dict_set_absent {V} (key : str) (v : V) (d : list (str * V)) :
  key ∉ d.*1 → dict_set key v d = d ++ [(key, v)].
Proof.
  induction d as [|[k x] d IH]; [done|]. cbn [fmap list_fmap fst dict_set app].
  intros [Hne Hd]%not_elem_of_cons.
  rewrite bool_decide_eq_false_2 by done. by rewrite <-IH.
Qed.

Lemma line_boundary_isspace (c : char) :
  is_line_boundary c = true → Py.isspace c = true.
Proof.
  unfold is_line_boundary, Py.isspace.
  rewrite !orb_true_iff, !andb_true_iff, !N.leb_le, !N.eqb_eq. lia.
Qed.

(** A line that holds no line boundary and is closed by a line feed is
    split off as it is. *)
Lemma splitlines_go_line (l rest cur : str) :
  (∀ x, x ∈ l → is_line_boundary x = false) →
  splitlines_go (l ++ 10%N :: rest) cur false
  = (rev cur ++ l) :: splitlines_go rest [] false.
Proof.
  revert cur. induction l as [|x l IH]; intros cur Hl.
  - cbn [app splitlines_go andb]. change (is_line_boundary 10) with true.
    cbn match. by rewrite app_nil_r.
  - cbn [app splitlines_go andb]. rewrite Hl by by left.
    rewrite IH by (intros ??; apply Hl; by right).
    cbn [rev]. by rewrite <-app_assoc.
Qed.

Lemma splitlines_lines (lines : list str) :
  Forall (λ l, ∀ x, x ∈ l → is_line_boundary x = false) lines →
  splitlines (concat ((λ l, l ++ [10%N]) <$> lines)) = lines.
Proof.
  unfold splitlines. induction 1 as [|l lines Hl _ IH]; [done|].
  cbn [fmap list_fmap concat]. rewrite <-app_assoc. cbn [app].
  by rewrite splitlines_go_line, IH.
Qed.

Lemma stringify_dict_lines (d : LineDict) :
  stringify_dict d
  = concat ((λ l, l ++ [10%N])
            <$> ((λ kv, normalize kv.1 ++ ustr ": " ++ normalize kv.2)
                 <$> _store d)).
Proof.
  unfold stringify_dict. generalize (_store d). intros items.
  enough (∀ acc,
    foldl (λ result '(key, value),
             result ++ normalize key ++ ustr ": " ++ normalize value ++ [10%N])
          acc items
    = acc ++ concat ((λ l, l ++ [10%N])
                     <$> ((λ kv, normalize kv.1 ++ ustr ": " ++ normalize kv.2)
                          <$> items))) as H by apply (H []).
  induction items as [|[k v] items IH]; intros acc.
  - cbn. by rewrite app_nil_r.
  - cbn [foldl fmap list_fmap concat fst snd]. rewrite IH.
    by rewrite <-!app_assoc.
Qed.

Lemma normalize_spaced (text : str) : spaced (normalize text).
Proof. eexists. split; [done|]. apply split_words. Qed.

Lemma spaced_chars (s : str) (x : char) :
  spaced s → x ∈ s → x = 32%N ∨ Py.isspace x = false.
Proof.
  intros (words & -> & H). induction H as [|w words [_ Hw] _ IH];
    [by intros ?%elem_of_nil|].
  destruct words as [|w' words].
  - cbn [Py.join]. intros Hx. right. by apply Hw.
  - change (Py.join (ustr " ") (w :: w' :: words))
      with (w ++ 32%N :: Py.join (ustr " ") (w' :: words)).
    intros [Hx|[->|Hx]%elem_of_cons]%elem_of_app;
      [right; by apply Hw|by left|by apply IH].
Qed.

Lemma spaced_no_boundary (s : str) (x : char) :
  spaced s → x ∈ s → is_line_boundary x = false.
Proof.
  intros Hs Hx. destruct (spaced_chars _ _ Hs Hx) as [->|Hsp]; [done|].
  destruct (is_line_boundary x) eqn:E; [|done].
  apply line_boundary_isspace in E. congruence.
Qed.

Lemma spaced_strip (s : str) : spaced s → Py.strip s = s.
Proof. intros (words & -> & H). by apply strip_join. Qed.

Lemma spaced_head (s : str) :
  spaced s → s ≠ [] → ∃ c t, s = c :: t ∧ Py.isspace c = false.
Proof.
  intros (words & -> & H) Hne. destruct words as [|w words]; [done|].
  by destruct (join_ends _ H) as [? _].
Qed.

Lemma spaced_last (s : str) :
  spaced s → s ≠ [] → ∃ t c, s = t ++ [c] ∧ Py.isspace c = false.
Proof.
  intros (words & -> & H) Hne. destruct words as [|w words]; [done|].
  by destruct (join_ends _ H) as [_ ?].
Qed.

Lemma partition_at_first (sep : char) (a b : str) :
  sep ∉ a → partition_at sep (a ++ sep :: b) = Some (a, b).
Proof.
  induction a as [|x a IH]; intros Ha; cbn [app partition_at].
  - by rewrite N.eqb_refl.
  - apply not_elem_of_cons in Ha as [Hne Ha].
    destruct (N.eqb_spec x sep) as [->|_]; [done|]. by rewrite IH.
Qed.

Lemma startswith_other (x c : char) (p s t : str) :
  x ≠ c → Py.startswith (x :: p) ((c :: s) ++ t) = false.
Proof.
  intros H. cbn [app Py.startswith]. by destruct (N.eqb_spec x c).
Qed.

(** Reading a line written by [stringify_dict] adds its key and value. *)
Lemma dict_from_str_line_written (st : parse_state) (key value : str) :
  spaced key → spaced value → key ≠ [] →
  uchr ":" ∉ key → Py.startswith (ustr "#") key = false →
  key ∉ (_store (ps_result st)).*1 →
  key ∉ (_lines (ps_result st)).*1 →
  dict_from_str_line st (key ++ ustr ": " ++ value)
  = Some (mkParseState (ps_lineno st + 1)
            (mkLineDict (filename (ps_result st))
               (_store (ps_result st) ++ [(key, value)])
               (match _first_lineno (ps_result st) with
                | None => Some (ps_lineno st + 1)%Z
                | Some n => Some n
                end)
               (_lines (ps_result st) ++ [(key, (ps_lineno st + 1)%Z)]))
            (Some key) (ps_warnings st)).
Proof.
  intros Hk Hv Hne Hcolon Hhash Hstore Hlines.
  destruct (spaced_head _ Hk Hne) as (c & t & -> & Hc).
  assert (Py.rstrip ((c :: t) ++ ustr ": " ++ value)
          = (c :: t) ++ uchr ":" :: (if bool_decide (value = []) then []
                                     else 32%N :: value)) as Hr.
  { case_bool_decide as Hval.
    - subst value. unfold Py.rstrip.
      change (ustr ": " ++ []) with ([58%N] ++ [32%N]).
      rewrite app_assoc, rev_unit. cbn [Py.lstrip].
      change (Py.isspace 32) with true. cbn match.
      rewrite rev_unit. cbn [Py.lstrip]. change (Py.isspace 58) with false.
      cbn match. rewrite <-rev_unit. by rewrite rev_involutive.
    - destruct (spaced_last _ Hv Hval) as (t' & c' & -> & Hc').
      change (ustr ": " ++ t' ++ [c']) with (58%N :: 32%N :: t' ++ [c']).
      change (uchr ":" :: 32%N :: t' ++ [c']) with ([58%N; 32%N] ++ t' ++ [c']).
      change (58%N :: 32%N :: t' ++ [c']) with ([58%N; 32%N] ++ t' ++ [c']).
      rewrite !app_assoc. by apply rstrip_snoc. }
  unfold dict_from_str_line. cbv zeta. rewrite Hr. clear Hr.
  assert (c ≠ 32%N ∧ c ≠ 9%N ∧ c ≠ 35%N) as (Hc32 & Hc9 & Hc35).
  { split; [|split]; intros ->; [done|done|].
    by cbn in Hhash. }
  assert (Py.startswith (ustr "  ") ((c :: t) ++ uchr ":" :: (if bool_decide (value = []) then [] else 32%N :: value)) = false) as ->.
  { by apply (startswith_other 32%N). }
  rewrite bool_decide_eq_false_2 by done.
  assert (Py.lstrip ((c :: t) ++ uchr ":" :: (if bool_decide (value = []) then [] else 32%N :: value)) = (c :: t) ++ uchr ":" :: (if bool_decide (value = []) then [] else 32%N :: value)) as ->.
  { cbn [app]. by apply lstrip_id. }
  assert (Py.startswith (ustr "#") ((c :: t) ++ uchr ":" :: (if bool_decide (value = []) then [] else 32%N :: value)) = false) as ->.
  { by apply (startswith_other 35%N). }
  cbn [orb]. cbn [app head].
  rewrite !bool_decide_eq_false_2
    by (intros [= E]; first [exact (Hc32 E) | exact (Hc9 E)]).
  cbn [orb].
  unfold split_1. change (c :: t ++ ?r) with ((c :: t) ++ r).
  rewrite partition_at_first by done.
  rewrite (spaced_strip _ Hk).
  assert (Py.strip (if bool_decide (value = []) then [] else 32%N :: value)
          = value) as ->.
  { case_bool_decide as Hval; [by subst|].
    rewrite <-(spaced_strip _ Hv) at 2. unfold Py.strip. cbn [Py.lstrip].
    by change (Py.isspace 32) with true. }
  rewrite bool_decide_eq_false_2 by done.
  unfold LineDict_add. rewrite bool_decide_eq_false_2 by done.
  rewrite !dict_set_absent by done. by rewrite !app_nil_r.
Qed.

Lemma spaced_normalize (s : str) : spaced s → normalize s = s.
Proof.
  intros (words & -> & H). unfold normalize.
  by rewrite (strip_join _ H), (split_join _ H).
Qed.

Lemma dict_from_str_loop_written (items : list (str * str)) (st : parse_state) :
  Forall writable_key items.*1 →
  NoDup (normalize <$> items.*1) →
  (∀ key, key ∈ items.*1 → normalize key ∉ (_store (ps_result st)).*1) →
  (_lines (ps_result st)).*1 = (_store (ps_result st)).*1 →
  ∃ st',
    dict_from_str_loop st
      ((λ kv, normalize kv.1 ++ ustr ": " ++ normalize kv.2) <$> items)
    = Some st'
    ∧ _store (ps_result st')
      = _store (ps_result st) ++ (prod_map normalize normalize <$> items)
    ∧ _lines (ps_result st')
      = _lines (ps_result st)
        ++ imap (λ i kv, (normalize kv.1, (ps_lineno st + 1 + Z.of_nat i)%Z)) items
    ∧ ps_warnings st' = ps_warnings st.
Proof.
  revert st. induction items as [|[k v] items IH]; intros st Hw Hnd Hfresh Hl.
  - exists st. cbn. by rewrite !app_nil_r.
  - cbn [fmap list_fmap fst snd] in Hw, Hnd, Hfresh.
    apply Forall_cons in Hw as [(Hne & Hcolon & Hhash) Hw].
    apply NoDup_cons in Hnd as [Hk Hnd].
    cbn [fmap list_fmap dict_from_str_loop fst snd].
    rewrite (dict_from_str_line_written st (normalize k) (normalize v));
      [|apply normalize_spaced|apply normalize_spaced|done|done|done
       |apply Hfresh; by left|rewrite Hl; apply Hfresh; by left].
    cbn [mbind option_bind].
    edestruct IH as (st' & -> & Hs & Hls & Hws); [exact Hw|exact Hnd| | |].
    + cbn [ps_result _store]. intros key Hkey.
      rewrite fmap_app. cbn [fmap list_fmap fst].
      intros [Hin|Hin%list_elem_of_singleton]%elem_of_app.
      * revert Hin. apply Hfresh. by right.
      * apply Hk. rewrite <-Hin. apply list_elem_of_fmap. by exists key.
    + cbn [ps_result _store _lines]. rewrite !fmap_app. by rewrite Hl.
    + exists st'. split; [done|].
      cbn [ps_result _store _lines ps_warnings ps_lineno] in Hs, Hls, Hws.
      split; [by rewrite Hs, <-app_assoc|]. split; [|done].
      rewrite Hls, <-app_assoc. cbn [app imap fst]. f_equal. f_equal.
      * f_equal. lia.
      * apply imap_ext. intros i x _. cbn. f_equal. lia.
Qed.

(** X21.  Writing a dictionary and reading it back: when the normalized
    keys are distinct, not empty, without a colon and do not start with
    '#', [dict_from_str] reads what [stringify_dict] wrote without a
    warning; it returns the keys and values normalized, in their order,
    its line numbers count from [firstline], and writing it again gives
    the same text. *)
Theorem dict_from_str_stringify_dict (d : LineDict) (firstline : Z)
    (file : option str) :
  NoDup (normalize <$> (_store d).*1) →
  Forall writable_key (_store d).*1 →
  ∃ d', dict_from_str (stringify_dict d) firstline file = Some (d', [])
        ∧ _store d' = prod_map normalize normalize <$> _store d
        ∧ _lines d'
          = imap (λ i kv, (normalize kv.1, (firstline + Z.of_nat i)%Z)) (_store d)
        ∧ stringify_dict d' = stringify_dict d.
Proof.
  intros Hnd Hw. unfold dict_from_str.
  rewrite stringify_dict_lines, splitlines_lines.
  2:{ apply Forall_fmap, Forall_forall. intros [k v] _ x. cbn [fst snd].
      intros [Hx|[Hx|Hx]%elem_of_app]%elem_of_app.
      - eapply spaced_no_boundary; [apply normalize_spaced|done].
      - apply elem_of_cons in Hx as [->|Hx]; [done|].
        by apply list_elem_of_singleton in Hx as ->.
      - eapply spaced_no_boundary; [apply normalize_spaced|done]. }
  destruct (dict_from_str_loop_written (_store d)
              (mkParseState (firstline - 1) (mkLineDict file [] None []) None []))
    as (st' & -> & Hs & Hls & Hws); [done|done|by intros ?? ?%elem_of_nil|done|].
  cbn [mbind option_bind ps_result ps_warnings ps_lineno _store _lines app]
    in Hs, Hls, Hws |- *.
  exists (ps_result st'). rewrite Hws. split; [done|]. split; [done|]. split.
  - rewrite Hls. apply imap_ext. intros i x _. cbn. f_equal. lia.
  - rewrite !stringify_dict_lines, Hs. do 2 f_equal.
    rewrite <-list_fmap_compose. apply list_fmap_ext. intros i [k v] _.
    cbn [compose prod_map fst snd].
    by rewrite !(spaced_normalize _ (normalize_spaced _)).
Qed.

(** A key and a value with blanks to be normalized. *)
Lemma dict_from_str_stringify_dict_witness :
  let d := mkLineDict None [(ustr "word", ustr "kasa");
                            (ustr " en ", ustr "house,   home ")] None [] in
  ∃ d', dict_from_str (stringify_dict d) 5 None = Some (d', [])
        ∧ _store d' = prod_map normalize normalize <$> _store d
        ∧ _lines d' = imap (λ i kv, (normalize kv.1, (5 + Z.of_nat i)%Z)) (_store d)
        ∧ stringify_dict d' = stringify_dict d.
Proof.
  intros d. apply (dict_from_str_stringify_dict d 5 None).
  - apply (bool_decide_unpack _). by vm_compute.
  - apply Forall_cons_2; [|apply Forall_cons_2; [|apply Forall_nil_2]];
      (split; [by vm_compute|split; [absent_char|by vm_compute]]).
Defined.

Example dict_from_str_example :
  (λ r, (_store r.1, _lines r.1, r.2))
  <$> dict_from_str (ustr "word: kasa" ++ 10%N :: ustr "en:house" ++ 10%N
                     :: ustr "  home" ++ 13%N :: 10%N :: ustr "# note"
                     ++ 10%N :: ustr "  lost") 1 None
  = Some ([(ustr "word", ustr "kasa");
           (ustr "en", ustr "house" ++ 10%N :: ustr "home")],
          [(ustr "word", 1%Z); (ustr "en", 2%Z)],
          [WarnUnexpectedContinuation None 5 true (ustr "lost")]).
Proof. by vm_compute. Qed.

(** *** What [dict_from_str] stores *)

Lemma dict_set_keys {V} (key : str) (v : V) (d : list (str * V)) :
  (dict_set key v d).*1
  = if bool_decide (key ∈ d.*1) then d.*1 else d.*1 ++ [key].
Proof.
  induction d as [|[k x] d IH]; [done|]. cbn [dict_set fmap list_fmap fst].
  destruct (decide (k = key)) as [->|Hk].
  - rewrite !bool_decide_eq_true_2; [done|by left|done].
  - rewrite (bool_decide_eq_false_2 (k = key)) by done.
    cbn [fmap list_fmap fst]. rewrite IH.
    destruct (decide (key ∈ d.*1)) as [Hin|Hin].
    + rewrite !bool_decide_eq_true_2; [done|by right|done].
    + rewrite !bool_decide_eq_false_2; [done| |done].
      intros [?|?]%elem_of_cons; [by subst|done].
Qed.

Lemma dict_get_present {V} (key : str) (d : list (str * V)) :
  key ∈ d.*1 → is_Some (dict_get key d).
Proof.
  induction d as [|[k x] d IH]; [by intros ?%elem_of_nil|].
  cbn [fmap list_fmap fst dict_get]. intros [->|Hin]%elem_of_cons.
  - by rewrite bool_decide_eq_true_2.
  - case_bool_decide; [done|by apply IH].
Qed.

Lemma dict_set_values {V} (P : V → Prop) (key : str) (v : V)
    (d : list (str * V)) :
  P v → Forall (λ kn, P kn.2) d → Forall (λ kn, P kn.2) (dict_set key v d).
Proof.
  intros Hv. induction 1 as [|[k x] d Hx Hd IH]; cbn [dict_set].
  - by repeat constructor.
  - case_bool_decide; constructor; done.
Qed.

Lemma partition_at_spec (sep : char) (s a b : str) :
  partition_at sep s = Some (a, b) → s = a ++ sep :: b ∧ sep ∉ a.
Proof.
  revert a. induction s as [|c s IH]; intros a; [done|]. cbn [partition_at].
  destruct (N.eqb_spec c sep) as [->|Hne].
  - intros [= <- <-]. split; [done|]. by intros ?%elem_of_nil.
  - destruct (partition_at sep s) as [[a' b']|]; [|done].
    intros [= <- <-]. destruct (IH a' eq_refl) as [-> Ha]. split; [done|].
    by intros [?|?]%elem_of_cons.
Qed.

Lemma lstrip_head (s : str) (c : char) (t : str) :
  Py.lstrip s = c :: t → Py.isspace c = false.
Proof.
  induction s as [|x s IH]; [done|]. cbn [Py.lstrip].
  destruct (Py.isspace x) eqn:Ex; [done|]. by intros [= <- _].
Qed.

Lemma lstrip_spaces (sp s : str) :
  Forall (λ c, Py.isspace c = true) sp → Py.lstrip (sp ++ s) = Py.lstrip s.
Proof.
  induction 1 as [|c sp Hc _ IH]; [done|]. cbn [app Py.lstrip]. by rewrite Hc.
Qed.

Lemma strip_idemp (s : str) : Py.strip (Py.strip s) = Py.strip s.
Proof.
  unfold Py.strip. destruct (Py.rstrip (Py.lstrip s)) as [|c t] eqn:E; [done|].
  destruct (rstrip_prefix (Py.lstrip s)) as (sp & E' & _). rewrite E in E'.
  pose proof (lstrip_head _ _ _ E') as Hc.
  rewrite lstrip_id by done. rewrite <-E.
  unfold Py.rstrip. by rewrite rev_involutive, lstrip_idemp.
Qed.

(** The first character of a stripped, non-empty part of a line is the
    first character of the line after its leading whitespace. *)
Lemma strip_first (a r : str) (c : char) (t : str) :
  Py.strip a = c :: t → ∃ t', Py.lstrip (a ++ r) = c :: t'.
Proof.
  unfold Py.strip. intros E.
  destruct (rstrip_prefix (Py.lstrip a)) as (sp & E' & _). rewrite E in E'.
  destruct (lstrip_suffix a) as (sp' & Ea & Hsp').
  pose proof (lstrip_head _ _ _ E') as Hc.
  rewrite Ea, E', <-app_assoc, lstrip_spaces by done.
  cbn [app]. rewrite lstrip_id by done. by eexists.
Qed.

Lemma dict_from_str_line_inv (firstline : Z) (file : option str)
    (st : parse_state) (line : str) :
  parse_inv firstline file st → (firstline - 1 ≤ ps_lineno st)%Z →
  ∃ st', dict_from_str_line st line = Some st'
         ∧ parse_inv firstline file st'
         ∧ ps_lineno st' = (ps_lineno st + 1)%Z.
Proof.
  intros (Hnd & Hl & Hkeys & Hnum & Hlast & Hfile) Hfirst.
  assert (Forall (λ kn : str * Z, (firstline ≤ kn.2 ≤ ps_lineno st + 1)%Z)
                 (_lines (ps_result st))) as Hnum'.
  { eapply Forall_impl; [exact Hnum|]. cbn. lia. }
  unfold dict_from_str_line. cbv zeta.
  set (rline := Py.rstrip line).
  destruct (Py.startswith (ustr "  ") rline).
  { destruct (ps_last_key_added st) as [[|c key]|] eqn:Elast.
    - eexists. split; [done|]. split; [|done]. by repeat split.
    - pose proof (Hlast c key eq_refl) as Hin.
      unfold LineDict_append_to_val.
      destruct (dict_get_present _ _ Hin) as [value ->].
      cbn [mbind option_bind]. eexists. split; [done|]. split; [|done].
      unfold parse_inv.
      cbn [ps_result _store _lines filename ps_lineno ps_last_key_added].
      rewrite dict_set_keys, bool_decide_eq_true_2 by done.
      by repeat split.
    - eexists. split; [done|]. split; [|done]. by repeat split. }
  destruct (bool_decide (rline = []) || Py.startswith (ustr "#") (Py.lstrip rline))
    eqn:Ecomment.
  { eexists. split; [done|]. split; [|done]. by repeat split. }
  apply orb_false_iff in Ecomment as [_ Hhash].
  set (sel := if bool_decide (head rline = Some (uchr " "))
                 || bool_decide (head rline = Some 9%N)
              then (Py.lstrip rline,
                    [WarnInvalidLeadingWhitespace (filename (ps_result st))
                       (ps_lineno st + 1) rline])
              else (rline, [])).
  assert (Py.lstrip sel.1 = Py.lstrip rline) as Hsel.
  { subst sel. destruct (_ || _); [apply lstrip_idemp|done]. }
  destruct sel as [line' warned]. cbn [fst] in Hsel.
  unfold split_1. destruct (partition_at (uchr ":") line') as [[a b]|] eqn:Ep.
  2:{ eexists. split; [done|]. split; [|done]. by repeat split. }
  apply partition_at_spec in Ep as [-> Ha].
  case_bool_decide as Hkey.
  { eexists. split; [done|]. split; [|done]. repeat split; try done.
    cbn [ps_last_key_added]. rewrite Hkey. by intros ?? [=]. }
  unfold LineDict_add. eexists. split; [done|]. split; [|done].
  unfold parse_inv.
  cbn [ps_result _store _lines filename ps_lineno ps_last_key_added].
  rewrite !dict_set_keys, Hl.
  assert (stored_key (Py.strip a)) as Hgood.
  { split; [done|]. split; [by intros ?%strip_sub|].
    split; [apply strip_idemp|].
    destruct (Py.strip a) as [|c t] eqn:E; [done|].
    destruct (strip_first a (uchr ":" :: b) c t E) as [t' Ht'].
    rewrite Hsel in Ht'. rewrite Ht' in Hhash.
    cbn [Py.startswith] in Hhash |- *. done. }
  case_bool_decide as Hin.
  - refine (conj _ (conj _ (conj _ (conj _ (conj _ _))))); try done.
    + by apply (dict_set_values (λ n, firstline ≤ n ≤ ps_lineno st + 1)%Z); [lia|].
    + by intros ?? [= <-].
  - refine (conj _ (conj _ (conj _ (conj _ (conj _ _))))); try done.
    + apply NoDup_app. split; [done|]. split; [|apply NoDup_singleton].
      by intros x Hx ->%list_elem_of_singleton.
    + apply Forall_app. split; [done|]. by apply Forall_singleton.
    + by apply (dict_set_values (λ n, firstline ≤ n ≤ ps_lineno st + 1)%Z); [lia|].
    + intros ?? [= <-]. apply elem_of_app. right. by left.
Qed.

Lemma dict_from_str_loop_inv (firstline : Z) (file : option str)
    (lines : list str) (st : parse_state) :
  parse_inv firstline file st → (firstline - 1 ≤ ps_lineno st)%Z →
  ∃ st', dict_from_str_loop st lines = Some st'
         ∧ parse_inv firstline file st'
         ∧ ps_lineno st' = (ps_lineno st + Z.of_nat (length lines))%Z.
Proof.
  revert st. induction lines as [|line lines IH]; intros st Hinv Hfirst.
  - exists st. split; [done|]. split; [done|]. cbn [length]. lia.
  - cbn [dict_from_str_loop].
    destruct (dict_from_str_line_inv firstline file st line Hinv Hfirst)
      as (st1 & -> & Hinv1 & Hno1).
    cbn [mbind option_bind].
    destruct (IH st1 Hinv1) as (st' & -> & Hinv' & Hno'); [lia|].
    exists st'. split; [done|]. split; [done|]. cbn [length]. lia.
Qed.

(** X22.  [dict_from_str] always returns: a continuation line never
    looks for a missing key.  No key is stored twice; every key is
    non-empty, has no colon and no whitespace around it and does not
    start with '#'; every key has the number of one of the lines read. *)
Theorem dict_from_str_keys (entry : str) (firstline : Z) (file : option str) :
  ∃ d warnings,
    dict_from_str entry firstline file = Some (d, warnings)
    ∧ filename d = file
    ∧ NoDup (_store d).*1
    ∧ Forall stored_key (_store d).*1
    ∧ (_lines d).*1 = (_store d).*1
    ∧ Forall (λ kn, (firstline ≤ kn.2 < firstline + Z.of_nat (length (splitlines entry)))%Z)
             (_lines d).
Proof.
  unfold dict_from_str.
  destruct (dict_from_str_loop_inv firstline file (splitlines entry)
              (mkParseState (firstline - 1) (mkLineDict file [] None []) None []))
    as (st' & -> & (Hnd & Hl & Hkeys & Hnum & _ & Hfile) & Hno).
  { split; [constructor|]. split; [done|]. split; [constructor|].
    split; [constructor|]. split; [|done]. by intros ?? [=]. }
  { cbn. lia. }
  cbn [mbind option_bind ps_lineno] in *.
  exists (ps_result st'), (ps_warnings st').
  repeat split; try done.
  eapply Forall_impl; [exact Hnum|]. cbn. lia.
Qed.

(** ** Kinds of words *)

Section KindCounts.
Context {U : Unicode}.

Ltac kind_counts :=
  repeat match goal with
         | |- _ :: _ = _ :: _ => f_equal
         | |- (_, _) = (_, _) => f_equal
         end; lia.

(** The number of entries of a kind. *)
Lemma count_existing_kinds_counts (entries : list (gmap str str)) :
  let count kind :=
    Z.of_nat (length (filter (λ entry, (get_kind entry).1 = kind) entries)) in
  (count_existing_kinds entries).1
  = [(NOUN, count NOUN); (ADJ, count ADJ); (VERB, count VERB)].
Proof.
  unfold count_existing_kinds. cbn [KIND_DESC fmap list_fmap].
  enough (∀ a b c log,
    (foldl (λ '(counter, log) entry,
              let '(kind, warned) := get_kind entry in
              (increment kind counter, log ++ warned))
           ([(NOUN, a); (ADJ, b); (VERB, c)], log) entries).1
    = [(NOUN, (a + Z.of_nat (length (filter (λ entry, (get_kind entry).1 = NOUN) entries)))%Z);
       (ADJ, (b + Z.of_nat (length (filter (λ entry, (get_kind entry).1 = ADJ) entries)))%Z);
       (VERB, (c + Z.of_nat (length (filter (λ entry, (get_kind entry).1 = VERB) entries)))%Z)])
    as H by apply (H 0%Z 0%Z 0%Z).
  induction entries as [|entry entries IH]; intros a b c log.
  - cbn. by rewrite !Z.add_0_r.
  - cbn [foldl]. rewrite !filter_cons.
    destruct (get_kind entry) as [[] warned]; cbn [fst increment fmap list_fmap];
      repeat (case_bool_decide; try done).
    + rewrite (IH (a + 1)%Z b c (log ++ warned)).
      repeat (case_decide; try done); cbn [length]; kind_counts.
    + rewrite (IH a (b + 1)%Z c (log ++ warned)).
      repeat (case_decide; try done); cbn [length]; kind_counts.
    + rewrite (IH a b (c + 1)%Z (log ++ warned)).
      repeat (case_decide; try done); cbn [length]; kind_counts.
Qed.

End KindCounts.

Lemma rarest_of_three (n a v : Z) :
  (0 ≤ n)%Z → (0 ≤ a)%Z → (0 ≤ v)%Z →
  let result :=
    rarest_kinds
      (sorted_by_count [(NOUN, (inject_Z n * (1 # 2))%Q); (ADJ, inject_Z a);
                        (VERB, inject_Z v)]) ∅ (-1)%Q in
  (NOUN ∈ result ↔ (n ≤ 2 * a ∧ n ≤ 2 * v)%Z)
  ∧ (ADJ ∈ result ↔ (2 * a ≤ n ∧ a ≤ v)%Z)
  ∧ (VERB ∈ result ↔ (2 * v ≤ n ∧ v ≤ a)%Z).
Proof.
  intros Hn Ha Hv. cbv zeta.
  unfold sorted_by_count. cbn [foldr insert_by_count snd].
  repeat match goal with
  | |- context [Qle_bool ?x ?y] =>
      let E := fresh "E" in
      destruct (Qle_bool x y) eqn:E; cbn [negb insert_by_count snd rarest_kinds]
  | |- context [Qeq_bool ?x ?y] =>
      let E := fresh "E" in
      destruct (Qeq_bool x y) eqn:E; cbn [negb insert_by_count snd rarest_kinds]
  end;
  repeat match goal with
  | H : Qle_bool _ _ = true |- _ => apply Qle_bool_iff in H; unfold Qle in H; cbn in H
  | H : Qle_bool _ _ = false |- _ =>
      apply not_true_iff_false in H; rewrite Qle_bool_iff in H;
      unfold Qle in H; cbn in H
  | H : Qeq_bool _ _ = true |- _ => apply Qeq_bool_iff in H; unfold Qeq in H; cbn in H
  | H : Qeq_bool _ _ = false |- _ =>
      apply not_true_iff_false in H; rewrite Qeq_bool_iff in H;
      unfold Qeq in H; cbn in H
  end;
  rewrite ?elem_of_union, ?elem_of_singleton, ?elem_of_empty;
  (split; [|split]); split; intros; try lia;
  repeat match goal with H : _ ∨ _ |- _ => destruct H end;
  try discriminate; try lia; try tauto.
Qed.

(** X23.  [determine_kinds_to_add] returns exactly the rarest kinds, a
    noun counting half: a kind is returned if and only if no other kind
    has a smaller weighted count.  At least one kind is returned, and
    nouns are asked for as long as there are at most twice as many of
    them as of either other kind. *)
Theorem determine_kinds_to_add_rarest `{U : Unicode}
    (entries : list (gmap str str)) :
  (Z.of_nat (length entries) < 2 ^ 53)%Z →
  let count kind :=
    Z.of_nat (length (filter (λ entry, (get_kind entry).1 = kind) entries)) in
  let result := (determine_kinds_to_add entries).1 in
  (NOUN ∈ result ↔ (count NOUN ≤ 2 * count ADJ ∧ count NOUN ≤ 2 * count VERB)%Z)
  ∧ (ADJ ∈ result ↔ (2 * count ADJ ≤ count NOUN ∧ count ADJ ≤ count VERB)%Z)
  ∧ (VERB ∈ result ↔ (2 * count VERB ≤ count NOUN ∧ count VERB ≤ count ADJ)%Z)
  ∧ (∃ kind, kind ∈ result).
Proof.
  intros _ count result. subst count result. cbv beta.
  unfold determine_kinds_to_add.
  pose proof (count_existing_kinds_counts entries) as Hc. cbv zeta in Hc.
  destruct (count_existing_kinds entries) as [counts warned].
  cbn [fst] in Hc |- *. subst counts. cbn [fmap list_fmap].
  rewrite bool_decide_eq_true_2 by done.
  rewrite !bool_decide_eq_false_2 by done.
  match goal with
  | |- (NOUN ∈ ?r ↔ _) ∧ _ =>
      destruct (rarest_of_three
                  (Z.of_nat (length (filter (λ entry, (get_kind entry).1 = NOUN) entries)))
                  (Z.of_nat (length (filter (λ entry, (get_kind entry).1 = ADJ) entries)))
                  (Z.of_nat (length (filter (λ entry, (get_kind entry).1 = VERB) entries))))
        as (Hn & Ha & Hv); [lia..|]
  end.
  cbv zeta in Hn, Ha, Hv. split; [done|]. split; [done|]. split; [done|].
  destruct (decide (Z.of_nat (length (filter (λ entry, (get_kind entry).1 = NOUN) entries))
                    ≤ 2 * Z.of_nat (length (filter (λ entry, (get_kind entry).1 = ADJ) entries))
                    ∧ Z.of_nat (length (filter (λ entry, (get_kind entry).1 = NOUN) entries))
                      ≤ 2 * Z.of_nat (length (filter (λ entry, (get_kind entry).1 = VERB) entries)))%Z)
    as [H|H]; [exists NOUN; by apply Hn|].
  destruct (decide (Z.of_nat (length (filter (λ entry, (get_kind entry).1 = ADJ) entries))
                    ≤ Z.of_nat (length (filter (λ entry, (get_kind entry).1 = VERB) entries)))%Z)
    as [H'|H']; [exists ADJ; apply Ha; lia|exists VERB; apply Hv; lia].
Qed.

(** Four nouns, two adjectives and three verbs: nouns and adjectives are
    the rarest. *)
Lemma determine_kinds_to_add_rarest_witness :
  let noun : gmap str str := {[ ustr "class" := ustr "noun" ]} in
  let adj : gmap str str := {[ ustr "class" := ustr "adj, noun" ]} in
  let verb : gmap str str := {[ ustr "class" := ustr "verb" ]} in
  let entries := [noun; verb; adj; noun; ∅; verb; adj; verb; noun] in
  let count kind :=
    Z.of_nat (length (filter (λ entry,
      (get_kind (U:=basic_unicode) entry).1 = kind) entries)) in
  let result := (determine_kinds_to_add (U:=basic_unicode) entries).1 in
  (NOUN ∈ result ↔ (count NOUN ≤ 2 * count ADJ ∧ count NOUN ≤ 2 * count VERB)%Z)
  ∧ (ADJ ∈ result ↔ (2 * count ADJ ≤ count NOUN ∧ count ADJ ≤ count VERB)%Z)
  ∧ (VERB ∈ result ↔ (2 * count VERB ≤ count NOUN ∧ count VERB ≤ count ADJ)%Z)
  ∧ (∃ kind, kind ∈ result).
Proof.
  intros noun adj verb entries.
  apply (determine_kinds_to_add_rarest (U:=basic_unicode) entries).
  reflexivity.
Defined.

Example determine_kinds_to_add_example :
  let noun : gmap str str := {[ ustr "class" := ustr "noun" ]} in
  let adj : gmap str str := {[ ustr "class" := ustr "adj, noun" ]} in
  let verb : gmap str str := {[ ustr "class" := ustr "verb" ]} in
  determine_kinds_to_add (U:=basic_unicode)
    [noun; verb; adj; noun; ∅; verb; adj; verb; noun]
  = ({[NOUN; ADJ]},
     [WarnLacksClass [];
      InfoShouldAdd {[NOUN; ADJ]} [(NOUN, 4 # 2); (ADJ, 2 # 1); (VERB, 3 # 1)]]).
Proof. by vm_compute. Qed.

(** ** The shape of valid words *)

Section WordShape.
Context {U : Unicode}.

Ltac eqb_cases :=
  repeat match goal with
         | |- context [(?a =? ?b)%N] =>
             destruct (N.eqb_spec a b); try subst; try lia
         end.

Lemma vowel_match (bef s : str) :
  snd <$> match_at VOWEL_SPLIT_RE bef s = vowel_match_length s.
Proof.
  unfold match_at, vowel_match_length.
  replace VOWEL_SPLIT_RE
    with (Alt (Lit [97; 121]) (Alt (Lit [97; 119]) (Alt (Lit [101; 119])
           (Alt (Lit [111; 121]) (One (CIn [97; 101; 105; 111; 117; 601]))))))%N
    by by vm_compute.
  replace INTERNAL_VOWELS with [97; 101; 105; 111; 117; 601]%N by by vm_compute.
  replace falling_diphthongs
    with [[97; 121]; [97; 119]; [101; 119]; [111; 121]]%N by by vm_compute.
  destruct s as [|v [|y s]]; [done| |].
  - cbn [rmatch after before caps advance cset_match Py.startswith Py.char_in
         existsb length take drop].
    eqb_cases; cbn; try done.
  - cbn [rmatch after before caps advance cset_match Py.startswith Py.char_in
         existsb length take drop].
    eqb_cases; cbn [andb orb fmap option_fmap option_map snd length take drop];
      try (case_bool_decide as Hd; rewrite ?elem_of_cons, ?elem_of_nil in Hd);
      rewrite ?drop_0, ?take_0 in *;
      first [ done | f_equal; lia | exfalso; intuition congruence ].
Qed.

Lemma vowel_match_length_cases (c : char) (s : str) :
  (vowel_match_length (c :: s) = None ∧ c ∉ INTERNAL_VOWELS)
  ∨ (vowel_match_length (c :: s) = Some 1 ∧ c ∈ INTERNAL_VOWELS)
  ∨ (vowel_match_length (c :: s) = Some 2 ∧ c ∈ INTERNAL_VOWELS
     ∧ ∃ y s', s = y :: s' ∧ [c; y] ∈ falling_diphthongs).
Proof.
  unfold vowel_match_length.
  destruct (Py.char_in c INTERNAL_VOWELS) eqn:Ec.
  - apply char_in_elem_of in Ec. right. case_bool_decide as Hd; [right|by left].
    split; [done|]. split; [done|]. destruct s as [|y s].
    + exfalso. revert Hd. cbn [take]. vm_compute (falling_diphthongs).
      rewrite !elem_of_cons, elem_of_nil. intuition congruence.
    + exists y, s. split; [done|]. by rewrite <-(take_0 s).
  - left. split; [done|]. intros H%char_in_elem_of. congruence.
Qed.

Lemma split_go_vowel_step (bef : str) (c : char) (s cur : str) :
  Re.split_go VOWEL_SPLIT_RE bef (c :: s) 0 cur
  = match vowel_match_length (c :: s) with
    | Some (S n) => rev cur :: Re.split_go VOWEL_SPLIT_RE (c :: bef) s n []
    | _ => Re.split_go VOWEL_SPLIT_RE (c :: bef) s 0 (c :: cur)
    end.
Proof.
  cbn [Re.split_go]. pose proof (vowel_match bef (c :: s)) as Hm.
  destruct (vowel_match_length_cases c s) as [[E _]|[[E _]|(E & _)]];
    rewrite E in Hm |- *;
    destruct (match_at VOWEL_SPLIT_RE bef (c :: s)) as [[g n]|];
    cbn [fmap option_fmap option_map snd] in Hm; try done;
    by injection Hm as ->.
Qed.

(** At the end of the word the pattern does not match. *)
Lemma split_go_vowel_nil (bef : str) (skip : nat) (cur : str) :
  Re.split_go VOWEL_SPLIT_RE bef [] skip cur = [rev cur].
Proof.
  cbn [Re.split_go]. pose proof (vowel_match bef []) as Hm.
  destruct (match_at VOWEL_SPLIT_RE bef []); [done|]. by destruct skip.
Qed.

(** The last piece is the end of the word; when it is empty the word ends
    in a vowel or a falling diphthong. *)
Lemma split_go_last (s bef : str) (skip : nat) (cur : str) :
  split_state bef s skip cur →
  ∃ init pl,
    Re.split_go VOWEL_SPLIT_RE bef s skip cur = init ++ [pl]
    ∧ (∃ pre, rev cur ++ s = pre ++ pl)
    ∧ (pl = [] → rev bef ++ s = [] ∨ after_vowel (rev s ++ bef)).
Proof.
  revert bef skip cur. induction s as [|c s IH]; intros bef skip cur Hst.
  - exists [], (rev cur). rewrite split_go_vowel_nil. split; [done|].
    split; [exists []; by rewrite app_nil_r|]. intros Hcur%rev_nil_inv.
    destruct skip as [|[|skip]]; cbn [split_state] in Hst.
    + destruct (Hst Hcur) as [->|?]; [by left|by right].
    + by destruct Hst as (_ & ? & ? & ? & ? & _ & ? & _).
    + done.
  - destruct skip as [|[|skip]]; cbn [split_state] in Hst; [| |done].
    + rewrite split_go_vowel_step.
      destruct (vowel_match_length_cases c s)
        as [[-> Hc]|[[-> Hc]|(-> & Hc & y & s' & -> & Hd)]].
      * destruct (IH (c :: bef) 0 (c :: cur)) as (init & pl & -> & [pre E] & Hpl);
          [by intros [=]|].
        exists init, pl. split; [done|]. split.
        -- exists pre. rewrite <-E. cbn [rev]. by rewrite <-app_assoc.
        -- intros Hnil. cbn [rev] in Hpl |- *. rewrite <-!app_assoc in *.
           by apply Hpl.
      * destruct (IH (c :: bef) 0 []) as (init & pl & -> & [pre E] & Hpl).
        { intros _. right. left. by exists c, bef. }
        exists (rev cur :: init), pl. split; [done|]. split.
        -- exists (rev cur ++ c :: pre). cbn [rev app] in E. rewrite E.
           by rewrite <-app_assoc.
        -- intros Hnil. cbn [rev] in Hpl |- *. rewrite <-!app_assoc in *.
           by apply Hpl.
      * destruct (IH (c :: bef) 1 []) as (init & pl & -> & [pre E] & Hpl).
        { split; [done|]. by exists c, bef, y, s'. }
        exists (rev cur :: init), pl. split; [done|]. split.
        -- exists (rev cur ++ c :: pre). cbn [rev app] in E. rewrite E.
           by rewrite <-app_assoc.
        -- intros Hnil. cbn [rev] in Hpl |- *. rewrite <-!app_assoc in *.
           by apply Hpl.
    + destruct Hst as (-> & x & bef' & y & s' & -> & [= -> ->] & Hd).
      cbn [Re.split_go].
      destruct (IH (y :: x :: bef') 0 []) as (init & pl & -> & [pre E] & Hpl).
      { intros _. right. right. by exists y, x, bef'. }
      exists init, pl. split; [done|]. split.
      * exists (y :: pre). cbn [rev app] in E |- *. by rewrite E.
      * intros Hnil. cbn [rev] in Hpl |- *. rewrite <-!app_assoc in *.
        by apply Hpl.
Qed.

(** The first piece is the word up to its first vowel. *)
Lemma split_go_first (s bef cur : str) :
  ∃ pre post rest,
    Re.split_go VOWEL_SPLIT_RE bef s 0 cur = (rev cur ++ pre) :: rest
    ∧ s = pre ++ post
    ∧ (post = [] ∧ rest = []
       ∨ ∃ v post', post = v :: post' ∧ v ∈ INTERNAL_VOWELS).
Proof.
  revert bef cur. induction s as [|c s IH]; intros bef cur.
  - exists [], [], []. rewrite split_go_vowel_nil, app_nil_r.
    split; [done|]. split; [done|]. by left.
  - rewrite split_go_vowel_step.
    destruct (vowel_match_length_cases c s)
      as [[-> Hc]|[[-> Hc]|(-> & Hc & _)]].
    + destruct (IH (c :: bef) (c :: cur)) as (pre & post & rest & -> & -> & H).
      exists (c :: pre), post, rest. cbn [rev]. rewrite <-app_assoc.
      by repeat split.
    + exists [], (c :: s). eexists. rewrite app_nil_r.
      split; [done|]. split; [done|]. right. by exists c, s.
    + exists [], (c :: s). eexists. rewrite app_nil_r.
      split; [done|]. split; [done|]. right. by exists c, s.
Qed.

Lemma str_in_one (c : char) (s : str) : Py.str_in [c] s = true → c ∈ s.
Proof.
  induction s as [|x s IH]; [done|]. cbn [Py.str_in]. rewrite startswith_one.
  intros [Hx|Hs]%orb_true_iff.
  - apply N.eqb_eq in Hx as ->. by left.
  - right. by apply IH.
Qed.

Lemma validate_part_first (last_idx : nat) (part word : str) :
  validate_part last_idx 0 part word = None →
  part = [] ∨ ∃ c rest, part = c :: rest ∧ c ∈ INITIAL_CONSONANTS.
Proof.
  destruct part as [|c rest]; [by left|]. intros H. right. exists c, rest.
  split; [done|]. unfold validate_part in H.
  destruct (_ && _); [done|]. cbn [Nat.ltb Nat.leb andb] in H.
  destruct (Py.char_in c INITIAL_CONSONANTS) eqn:Ec;
    [by apply char_in_elem_of|].
  by rewrite orb_true_r in H.
Qed.

Lemma validate_part_last (last_idx : nat) (part word : str) :
  validate_part last_idx last_idx part word = None →
  part = [] ∨ ∃ c, part = [c] ∧ c ∈ WORD_FINAL_CONSONANTS.
Proof.
  destruct part as [|c rest]; [by left|]. intros H. right.
  unfold validate_part in H. rewrite Nat.eqb_refl in H. cbn [andb] in H.
  destruct (_ || _) eqn:E; [done|]. apply orb_false_iff in E as [Hlen Hin].
  apply Nat.ltb_ge in Hlen. destruct rest; [|cbn in Hlen; lia].
  exists c. split; [done|]. apply negb_false_iff in Hin. by apply str_in_one.
Qed.

Lemma validate_parts_last (last_idx idx : nat) (init : list str)
    (pl word : str) :
  validate_parts last_idx idx (init ++ [pl]) word = None →
  validate_part last_idx (idx + length init) pl word = None.
Proof.
  revert idx. induction init as [|p init IH]; intros idx; cbn [app validate_parts].
  - rewrite Nat.add_0_r. by destruct (validate_part last_idx idx pl word).
  - destruct (validate_part last_idx idx p word); [done|].
    intros H. apply IH in H. cbn [length]. by rewrite Nat.add_succ_r.
Qed.

Lemma validate_words_each (words : list str) (w : str) :
  validate_words words = None → w ∈ words → validate_word w = None.
Proof.
  induction words as [|x words IH]; [by intros _ ?%elem_of_nil|].
  cbn [validate_words]. destruct (validate_word x) eqn:E; [done|].
  intros H [->|Hw]%elem_of_cons; [done|by apply IH].
Qed.

Lemma valid_word_shape (w : str) :
  w ≠ [] → validate_word w = None →
  (∃ first, head w = Some first
            ∧ first ∈ INITIAL_CONSONANTS ++ INTERNAL_VOWELS)
  ∧ ((∃ final, last w = Some final
               ∧ final ∈ INTERNAL_VOWELS ++ WORD_FINAL_CONSONANTS)
     ∨ (∃ pre d, w = pre ++ d ∧ d ∈ falling_diphthongs))
  ∧ ((∃ v, v ∈ w ∧ v ∈ INTERNAL_VOWELS) ∨ length w = 1).
Proof.
  intros Hne. unfold validate_word, Re.split. cbv zeta. intros Hval.
  destruct (split_go_first w [] []) as (pre & post & rest & Efirst & Ew & Hpost).
  destruct (split_go_last w [] 0 []) as (init & pl & Elast & [pre' Ew'] & Hpl);
    [by left|].
  cbn [rev app] in Efirst, Ew', Hpl. rewrite app_nil_r in Hpl.
  assert (validate_part (length init) 0 pre w = None) as Hfirst.
  { rewrite Elast in Hval. rewrite length_app in Hval. cbn [length] in Hval.
    replace (length init + 1 - 1) with (length init) in Hval by lia.
    rewrite <-Elast, Efirst in Hval. cbn [validate_parts] in Hval.
    by destruct (validate_part (length init) 0 pre w). }
  assert (validate_part (length init) (length init) pl w = None) as Hlast.
  { rewrite Elast in Hval. rewrite length_app in Hval. cbn [length] in Hval.
    replace (length init + 1 - 1) with (length init) in Hval by lia.
    by apply validate_parts_last in Hval. }
  apply validate_part_first in Hfirst. apply validate_part_last in Hlast.
  split; [|split].
  - destruct Hfirst as [->|(c & rest' & -> & Hc)].
    + destruct Hpost as [[-> _]|(v & post' & -> & Hv)]; [by subst w|].
      exists v. subst w. split; [done|]. apply elem_of_app. by right.
    + exists c. subst w. split; [done|]. apply elem_of_app. by left.
  - destruct Hlast as [->|(c & -> & Hc)].
    + destruct Hpl as [->|[(v & bef' & E & Hv)|(y & x & bef' & E & Hd)]];
        [done|done| |].
      * left. exists v. split; [|apply elem_of_app; by left].
        rewrite <-(rev_involutive w), E. cbn [rev]. apply last_snoc.
      * right. exists (rev bef'), [x; y]. split; [|done].
        rewrite <-(rev_involutive w), E. cbn [rev]. by rewrite <-app_assoc.
    + left. exists c. split; [|apply elem_of_app; by right].
      rewrite Ew'. apply last_snoc.
  - destruct Hpost as [[-> ->]|(v & post' & -> & Hv)].
    + right. rewrite app_nil_r in Ew. subst pre.
      rewrite Efirst in Elast.
      destruct init as [|p init]; [|by destruct init].
      injection Elast as <-.
      destruct Hlast as [->|(c & -> & _)]; done.
    + left. exists v. split; [|done]. subst w. apply elem_of_app. right. by left.
Qed.

End WordShape.

(** X24.  The shape of the words of a valid candidate: each word starts
    with a vowel or a consonant allowed at the start of a syllable (not
    with 'N'); it ends in a vowel, in a consonant allowed at the end of a
    word (one of 'klmnNprst') or in a falling diphthong; and it has a
    vowel unless it is a single letter. *)
Theorem validate_word_shape `{U : Unicode} `{F : PyFloat} (c : Candidate)
    (w : str) :
  (validate c).1 = None → w ∈ Py.split (word c) →
  (∃ first, head w = Some first
            ∧ first ∈ INITIAL_CONSONANTS ++ INTERNAL_VOWELS)
  ∧ ((∃ final, last w = Some final
               ∧ final ∈ INTERNAL_VOWELS ++ WORD_FINAL_CONSONANTS)
     ∨ (∃ pre d, w = pre ++ d ∧ d ∈ falling_diphthongs))
  ∧ ((∃ v, v ∈ w ∧ v ∈ INTERNAL_VOWELS) ∨ length w = 1).
Proof.
  unfold validate. cbv zeta. case_bool_decide; [done|]. intros Hval Hw.
  apply valid_word_shape; [by eapply split_nonempty|].
  by eapply validate_words_each.
Qed.

(** The word 'may' of the candidate 'kasa may' ends in a diphthong. *)
Lemma validate_word_shape_witness :
  let w := ustr "may" in
  (∃ first, head w = Some first
            ∧ first ∈ INITIAL_CONSONANTS ++ INTERNAL_VOWELS)
  ∧ ((∃ final, last w = Some final
               ∧ final ∈ INTERNAL_VOWELS ++ WORD_FINAL_CONSONANTS)
     ∨ (∃ pre d, w = pre ++ d ∧ d ∈ falling_diphthongs))
  ∧ ((∃ v, v ∈ w ∧ v ∈ INTERNAL_VOWELS) ∨ length w = 1).
Proof.
  apply (validate_word_shape (U:=basic_unicode) (F:=exact_floats)
           (new_Candidate (ustr "kasa may") 0 (ustr "xx") (ustr "kasa may")
              None [])).
  - by vm_compute.
  - vm_compute. apply list_elem_of_further, list_elem_of_here.
Defined.

Example validate_word_example :
  validate_word (U:=basic_unicode) (ustr "aykpra") = None
  ∧ validate_word (U:=basic_unicode) (ustr "Nata")
    = Some (NotAllowedAtStart (ustr "N") (ustr "Nata"))
  ∧ validate_word (U:=basic_unicode) (ustr "kasab")
    = Some (NotAllowedAtEnd (ustr "b") (ustr "kasab"))
  ∧ validate_word (U:=basic_unicode) (ustr "k") = None.
Proof. by vm_compute. Qed.

(** ** [filter_entries_by_kind] *)

Lemma dict_get_absent {V} (key : str) (d : list (str * V)) :
  key ∉ d.*1 → dict_get key d = None.
Proof.
  induction d as [|[k x] d IH]; [done|]. cbn [fmap list_fmap fst dict_get].
  intros [Hne Hd]%not_elem_of_cons.
  rewrite bool_decide_eq_false_2 by done. by apply IH.
Qed.

Lemma dict_get_elem {V} (key : str) (v : V) (d : list (str * V)) :
  NoDup d.*1 → (key, v) ∈ d → dict_get key d = Some v.
Proof.
  induction d as [|[k x] d IH]; [by intros _ ?%elem_of_nil|].
  cbn [fmap list_fmap fst dict_get]. intros [Hk Hd]%NoDup_cons.
  intros [[= <- <-]|Hin]%elem_of_cons.
  - by rewrite bool_decide_eq_true_2.
  - rewrite bool_decide_eq_false_2; [by apply IH|]. intros ->. apply Hk.
    apply list_elem_of_fmap. by exists (key, v).
Qed.

Lemma elem_of_dict_set {V} (key : str) (v : V) (d : list (str * V))
    (k : str) (x : V) :
  NoDup d.*1 → (k, x) ∈ dict_set key v d →
  (k = key ∧ x = v) ∨ (k ≠ key ∧ (k, x) ∈ d).
Proof.
  induction d as [|[k' x'] d IH]; cbn [dict_set fmap list_fmap fst].
  - intros _ [= -> ->]%list_elem_of_singleton. by left.
  - intros [Hk' Hd]%NoDup_cons. case_bool_decide as Hk.
    + subst k'. intros [[= -> ->]|Hin]%elem_of_cons; [by left|].
      right. split; [|by right]. intros ->. apply Hk'.
      apply list_elem_of_fmap. by exists (key, x).
    + intros [[= -> ->]|Hin]%elem_of_cons; [right; split; [done|by left]|].
      destruct (IH Hd Hin) as [?|[? ?]]; [by left|right]. split; [done|by right].
Qed.

Lemma elem_of_concat {A} (x : A) (ls : list (list A)) :
  x ∈ concat ls ↔ ∃ l, x ∈ l ∧ l ∈ ls.
Proof.
  induction ls as [|l ls IH]; cbn [concat].
  - split; [by intros ?%elem_of_nil|by intros (? & _ & ?%elem_of_nil)].
  - rewrite elem_of_app, IH. split.
    + intros [?|(l' & ? & ?)]; [exists l; split; [done|by left]|].
      exists l'. split; [done|by right].
    + intros (l' & ? & [->|?]%elem_of_cons); [by left|right; by exists l'].
Qed.

Section FilterProps.
Context {U : Unicode}.
Variable mk_entry_key : gmap str str → str.
Variable kinds_to_add : gset Kind.

Lemma wanted_with_key_snoc (key : str) (seen : list (gmap str str))
    (entry : gmap str str) :
  wanted_with_key mk_entry_key kinds_to_add key (seen ++ [entry])
  = wanted_with_key mk_entry_key kinds_to_add key seen
    ++ (if bool_decide ((get_kind entry).1 ∈ kinds_to_add
                        ∧ mk_entry_key entry = key)
        then [entry] else []).
Proof.
  unfold wanted_with_key. rewrite filter_app. f_equal.
  rewrite filter_cons, filter_nil. case_decide.
  - by rewrite bool_decide_eq_true_2.
  - by rewrite bool_decide_eq_false_2.
Qed.

Lemma grouped_step (seen : list (gmap str str))
    (entries_by_key : list (str * list (gmap str str)))
    (entry : gmap str str) :
  grouped mk_entry_key kinds_to_add seen entries_by_key →
  grouped mk_entry_key kinds_to_add (seen ++ [entry])
    (if bool_decide ((get_kind entry).1 ∉ kinds_to_add) then entries_by_key
     else dict_set (mk_entry_key entry)
            (default [] (dict_get (mk_entry_key entry) entries_by_key)
             ++ [entry]) entries_by_key).
Proof.
  intros (Hnd & Hgroups & Hkeys). case_bool_decide as Hkind.
  - split; [done|]. split.
    + intros key entry_list Hin. rewrite wanted_with_key_snoc.
      rewrite bool_decide_eq_false_2 by tauto. rewrite app_nil_r.
      by apply Hgroups.
    + intros key. rewrite wanted_with_key_snoc.
      rewrite bool_decide_eq_false_2 by tauto. rewrite app_nil_r.
      apply Hkeys.
  - set (key0 := mk_entry_key entry).
    assert (default [] (dict_get key0 entries_by_key)
            = wanted_with_key mk_entry_key kinds_to_add key0 seen) as Hold.
    { destruct (decide (key0 ∈ entries_by_key.*1)) as [Hin|Hin].
      - apply list_elem_of_fmap in Hin as ([k g] & Hk & Hin).
        cbn [fst] in Hk. subst k. rewrite (dict_get_elem _ _ _ Hnd Hin).
        by apply Hgroups.
      - rewrite dict_get_absent by done. cbn [default].
        destruct (wanted_with_key mk_entry_key kinds_to_add key0 seen) eqn:E;
          [done|]. exfalso. apply Hin, Hkeys. by rewrite E. }
    rewrite Hold. split; [|split].
    + rewrite dict_set_keys. case_bool_decide as Hin; [done|].
      apply NoDup_app. split; [done|]. split; [|apply NoDup_singleton].
      by intros k Hk ->%list_elem_of_singleton.
    + intros key entry_list Hin.
      apply (elem_of_dict_set _ _ _ _ _ Hnd) in Hin as [[-> ->]|[Hne Hin]].
      * rewrite wanted_with_key_snoc, bool_decide_eq_true_2 by done.
        split; [done|]. by intros []%app_eq_nil.
      * rewrite wanted_with_key_snoc, bool_decide_eq_false_2 by (by intros [_ ?]).
        rewrite app_nil_r. by apply Hgroups.
    + intros key. rewrite wanted_with_key_snoc, dict_set_keys.
      destruct (decide (key = key0)) as [->|Hne].
      * intros _. case_bool_decide; [done|]. apply elem_of_app. right. by left.
      * rewrite (bool_decide_eq_false_2 (_ ∧ _)) by (by intros [_ ?]).
        rewrite app_nil_r. intros Hw%Hkeys.
        case_bool_decide; [done|]. apply elem_of_app. by left.
Qed.

Lemma group_by_key_grouped (entries : list (gmap str str)) :
  grouped mk_entry_key kinds_to_add entries
    (group_by_key mk_entry_key kinds_to_add entries).1.
Proof.
  unfold group_by_key.
  enough (∀ seen entries_by_key log,
    grouped mk_entry_key kinds_to_add seen entries_by_key →
    grouped mk_entry_key kinds_to_add (seen ++ entries)
      (foldl (λ '(entries_by_key, log) entry,
                let '(kind, warned) := get_kind entry in
                if bool_decide (kind ∉ kinds_to_add)
                then (entries_by_key, log ++ warned)
                else
                  let entry_key := mk_entry_key entry in
                  (dict_set entry_key
                     (default [] (dict_get entry_key entries_by_key) ++ [entry])
                     entries_by_key,
                   log ++ warned))
             (entries_by_key, log) entries).1) as H.
  { apply (H [] [] []). split; [constructor|].
    split; [by intros ?? ?%elem_of_nil|]. by intros key []. }
  induction entries as [|entry entries IH]; intros seen entries_by_key log Hg.
  - by rewrite app_nil_r.
  - cbn [foldl]. pose proof (grouped_step _ _ entry Hg) as Hstep.
    destruct (get_kind entry) as [kind warned]. cbn [fst] in Hstep.
    replace (seen ++ entry :: entries) with ((seen ++ [entry]) ++ entries)
      by by rewrite <-app_assoc.
    case_bool_decide; by apply IH.
Qed.

Lemma filter_entries_by_kind_kept (entries : list (gmap str str)) :
  (filter_entries_by_kind mk_entry_key kinds_to_add entries).1
  = concat ((λ group, kept_of group.2)
            <$> (group_by_key mk_entry_key kinds_to_add entries).1).
Proof.
  unfold filter_entries_by_kind.
  destruct (group_by_key mk_entry_key kinds_to_add entries)
    as [entries_by_key log]. cbn [fst].
  enough (∀ log result,
    (foldl (λ '(result, log) '(entry_key, entry_list),
              if (1 <? length entry_list)%nat then
                let note := InfoFoundEntries (length entry_list) entry_key in
                match first_noun entry_list with
                | Some entry => (result ++ [entry], log ++ [note])
                | None => (result, log ++ [note; WarnNoNounFound])
                end
              else (result ++ entry_list, log))
           (result, log) entries_by_key).1
    = result ++ concat ((λ group, kept_of group.2) <$> entries_by_key)) as H
    by apply (H log []).
  induction entries_by_key as [|[key entry_list] rest IH]; intros log' result.
  - cbn. by rewrite app_nil_r.
  - cbn [foldl fmap list_fmap concat snd]. unfold kept_of at 1. cbv zeta.
    destruct (1 <? length entry_list)%nat.
    + destruct (first_noun entry_list); rewrite IH; cbn [option_list app];
        by rewrite <-?app_assoc.
    + rewrite IH. by rewrite <-app_assoc.
Qed.

Lemma kept_of_sub (entry_list : list (gmap str str)) (entry : gmap str str) :
  entry ∈ kept_of entry_list →
  entry ∈ entry_list
  ∧ (entry_list = [entry]
     ∨ (1 < length entry_list ∧ first_noun entry_list = Some entry)).
Proof.
  unfold kept_of. destruct (Nat.ltb_spec 1 (length entry_list)) as [Hlen|Hlen].
  - destruct (first_noun entry_list) as [noun|] eqn:E; [|by intros ?%elem_of_nil].
    intros ->%list_elem_of_singleton. split; [|by right].
    unfold first_noun in E. apply head_Some_elem_of in E.
    by apply list_elem_of_filter in E as [_ ?].
  - intros Hin. split; [done|]. left.
    destruct entry_list as [|e [|e' l]]; [by apply elem_of_nil in Hin| |].
    + by apply list_elem_of_singleton in Hin as ->.
    + cbn [length] in Hlen. lia.
Qed.

Lemma kept_of_length (entry_list : list (gmap str str)) :
  length (kept_of entry_list) ≤ 1.
Proof.
  unfold kept_of. destruct (Nat.ltb_spec 1 (length entry_list)).
  - destruct (first_noun entry_list); cbn; lia.
  - lia.
Qed.

Lemma wanted_with_key_elem (key : str) (entries : list (gmap str str))
    (entry : gmap str str) :
  entry ∈ wanted_with_key mk_entry_key kinds_to_add key entries
  ↔ (get_kind entry).1 ∈ kinds_to_add ∧ mk_entry_key entry = key
    ∧ entry ∈ entries.
Proof. unfold wanted_with_key. rewrite list_elem_of_filter. tauto. Qed.

Lemma kept_keys_NoDup (seen : list (gmap str str))
    (entries_by_key : list (str * list (gmap str str))) :
  NoDup entries_by_key.*1 →
  (∀ key entry_list, (key, entry_list) ∈ entries_by_key →
     ∀ entry, entry ∈ entry_list → mk_entry_key entry = key) →
  NoDup (mk_entry_key
         <$> concat ((λ group, kept_of group.2) <$> entries_by_key)).
Proof.
  induction entries_by_key as [|[key entry_list] rest IH];
    cbn [fmap list_fmap fst snd concat]; [constructor|].
  intros [Hkey Hnd]%NoDup_cons Hgroups. rewrite fmap_app. apply NoDup_app.
  split; [|split].
  - pose proof (kept_of_length entry_list) as Hlen.
    destruct (kept_of entry_list) as [|e [|e' l]]; cbn in Hlen |- *;
      [constructor|apply NoDup_singleton|lia].
  - intros k (e & -> & He)%list_elem_of_fmap (e' & Hk & He')%list_elem_of_fmap.
    apply kept_of_sub in He as [He _].
    apply elem_of_concat in He' as (l & He' & Hl).
    apply list_elem_of_fmap in Hl as ([key' group'] & -> & Hin).
    cbn [snd] in He'. apply kept_of_sub in He' as [He' _].
    apply Hkey. rewrite <-(Hgroups key entry_list (list_elem_of_here _ _) e He).
    rewrite Hk, (Hgroups key' group' (list_elem_of_further _ _ _ Hin) e' He').
    apply list_elem_of_fmap. by exists (key', group').
  - apply IH; [done|]. intros k g Hin. apply Hgroups. by right.
Qed.

End FilterProps.

(** X25.  What [filter_entries_by_kind] returns: no two entries with the
    same key; and an entry is returned if and only if it is one of the
    given entries, of a kind to be added, and either the only such entry
    with its key or, among several, the first whose class is 'noun'. *)
Theorem filter_entries_by_kind_spec `{U : Unicode}
    (mk_entry_key : gmap str str → str) (kinds_to_add : gset Kind)
    (entries : list (gmap str str)) (entry : gmap str str) :
  let result := (filter_entries_by_kind mk_entry_key kinds_to_add entries).1 in
  let same :=
    wanted_with_key mk_entry_key kinds_to_add (mk_entry_key entry) entries in
  NoDup (mk_entry_key <$> result)
  ∧ (entry ∈ result
     ↔ entry ∈ entries ∧ (get_kind entry).1 ∈ kinds_to_add
       ∧ (same = [entry] ∨ (1 < length same ∧ first_noun same = Some entry))).
Proof.
  cbv zeta. rewrite filter_entries_by_kind_kept.
  destruct (group_by_key_grouped mk_entry_key kinds_to_add entries)
    as (Hnd & Hgroups & Hkeys).
  split.
  - apply (kept_keys_NoDup mk_entry_key entries); [done|].
    intros key entry_list Hin e He.
    destruct (Hgroups key entry_list Hin) as [-> _].
    by apply wanted_with_key_elem in He as (_ & ? & _).
  - split.
    + intros (l & He & Hl)%elem_of_concat.
      apply list_elem_of_fmap in Hl as ([key entry_list] & -> & Hin).
      cbn [snd] in He. destruct (Hgroups key entry_list Hin) as [-> _].
      apply kept_of_sub in He as [He Hsame].
      apply wanted_with_key_elem in He as (Hkind & <- & He). done.
    + intros (He & Hkind & Hsame).
      assert (entry ∈ wanted_with_key mk_entry_key kinds_to_add
                        (mk_entry_key entry) entries) as Hw
        by by apply wanted_with_key_elem.
      assert (mk_entry_key entry ∈
              (group_by_key mk_entry_key kinds_to_add entries).1.*1) as Hkey.
      { apply Hkeys. intros E. rewrite E in Hw. by apply elem_of_nil in Hw. }
      apply list_elem_of_fmap in Hkey as ([key entry_list] & Hk & Hin).
      cbn [fst] in Hk. subst key.
      destruct (Hgroups _ entry_list Hin) as [-> _].
      apply elem_of_concat. eexists. split;
        [|apply list_elem_of_fmap; eexists; split; [done|exact Hin]].
      cbn [snd]. unfold kept_of. destruct Hsame as [->|[Hlen ->]].
      * cbn. by left.
      * apply Nat.ltb_lt in Hlen. rewrite Hlen. cbn. by left.
Qed.

(** Two entries share the key 'water'; the noun among them is kept and
    comes before the entry 'fire', which stands between them. *)
Example filter_entries_by_kind_example :
  let key (entry : gmap str str) := default [] (entry !! ustr "en") in
  let a : gmap str str :=
    {[ ustr "en" := ustr "water"; ustr "class" := ustr "name" ]} in
  let b : gmap str str :=
    {[ ustr "en" := ustr "fire"; ustr "class" := ustr "noun" ]} in
  let c : gmap str str :=
    {[ ustr "en" := ustr "water"; ustr "class" := ustr "noun" ]} in
  let d : gmap str str :=
    {[ ustr "en" := ustr "go"; ustr "class" := ustr "verb" ]} in
  filter_entries_by_kind (U:=basic_unicode) key {[NOUN]} [a; b; c; d]
  = ([c; b], [InfoFoundEntries 2 (ustr "water")]).
Proof. by vm_compute. Qed.

(** ** [split_on_sep] on a text without separator *)

Section NoSeparator.
Context {U : Unicode}.

(** The continuation of a repetition is entered at an end of the text. *)
Lemma many_suffix {A} (cs : cset) (atleast : nat) (aft bef : str)
    (g : groups) (k : mstate → option A) (a : A) :
  many cs atleast aft bef g k = Some a →
  ∃ st, k st = Some a ∧ after st `suffix_of` aft.
Proof.
  revert atleast bef. induction aft as [|c aft IH]; intros atleast bef;
    cbn [many].
  - destruct atleast; [|done]. intros H. by eexists.
  - assert (match atleast with
            | 0 => k (MState bef (c :: aft) g)
            | S _ => None
            end = Some a →
            ∃ st, k st = Some a ∧ after st `suffix_of` c :: aft) as Hstop.
    { destruct atleast; [|done]. intros H. by eexists. }
    destruct (cset_match cs c); [|done].
    destruct (many cs (Nat.pred atleast) aft (c :: bef) g k) eqn:E; [|done].
    intros [= ->]. apply IH in E as (st & Hk & Hsuf).
    exists st. split; [done|]. by apply suffix_cons_r.
Qed.

Lemma str_in_suffix (s t b : str) :
  Py.str_in s t = false → b `suffix_of` t → Py.startswith s b = false.
Proof.
  induction t as [|c t IH]; cbn [Py.str_in].
  - intros H ->%suffix_nil_inv. by apply orb_false_iff in H as [? _].
  - intros [Hhere Hrest]%orb_false_iff Hb.
    destruct b as [|x b]; [apply IH; [done|apply suffix_nil]|].
    apply suffix_cons_inv in Hb as [->|Hb]; [done|by apply IH].
Qed.

Lemma startswith_app_false (s b t : str) :
  Py.startswith s (b ++ t) = false → Py.startswith s b = false.
Proof.
  intros H. destruct (Py.startswith s b) eqn:E; [|done].
  apply startswith_prefix in E. rewrite <-H. symmetry.
  apply startswith_prefix. by apply prefix_app_r.
Qed.

(** The pattern of the separator with the whitespace around it. *)
Lemma separator_no_match (s bef aft : str) :
  (∀ b, b `suffix_of` aft → Py.startswith s b = false) →
  match_at (seqs [Many CSpace 0; Lit s; Many CSpace 0]) bef aft = None.
Proof.
  intros Habs. unfold match_at. cbn [seqs rmatch before after caps].
  match goal with |- ?m = None => destruct m as [a|] eqn:E; [|done] end.
  apply many_suffix in E as (st & Hk & Hsuf). cbn [rmatch] in Hk.
  by rewrite (Habs _ Hsuf) in Hk.
Qed.

(** The pattern of a separator within parentheses. *)
Lemma separator_in_parens_no_match (s bef aft : str) :
  (∀ b, b `suffix_of` aft → Py.startswith s b = false) →
  match_at (seqs [lit "("; Many (CNotIn (ustr ")")) 0; Lit s;
                  Many (CNotIn (ustr ")")) 0; lit ")"]) bef aft = None.
Proof.
  intros Habs. unfold match_at. cbn [seqs rmatch before after caps lit].
  destruct (Py.startswith (ustr "(") aft); [|done].
  match goal with |- ?m = None => destruct m as [a|] eqn:E; [|done] end.
  apply many_suffix in E as (st & Hk & Hsuf). cbn [rmatch] in Hk.
  rewrite Habs in Hk; [done|].
  etrans; [exact Hsuf|]. cbn [advance after]. apply suffix_drop.
Qed.

Lemma split_go_no_match (r : regex) (s bef cur : str) :
  (∀ bef' b, b `suffix_of` s → match_at r bef' b = None) →
  Re.split_go r bef s 0 cur = [rev cur ++ s].
Proof.
  revert bef cur. induction s as [|c s IH]; intros bef cur Hno;
    cbn [Re.split_go].
  - rewrite Hno by done. by rewrite app_nil_r.
  - rewrite Hno by done. rewrite IH.
    + cbn [rev]. by rewrite <-app_assoc.
    + intros bef' b Hb. apply Hno. by apply suffix_cons_r.
Qed.

Lemma search_go_no_match (r : regex) (s bef : str) :
  (∀ bef' b, b `suffix_of` s → match_at r bef' b = None) →
  Re.search_go r bef s = false.
Proof.
  revert bef. induction s as [|c s IH]; intros bef Hno; cbn [Re.search_go];
    rewrite Hno by done; [done|].
  apply IH. intros bef' b Hb. apply Hno. by apply suffix_cons_r.
Qed.

End NoSeparator.

(** X26.  A text in which the separator does not occur is not split:
    [split_on_sep] returns the one item [text.strip()] (the empty string
    for a text of whitespace only). *)
Theorem split_on_sep_single `{U : Unicode} (text sep : str) :
  text ≠ [] → Py.str_in (Py.strip sep) text = false →
  split_on_sep text sep = [Py.strip text].
Proof.
  intros Hne Hsep. unfold split_on_sep. destruct text as [|c text]; [done|].
  cbv zeta. set (t := c :: text) in *.
  assert (∀ b, b `suffix_of` Py.strip t →
               Py.startswith (Py.strip sep) b = false) as Habs.
  { intros b [a Hb]. unfold Py.strip in Hb.
    destruct (rstrip_prefix (Py.lstrip t)) as (sp & E & _).
    destruct (lstrip_suffix t) as (sp' & E' & _).
    apply (startswith_app_false _ _ sp).
    apply (str_in_suffix _ t); [done|].
    exists (sp' ++ a). rewrite <-app_assoc, (app_assoc a), <-Hb, <-E. done. }
  unfold Re.search. rewrite search_go_no_match.
  - unfold Re.split. rewrite split_go_no_match; [done|].
    intros bef' b Hb. apply separator_no_match.
    intros b' Hb'. apply Habs. by etrans.
  - intros bef' b Hb. apply separator_in_parens_no_match.
    intros b' Hb'. apply Habs. by etrans.
Qed.

(** A class given alone. *)
Lemma split_on_sep_single_witness :
  split_on_sep (U:=basic_unicode) (ustr " proper noun ") (ustr ", ")
  = [Py.strip (ustr " proper noun ")].
Proof.
  apply (split_on_sep_single (U:=basic_unicode)); [done|by vm_compute].
Defined.

Example split_on_sep_blank :
  split_on_commas (U:=basic_unicode) (ustr "  ") = [[]]
  ∧ split_on_commas (U:=basic_unicode) [] = [].
Proof. by vm_compute. Qed.

(** A separator of whitespace only is empty once stripped; the pattern
    then matches the empty string, and [re.split] splits at every
    position. *)
Example split_on_sep_empty_separator :
  split_on_sep (U:=basic_unicode) (ustr "a b") (ustr " ")
  = [[]; ustr "a"; []; ustr "b"; []]
  ∧ split_on_sep (U:=basic_unicode) (ustr "ab") []
    = [[]; ustr "a"; ustr "b"; []].
Proof. by vm_compute. Qed.

(** ** Consonant clusters in valid words *)

Section Clusters.
Context {U : Unicode}.

Lemma validate_part_length (last_idx idx : nat) (part word : str) :
  validate_part last_idx idx part word = None →
  length part ≤ 3 ∧ (idx = 0 → length part ≤ 2).
Proof.
  destruct part as [|p0 rest]; [cbn; lia|]. unfold validate_part.
  destruct (_ && _); [done|].
  destruct ((0 <? idx) && Py.char_in p0 SYLLABLE_FINAL_CONSONANTS) eqn:E.
  - apply andb_true_iff in E as [Hidx%Nat.ltb_lt _].
    destruct rest as [|q0 qrest]; [cbn; lia|].
    destruct (Nat.ltb_spec 2 (length (q0 :: qrest))); [done|].
    intros _. cbn [length] in *. lia.
  - destruct (Nat.ltb_spec 2 (length (p0 :: rest))); [done|].
    intros _. cbn [length] in *. lia.
Qed.

Lemma validate_parts_length (last_idx idx : nat) (parts : list str)
    (word : str) :
  validate_parts last_idx idx parts word = None →
  Forall (λ part, length part ≤ 3) parts.
Proof.
  revert idx. induction parts as [|part parts IH]; intros idx; [constructor|].
  cbn [validate_parts].
  destruct (validate_part last_idx idx part word) eqn:E; [done|].
  intros H. constructor; [|by eapply IH].
  by apply validate_part_length in E as [? _].
Qed.

(** A run of consonants lies in one piece, but for the second letter of a
    diphthong before it. *)
Lemma split_go_runs (s bef : str) (skip : nat) (cur a run b : str) :
  skip ≤ 1 →
  Forall (λ part, length part ≤ 3) (Re.split_go VOWEL_SPLIT_RE bef s skip cur) →
  s = a ++ run ++ b →
  Forall (λ x, x ∉ INTERNAL_VOWELS) run →
  (a = [] → length run + length cur ≤ 3 + skip) ∧ (a ≠ [] → length run ≤ 4).
Proof.
  revert bef skip cur a run b. induction s as [|c s IH];
    intros bef skip cur a run b Hskip Hparts Hs Hrun.
  - symmetry in Hs. apply app_eq_nil in Hs as [-> [-> ->]%app_eq_nil].
    rewrite split_go_vowel_nil in Hparts. rewrite Forall_singleton in Hparts.
    rewrite length_rev in Hparts. cbn [length]. split; [lia|done].
  - destruct skip as [|skip].
    + rewrite split_go_vowel_step in Hparts.
      destruct (vowel_match_length_cases c s)
        as [[E Hc]|[[E Hc]|(E & Hc & _)]]; rewrite E in Hparts.
      * destruct a as [|x a]; cbn [app] in Hs.
        -- destruct run as [|x run]; cbn [app] in Hs.
           ++ destruct (IH (c :: bef) 0 (c :: cur) [] [] s Hskip Hparts eq_refl)
                as [H _]; [constructor|]. specialize (H eq_refl).
              cbn [length] in *. split; [lia|done].
           ++ injection Hs as <- ->. apply Forall_cons in Hrun as [_ Hrun].
              destruct (IH (c :: bef) 0 (c :: cur) [] run b Hskip Hparts eq_refl
                          Hrun) as [H _]. specialize (H eq_refl).
              cbn [length] in *. split; [lia|done].
        -- injection Hs as <- ->.
           destruct (IH (c :: bef) 0 (c :: cur) a run b Hskip Hparts eq_refl Hrun)
             as [H H']. split; [done|]. intros _.
           destruct a; [specialize (H eq_refl); cbn [length] in H; lia|by apply H'].
      * apply Forall_cons in Hparts as [Hcur Hparts].
        cbv beta in Hcur. rewrite length_rev in Hcur.
        destruct a as [|x a]; cbn [app] in Hs.
        -- destruct run as [|x run]; cbn [app] in Hs.
           ++ cbn [length]. split; [lia|done].
           ++ injection Hs as <- ->. by apply Forall_cons in Hrun as [? _].
        -- injection Hs as <- ->.
           destruct (IH (c :: bef) 0 [] a run b Hskip Hparts eq_refl Hrun)
             as [H H']. split; [done|]. intros _.
           destruct a; [specialize (H eq_refl); cbn [length] in H; lia|by apply H'].
      * apply Forall_cons in Hparts as [Hcur Hparts].
        cbv beta in Hcur. rewrite length_rev in Hcur.
        destruct a as [|x a]; cbn [app] in Hs.
        -- destruct run as [|x run]; cbn [app] in Hs.
           ++ cbn [length]. split; [lia|done].
           ++ injection Hs as <- ->. by apply Forall_cons in Hrun as [? _].
        -- injection Hs as <- ->.
           destruct (IH (c :: bef) 1 [] a run b (le_n 1) Hparts eq_refl Hrun)
             as [H H']. split; [done|]. intros _.
           destruct a; [specialize (H eq_refl); cbn [length] in H; lia|by apply H'].
    + assert (skip = 0) as -> by lia. cbn [Re.split_go] in Hparts.
      destruct a as [|x a]; cbn [app] in Hs.
      * destruct run as [|x run]; cbn [app] in Hs.
        -- destruct (IH (c :: bef) 0 cur [] [] s (le_0_n 1) Hparts eq_refl)
             as [H _]; [constructor|]. specialize (H eq_refl).
           cbn [length] in *. split; [lia|done].
        -- injection Hs as <- ->. apply Forall_cons in Hrun as [_ Hrun].
           destruct (IH (c :: bef) 0 cur [] run b (le_0_n 1) Hparts eq_refl Hrun)
             as [H _]. specialize (H eq_refl).
           cbn [length] in *. split; [lia|done].
      * injection Hs as <- ->.
        destruct (IH (c :: bef) 0 cur a run b (le_0_n 1) Hparts eq_refl Hrun)
          as [H H']. split; [done|]. intros _.
        destruct a; [specialize (H eq_refl); cbn [length] in H; lia|by apply H'].
Qed.

Lemma valid_word_clusters (w a run b : str) :
  validate_word w = None → w = a ++ run ++ b →
  Forall (λ x, x ∉ INTERNAL_VOWELS) run →
  length run ≤ 4 ∧ (a = [] → length run ≤ 2).
Proof.
  unfold validate_word, Re.split. cbv zeta. intros Hval Hw Hrun.
  pose proof (validate_parts_length _ _ _ _ Hval) as Hparts.
  destruct (split_go_runs w [] 0 [] a run b (le_0_n 1) Hparts Hw Hrun)
    as [Hfirst Hlater].
  split.
  - destruct a; [specialize (Hfirst eq_refl); cbn [length] in Hfirst; lia|].
    by apply Hlater.
  - intros ->. cbn [app] in Hw.
    destruct (split_go_first w [] []) as (pre & post & rest & E & Ew & Hpost).
    cbn [rev app] in E. rewrite E in Hval. cbn [validate_parts] in Hval.
    destruct (validate_part _ 0 pre w) eqn:Ep; [done|].
    apply validate_part_length in Ep as [_ Hpre]. specialize (Hpre eq_refl).
    destruct (decide (length run ≤ length pre)) as [|Hlong]; [lia|]. exfalso.
    destruct Hpost as [[-> _]|(v & post' & -> & Hv)].
    + rewrite app_nil_r in Ew. subst w.
      apply (f_equal length) in Ew. rewrite length_app in Ew. lia.
    + assert (run !! length pre = Some v) as Hlook.
      { assert ((run ++ b) !! length pre = Some v) as H.
        { rewrite <-Hw, Ew. by rewrite lookup_app_r, Nat.sub_diag by lia. }
        rewrite lookup_app_l in H by lia. done. }
      rewrite Forall_forall in Hrun. apply (Hrun v); [|done].
      by eapply list_elem_of_lookup_2.
Qed.

End Clusters.

(** X27.  A word of a valid candidate has no run of more than four
    letters other than vowels, and none of more than two at its start. *)
Theorem validate_word_clusters `{U : Unicode} `{F : PyFloat} (c : Candidate)
    (w a run b : str) :
  (validate c).1 = None → w ∈ Py.split (word c) → w = a ++ run ++ b →
  Forall (λ x, x ∉ INTERNAL_VOWELS) run →
  length run ≤ 4 ∧ (a = [] → length run ≤ 2).
Proof.
  unfold validate. cbv zeta. case_bool_decide; [done|]. intros Hval Hw.
  apply valid_word_clusters. by eapply validate_words_each.
Qed.

(** The four letters 'ykpr' of the valid word 'aykpra'. *)
Lemma validate_word_clusters_witness :
  length (ustr "ykpr") ≤ 4 ∧ (ustr "a" = [] → length (ustr "ykpr") ≤ 2).
Proof.
  apply (validate_word_clusters (U:=basic_unicode) (F:=exact_floats)
           (new_Candidate (ustr "aykpra") 0 (ustr "xx") (ustr "aykpra") None [])
           (ustr "aykpra") (ustr "a") (ustr "ykpr") (ustr "a")).
  - by vm_compute.
  - vm_compute. apply list_elem_of_here.
  - by vm_compute.
  - repeat (apply Forall_cons_2; [absent_char|]). apply Forall_nil_2.
Defined.
